(** * mtlsyn: controller synthesis for timed automata against MTL specifications

    A shallow embedding of the translator (MTL to ATA), of the search engine
    (search.h), of the controller extraction (create_controller.h) and of the
    launcher's [main], followed by the properties established about them.

    Conventions used throughout:
    - a [std::set] is a duplicate-free list, a [std::map] an association
      list with unique keys; the iteration order of the C++ containers is
      given by [operator<] of the element types, which no property below
      observes;
    - a C++ exception is a value of [exception]; a function that may throw
      returns a [result];
    - a pointer to a node of the search tree is the path that leads to the
      node from the root: nodes are never moved once placed and children are
      published once, so a path names one node for the whole search. *)

From Stdlib Require Import List String Bool Arith NArith ZArith QArith Lia.
Import ListNotations.
Close Scope Q_scope.
Open Scope string_scope.
Open Scope list_scope.

Set Implicit Arguments.

(* ================================================================== *)
(** * Exceptions and results *)
(* ================================================================== *)

(** An exception object: the classes derived from [std::exception] that
    occur, each with the string that [what()] returns. *)
Inductive exception : Type :=
| invalid_argument (what : string)
| logic_error (what : string)
| runtime_error (what : string)
| bad_variant_access.

Definition what (e : exception) : string :=
  match e with
  | invalid_argument w => w
  | logic_error w => w
  | runtime_error w => w
  | bad_variant_access => "bad_variant_access"
  end.

Inductive result (A : Type) : Type :=
| Ok (a : A)
| Throw (e : exception).

Arguments Ok {A} a.
Arguments Throw {A} e.

Definition bind {A B : Type} (r : result A) (k : A -> result B) : result B :=
  match r with
  | Ok a => k a
  | Throw e => Throw e
  end.

Notation "x <- r ;; k" := (bind r (fun x => k))
  (at level 61, r at next level, right associativity).

(** Run [f] on every element, left to right, stopping at the first throw. *)
Fixpoint for_each {A B : Type} (f : A -> result B) (l : list A) : result (list B) :=
  match l with
  | [] => Ok []
  | a :: l' => b <- f a ;; bs <- for_each f l' ;; Ok (b :: bs)
  end.

(* ================================================================== *)
(** * MTL formulas (namespace [logic]) *)
(* ================================================================== *)

Module logic.

Definition ActionType := string.

(** [logic::AtomicProposition<ActionType>]: a wrapper around the symbol. *)
Record AtomicProposition : Type := mkAP { ap_ : ActionType }.

Definition TimePoint := Q.

Inductive BoundType : Type := WEAK | STRICT | INFTY.

Record TimeInterval : Type := mkInterval {
  lower : TimePoint;
  lowerBoundType : BoundType;
  upper : TimePoint;
  upperBoundType : BoundType
}.

(** The operator tag [logic::LOP]; [init] switches over exactly these. *)
Inductive LOP : Type :=
| LAND | LOR | LNEG | LUNTIL | LDUNTIL | AP | TRUE | FALSE.

Inductive MTLFormula : Type :=
| MTrue
| MFalse
| MAtom (a : AtomicProposition)
| MAnd (front back : MTLFormula)
| MOr (front back : MTLFormula)
| MNeg (operand : MTLFormula)
| MUntil (front back : MTLFormula) (duration : TimeInterval)
| MDualUntil (front back : MTLFormula) (duration : TimeInterval).

Definition get_operator (f : MTLFormula) : LOP :=
  match f with
  | MTrue => TRUE
  | MFalse => FALSE
  | MAtom _ => AP
  | MAnd _ _ => LAND
  | MOr _ _ => LOR
  | MNeg _ => LNEG
  | MUntil _ _ _ => LUNTIL
  | MDualUntil _ _ _ => LDUNTIL
  end.

Definition get_operands (f : MTLFormula) : list MTLFormula :=
  match f with
  | MTrue | MFalse | MAtom _ => []
  | MAnd a b | MOr a b | MUntil a b _ | MDualUntil a b _ => [a; b]
  | MNeg a => [a]
  end.

Definition unbounded : TimeInterval := mkInterval 0%Q INFTY 0%Q INFTY.

(** Finally and globally are sugar for until and dual until. *)
Definition finally (f : MTLFormula) (i : TimeInterval) : MTLFormula :=
  MUntil MTrue f i.
Definition globally (f : MTLFormula) (i : TimeInterval) : MTLFormula :=
  MDualUntil MFalse f i.

Definition LOP_eqb (a b : LOP) : bool :=
  match a, b with
  | LAND, LAND | LOR, LOR | LNEG, LNEG | LUNTIL, LUNTIL
  | LDUNTIL, LDUNTIL | AP, AP | TRUE, TRUE | FALSE, FALSE => true
  | _, _ => false
  end.

Definition AtomicProposition_eq_dec (a b : AtomicProposition) : {a = b} + {a <> b}.
Proof. decide equality. apply string_dec. Defined.

Definition TimePoint_eq_dec (a b : TimePoint) : {a = b} + {a <> b}.
Proof. decide equality; [apply Pos.eq_dec | apply Z.eq_dec]. Defined.

Definition BoundType_eq_dec (a b : BoundType) : {a = b} + {a <> b}.
Proof. decide equality. Defined.

Definition TimeInterval_eq_dec (a b : TimeInterval) : {a = b} + {a <> b}.
Proof. decide equality; (apply BoundType_eq_dec || apply TimePoint_eq_dec). Defined.

Definition MTLFormula_eq_dec (a b : MTLFormula) : {a = b} + {a <> b}.
Proof.
  decide equality; (apply TimeInterval_eq_dec || apply AtomicProposition_eq_dec).
Defined.

(** Modelled from the spec: [MTLFormula::to_positive_normal_form] is declared
    in mtl/MTLFormula.h, which is not among the sources.  In positive normal
    form a negation stands only directly above an atomic proposition; the
    negation is pushed inwards by De Morgan's laws and by the duality of
    until and dual until, [negated] recording a pending negation. *)
Fixpoint pnf_under (negated : bool) (f : MTLFormula) : MTLFormula :=
  match f with
  | MTrue => if negated then MFalse else MTrue
  | MFalse => if negated then MTrue else MFalse
  | MAtom a => if negated then MNeg (MAtom a) else MAtom a
  | MAnd a b =>
      if negated then MOr (pnf_under true a) (pnf_under true b)
      else MAnd (pnf_under false a) (pnf_under false b)
  | MOr a b =>
      if negated then MAnd (pnf_under true a) (pnf_under true b)
      else MOr (pnf_under false a) (pnf_under false b)
  | MNeg a => pnf_under (negb negated) a
  | MUntil a b i =>
      if negated then MDualUntil (pnf_under true a) (pnf_under true b) i
      else MUntil (pnf_under false a) (pnf_under false b) i
  | MDualUntil a b i =>
      if negated then MUntil (pnf_under true a) (pnf_under true b) i
      else MDualUntil (pnf_under false a) (pnf_under false b) i
  end.

Definition to_positive_normal_form (f : MTLFormula) : MTLFormula :=
  pnf_under false f.

(** A formula is in positive normal form. *)
Fixpoint is_pnf (f : MTLFormula) : bool :=
  match f with
  | MTrue | MFalse | MAtom _ => true
  | MNeg (MAtom _) => true
  | MNeg _ => false
  | MAnd a b | MOr a b | MUntil a b _ | MDualUntil a b _ => is_pnf a && is_pnf b
  end.

Definition formula_set := list MTLFormula.

Definition set_insert {A : Type} (dec : forall a b : A, {a = b} + {a <> b})
  (x : A) (s : list A) : list A :=
  if in_dec dec x s then s else s ++ [x].

Definition set_insert_all {A : Type} (dec : forall a b : A, {a = b} + {a <> b})
  (xs s : list A) : list A :=
  fold_left (fun acc x => set_insert dec x acc) xs s.

(** Every subformula, the formula itself first. *)
Fixpoint subformulas (f : MTLFormula) : list MTLFormula :=
  f :: match f with
       | MTrue | MFalse | MAtom _ => []
       | MAnd a b | MOr a b | MUntil a b _ | MDualUntil a b _ =>
           subformulas a ++ subformulas b
       | MNeg a => subformulas a
       end.

(** Modelled from the spec: [MTLFormula::get_subformulas_of_type] (in
    mtl/MTLFormula.h, not among the sources) yields the set of the
    subformulas carrying the given operator. *)
Definition get_subformulas_of_type (f : MTLFormula) (op : LOP) : formula_set :=
  set_insert_all MTLFormula_eq_dec
    (filter (fun g => LOP_eqb (get_operator g) op) (subformulas f)) [].

Fixpoint atoms (f : MTLFormula) : list AtomicProposition :=
  match f with
  | MTrue | MFalse => []
  | MAtom a => [a]
  | MAnd a b | MOr a b | MUntil a b _ | MDualUntil a b _ => atoms a ++ atoms b
  | MNeg a => atoms a
  end.

(** Modelled from the spec: [MTLFormula::get_alphabet] (in mtl/MTLFormula.h,
    not among the sources) yields the atomic propositions of the formula. *)
Definition get_alphabet (f : MTLFormula) : list AtomicProposition :=
  set_insert_all AtomicProposition_eq_dec (atoms f) [].

End logic.

(* ================================================================== *)
(** * ATA formulas and ATAs (namespace [automata]) *)
(* ================================================================== *)

Module automata.
Import logic.

(** [AtomicClockConstraintT<Comp>] with its comparison functor. *)
Inductive ClockConstraint : Type :=
| less (c : TimePoint)
| less_equal (c : TimePoint)
| equal_to (c : TimePoint)
| not_equal_to (c : TimePoint)
| greater_equal (c : TimePoint)
| greater (c : TimePoint).

Module ata.

(** [ata::Formula<MTLFormula<ActionType>>] and its subclasses. *)
Inductive Formula : Type :=
| TrueFormula
| FalseFormula
| LocationFormula (location : MTLFormula)
| ClockConstraintFormula (constraint : ClockConstraint)
| ConjunctionFormula (conjunct1 conjunct2 : Formula)
| DisjunctionFormula (disjunct1 disjunct2 : Formula)
| ResetClockFormula (sub_formula : Formula).

(** Modelled from the spec: [ata::create_conjunction] is declared in
    automata/ata_formula.h, which is not among the sources; the transition
    formulas of the construction are written with the plain connective. *)
Definition create_conjunction (f g : Formula) : Formula := ConjunctionFormula f g.

(** Modelled from the spec: [ata::create_disjunction], as above. *)
Definition create_disjunction (f g : Formula) : Formula := DisjunctionFormula f g.

Record Transition : Type := mkTransition {
  source_ : MTLFormula;
  symbol_ : ActionType;
  formula_ : Formula
}.

(** [AlternatingTimedAutomaton<MTLFormula, AtomicProposition>], by the
    arguments of its constructor. *)
Record AlternatingTimedAutomaton : Type := mkATA {
  alphabet_ : list AtomicProposition;
  initial_location_ : MTLFormula;
  final_locations_ : list MTLFormula;
  transitions_ : list Transition;
  sink_location_ : MTLFormula
}.

End ata.
End automata.

(* ================================================================== *)
(** * The translator (translator.cpp) *)
(* ================================================================== *)

Module mtl_ata_translation.
Import logic automata automata.ata.

Definition l0 : AtomicProposition := mkAP "l0".
Definition sink : AtomicProposition := mkAP "sink".

Definition get_closure (formula : MTLFormula) : formula_set :=
  let untils := get_subformulas_of_type formula LUNTIL in
  let dual_untils := get_subformulas_of_type formula LDUNTIL in
  set_insert_all MTLFormula_eq_dec dual_untils untils.

(** Creates the constraint defining the passed interval. *)
Definition create_contains (duration : TimeInterval) : Formula :=
  let lowerBound :=
    match lowerBoundType duration with
    | INFTY => TrueFormula
    | WEAK => ClockConstraintFormula (greater_equal (lower duration))
    | STRICT => ClockConstraintFormula (greater (lower duration))
    end in
  let upperBound :=
    match upperBoundType duration with
    | INFTY => TrueFormula
    | WEAK => ClockConstraintFormula (less_equal (upper duration))
    | STRICT => ClockConstraintFormula (less (upper duration))
    end in
  create_conjunction lowerBound upperBound.

(** Creates the constraint excluding the passed interval. *)
Definition create_negated_contains (duration : TimeInterval) : Formula :=
  let lowerBound :=
    match lowerBoundType duration with
    | INFTY => FalseFormula
    | WEAK => ClockConstraintFormula (less (lower duration))
    | STRICT => ClockConstraintFormula (less_equal (lower duration))
    end in
  let upperBound :=
    match upperBoundType duration with
    | INFTY => FalseFormula
    | WEAK => ClockConstraintFormula (greater (upper duration))
    | STRICT => ClockConstraintFormula (greater_equal (upper duration))
    end in
  create_disjunction lowerBound upperBound.

Definition not_pnf_message : string :=
  "The formula is not in positive normal form.".

(** [init(formula, ap, first)]; the operands of a binary operator are
    [get_operands().front()] and [get_operands().back()]. *)
Fixpoint init (formula : MTLFormula) (ap : AtomicProposition) (first : bool)
  : result Formula :=
  match formula with
  | MTrue => Ok TrueFormula
  | MFalse => Ok FalseFormula
  | MUntil _ _ _ | MDualUntil _ _ _ =>
      if first then Ok (LocationFormula formula)
      else Ok (ResetClockFormula (LocationFormula formula))
  | MAnd a b =>
      fa <- init a ap first ;; fb <- init b ap first ;;
      Ok (create_conjunction fa fb)
  | MOr a b =>
      fa <- init a ap first ;; fb <- init b ap first ;;
      Ok (create_disjunction fa fb)
  | MAtom b =>
      if AtomicProposition_eq_dec b ap then Ok TrueFormula else Ok FalseFormula
  | MNeg operand =>
      match operand with
      | MTrue => Ok FalseFormula
      | MFalse => Ok TrueFormula
      | MAtom b =>
          if AtomicProposition_eq_dec b ap then Ok FalseFormula else Ok TrueFormula
      | _ => Throw (logic_error not_pnf_message)
      end
  end.

(** The transition of an until location for one symbol. *)
Definition until_transition (symbol : AtomicProposition) (until : MTLFormula)
  : result Transition :=
  match until with
  | MUntil front back duration =>
      fb <- init back symbol false ;;
      ff <- init front symbol false ;;
      Ok (mkTransition until (ap_ symbol)
            (create_disjunction
               (create_conjunction fb (create_contains duration))
               (create_conjunction ff (LocationFormula until))))
  | _ => Throw (logic_error "Unexpected formula operator")
  end.

(** The transition of a dual until location for one symbol. *)
Definition dual_until_transition (symbol : AtomicProposition) (dual_until : MTLFormula)
  : result Transition :=
  match dual_until with
  | MDualUntil front back duration =>
      fb <- init back symbol false ;;
      ff <- init front symbol false ;;
      Ok (mkTransition dual_until (ap_ symbol)
            (create_conjunction
               (create_disjunction fb (create_negated_contains duration))
               (create_disjunction ff (LocationFormula dual_until))))
  | _ => Throw (logic_error "Unexpected formula operator")
  end.

(** The body of the loop over the alphabet: the transitions for one symbol. *)
Definition symbol_transitions (formula : MTLFormula) (untils dual_untils : formula_set)
  (symbol : AtomicProposition) : result (list Transition) :=
  f0 <- init formula symbol true ;;
  us <- for_each (until_transition symbol) untils ;;
  ds <- for_each (dual_until_transition symbol) dual_untils ;;
  Ok (mkTransition (MAtom l0) (ap_ symbol) f0 :: us ++ ds).

(** The alphabet the automaton reads: the one given, or the one of the
    formula when none is given. *)
Definition effective_alphabet (input_formula : MTLFormula)
  (alphabet : list AtomicProposition) : list AtomicProposition :=
  match alphabet with
  | [] => get_alphabet (to_positive_normal_form input_formula)
  | _ => alphabet
  end.

Definition l0_message : string :=
  "The formula alphabet must not contain the symbol 'l0'".

Definition translate (input_formula : MTLFormula) (alphabet : list AtomicProposition)
  : result AlternatingTimedAutomaton :=
  let formula := to_positive_normal_form input_formula in
  let alphabet :=
    match alphabet with
    | [] => get_alphabet formula
    | _ => alphabet
    end in
  if (0 <? count_occ AtomicProposition_eq_dec alphabet l0)%nat then
    Throw (invalid_argument l0_message)
  else
    let locations := set_insert MTLFormula_eq_dec (MAtom l0) (get_closure formula) in
    let untils := get_subformulas_of_type formula LUNTIL in
    let dual_untils := get_subformulas_of_type formula LDUNTIL in
    let accepting_locations := dual_untils in
    transitions <- for_each (symbol_transitions formula untils dual_untils) alphabet ;;
    Ok (mkATA alphabet (MAtom l0) accepting_locations (List.concat transitions) (MAtom sink)).

End mtl_ata_translation.

(* ================================================================== *)
(** * The search tree (namespace [search]) *)
(* ================================================================== *)

Module search.
Import logic.

(** Modelled from the spec: [RegionIndex] is declared in
    automata/ta_regions.h, which is not among the sources; region indices
    are non-negative integers of a fixed width, the largest of which is what
    [std::numeric_limits<RegionIndex>::max()] returns.  Only the fact that no
    region index exceeds it is used. *)
Definition RegionIndex := N.
Definition RegionIndex_max : RegionIndex := 4294967295%N.

Definition Location := string.

Record TARegionState : Type := mkTARegionState {
  location : Location;
  clock : string;
  region_index : RegionIndex
}.

Record ATARegionState : Type := mkATARegionState {
  formula : MTLFormula;
  ata_region_index : RegionIndex
}.

(** [ABRegionSymbol = std::variant<TARegionState, ATARegionState>]. *)
Inductive ABRegionSymbol : Type :=
| TASymbol (s : TARegionState)
| ATASymbol (s : ATARegionState).

(** [CanonicalABWord = std::vector<std::set<ABRegionSymbol>>]. *)
Definition CanonicalABWord := list (list ABRegionSymbol).

Definition ABRegionSymbol_eq_dec (a b : ABRegionSymbol) : {a = b} + {a <> b}.
Proof.
  decide equality.
  - decide equality; (apply N.eq_dec || apply string_dec).
  - decide equality; (apply N.eq_dec || apply MTLFormula_eq_dec).
Defined.

Definition CanonicalABWord_eq_dec (a b : CanonicalABWord) : {a = b} + {a <> b}.
Proof. apply list_eq_dec, list_eq_dec, ABRegionSymbol_eq_dec. Defined.

Definition Action_eq_dec (a b : RegionIndex * ActionType) : {a = b} + {a <> b}.
Proof. decide equality; (apply N.eq_dec || apply string_dec). Defined.

Definition Successor_eq_dec (a b : RegionIndex * CanonicalABWord) : {a = b} + {a <> b}.
Proof. decide equality; (apply N.eq_dec || apply CanonicalABWord_eq_dec). Defined.

Inductive NodeState : Type := UNKNOWN | GOOD | BAD | DEAD.

Inductive NodeLabel : Type := UNLABELED | BOTTOM | TOP | CANCELED.

Inductive LabelReason : Type :=
| REASON_UNKNOWN
| BAD_NODE
| DEAD_NODE
| NO_ATA_SUCCESSOR
| MONOTONIC_DOMINATION
| NO_BAD_ENV_ACTION
| GOOD_CONTROLLER_ACTION_FIRST
| BAD_ENV_ACTION_FIRST.

Definition NodeLabel_eq_dec (a b : NodeLabel) : {a = b} + {a <> b}.
Proof. decide equality. Defined.

Definition NodeState_eq_dec (a b : NodeState) : {a = b} + {a <> b}.
Proof. decide equality. Defined.

#[local] Set Warnings "-register-all".

(** [SearchTreeNode]: the children are owned by the node; the [parent]
    back-reference is the position of the node in the tree (see [NodePtr]). *)
Inductive Node : Type := mkNode {
  words : list CanonicalABWord;
  incoming_actions : list (RegionIndex * ActionType);
  state : NodeState;
  label : NodeLabel;
  label_reason : LabelReason;
  is_expanded : bool;
  children : list Node
}.

(** A newly constructed node, as the constructor leaves it. *)
Definition new_node (ws : list CanonicalABWord)
  (incoming : list (RegionIndex * ActionType)) : Node :=
  mkNode ws incoming UNKNOWN UNLABELED REASON_UNKNOWN false [].

Definition set_state (s : NodeState) (n : Node) : Node :=
  mkNode (words n) (incoming_actions n) s (label n) (label_reason n)
    (is_expanded n) (children n).

Definition set_label_reason (r : LabelReason) (n : Node) : Node :=
  mkNode (words n) (incoming_actions n) (state n) (label n) r
    (is_expanded n) (children n).

Definition set_is_expanded (e : bool) (n : Node) : Node :=
  mkNode (words n) (incoming_actions n) (state n) (label n) (label_reason n)
    e (children n).

Definition set_children (cs : list Node) (n : Node) : Node :=
  mkNode (words n) (incoming_actions n) (state n) (label n) (label_reason n)
    (is_expanded n) cs.

Definition assign_label (l : NodeLabel) (n : Node) : Node :=
  mkNode (words n) (incoming_actions n) (state n) l (label_reason n)
    (is_expanded n) (children n).

(** Marks a still unlabeled node and the unlabeled nodes below it as
    canceled. *)
Fixpoint cancel (n : Node) : Node :=
  match label n with
  | UNLABELED =>
      mkNode (words n) (incoming_actions n) (state n) CANCELED (label_reason n)
        (is_expanded n) (map cancel (children n))
  | _ => n
  end.

(** Modelled from the spec: [SearchTreeNode::set_label] is declared in
    search_tree.h, which is not among the sources.  It stores the label and,
    when [cancel_children] is set, marks the still unlabeled nodes below as
    [CANCELED]. *)
Definition set_label (l : NodeLabel) (cancel_children : bool) (n : Node) : Node :=
  let n' := assign_label l n in
  if cancel_children then set_children (map cancel (children n')) n' else n'.

(** A pointer to a node: the indices of the children to descend into,
    starting at the root. *)
Definition NodePtr := list nat.

Fixpoint get_node (root : Node) (p : NodePtr) : option Node :=
  match p with
  | [] => Some root
  | i :: p' =>
      match nth_error (children root) i with
      | Some c => get_node c p'
      | None => None
      end
  end.

Fixpoint replace_nth {A : Type} (i : nat) (x : A) (l : list A) : list A :=
  match l, i with
  | [], _ => []
  | _ :: l', O => x :: l'
  | a :: l', S i' => a :: replace_nth i' x l'
  end.

(** Applies [f] to the node that [p] points to. *)
Fixpoint update_node (f : Node -> Node) (root : Node) (p : NodePtr) : Node :=
  match p with
  | [] => f root
  | i :: p' =>
      match nth_error (children root) i with
      | Some c => set_children (replace_nth i (update_node f c p') (children root)) root
      | None => root
      end
  end.

(** The [words] of the ancestors of the node that [p] points to, the parent
    first: what following [parent] up to the root visits. *)
Fixpoint ancestor_words (above : list (list CanonicalABWord)) (root : Node) (p : NodePtr)
  : list (list CanonicalABWord) :=
  match p with
  | [] => above
  | i :: p' =>
      match nth_error (children root) i with
      | Some c => ancestor_words (words root :: above) c p'
      | None => above
      end
  end.

Definition mem_action (a : ActionType) (s : list ActionType) : bool :=
  if in_dec string_dec a s then true else false.

(* ------------------------------------------------------------------ *)
(** ** Incremental labeling *)

Definition label_is (l : NodeLabel) (n : Node) : bool :=
  if NodeLabel_eq_dec (label n) l then true else false.

(** The region increments of the actions in [actions] that lead to a child
    labeled [l]. *)
Definition steps_of (l : NodeLabel) (actions : list ActionType) (cs : list Node)
  : list RegionIndex :=
  flat_map
    (fun c =>
       if label_is l c
       then map fst (filter (fun sa => mem_action (snd sa) actions) (incoming_actions c))
       else [])
    cs.

(** The smallest element, if there is one. *)
Fixpoint first_step (steps : list RegionIndex) : option RegionIndex :=
  match steps with
  | [] => None
  | d :: rest =>
      match first_step rest with
      | None => Some d
      | Some m => Some (N.min d m)
      end
  end.

Definition is_none {A : Type} (o : option A) : bool :=
  match o with None => true | Some _ => false end.

(** [a] exists and lies strictly before [b], if [b] exists. *)
Definition strictly_before (a b : option RegionIndex) : bool :=
  match a, b with
  | Some x, Some y => (x <? y)%N
  | Some _, None => true
  | None, _ => false
  end.

(** [a] exists and [b], if it exists, does not lie strictly before it. *)
Definition not_after (a b : option RegionIndex) : bool :=
  match a, b with
  | Some x, Some y => (x <=? y)%N
  | Some _, None => true
  | None, _ => false
  end.

(** Modelled from the spec: the decision of [SearchTreeNode::label_propagate]
    (search_tree.h, not among the sources).  The node is labeled iff the
    label is determined by the children labeled so far:
    - [TOP] when no environment action leads to a child that is [BOTTOM] or
      still unlabeled;
    - [TOP] when a controller action leads to a [TOP] child strictly before
      every environment action that leads to a [BOTTOM] child or, in the
      worst case, to a still unlabeled one;
    - [BOTTOM] when an environment action leads to a [BOTTOM] child and no
      controller action leads strictly earlier to a child that is [TOP] or,
      in the best case, still unlabeled;
    - no label otherwise. *)
Definition label_decision (controller_actions environment_actions : list ActionType)
  (cs : list Node) : option (NodeLabel * LabelReason) :=
  let first_good_controller_step := first_step (steps_of TOP controller_actions cs) in
  let first_non_bad_controller_step := first_step (steps_of UNLABELED controller_actions cs) in
  let first_non_good_environment_step := first_step (steps_of UNLABELED environment_actions cs) in
  let first_bad_environment_step := first_step (steps_of BOTTOM environment_actions cs) in
  if is_none first_non_good_environment_step && is_none first_bad_environment_step then
    Some (TOP, NO_BAD_ENV_ACTION)
  else if strictly_before first_good_controller_step first_non_good_environment_step
          && strictly_before first_good_controller_step first_bad_environment_step then
    Some (TOP, GOOD_CONTROLLER_ACTION_FIRST)
  else if not_after first_bad_environment_step first_good_controller_step
          && not_after first_bad_environment_step first_non_bad_controller_step then
    Some (BOTTOM, BAD_ENV_ACTION_FIRST)
  else None.

(** Modelled from the spec: [SearchTreeNode::label_propagate] (search_tree.h,
    not among the sources), called on the node that [p] points to below
    [root] once that node has its label.  Each ancestor, the parent first, is
    labeled when [label_decision] determines its label, and the walk goes on
    to the next ancestor as long as the one just visited is labeled.  The
    walk up the [parent] pointers is the return path of the descent along
    [p]. *)
Fixpoint label_propagate (controller_actions environment_actions : list ActionType)
  (cancel_children : bool) (root : Node) (p : NodePtr) : Node :=
  match p with
  | [] => root
  | i :: p' =>
      match nth_error (children root) i with
      | None => root
      | Some c =>
          let c' := label_propagate controller_actions environment_actions
                      cancel_children c p' in
          let root' := set_children (replace_nth i c' (children root)) root in
          match label c' with
          | UNLABELED => root'
          | _ =>
              match label_decision controller_actions environment_actions
                      (children root') with
              | Some (l, reason) =>
                  set_label l cancel_children (set_label_reason reason root')
              | None => root'
              end
          end
      end
  end.

(* ------------------------------------------------------------------ *)
(** ** The plant and the specification, as the search sees them *)

(** A configuration of the plant: a location and a clock valuation. *)
Definition TAConfiguration : Type := (Location * list (string * TimePoint))%type.
(** A configuration of the ATA: the active locations with their clock values. *)
Definition ATAConfiguration : Type := list (MTLFormula * TimePoint).

(** The operations that search.h calls on the plant [ta_], on the automaton
    [ata_] and on canonical words.  They are defined in headers that are not
    among the sources (automata/ta.h, automata/ata.h, canonical_word.h,
    synchronous_product.h, reg_a.h, operators.h) and are parameters here. *)
Record SynchronousProduct : Type := mkProduct {
  (** [ta_->get_alphabet()] *)
  get_alphabet : list ActionType;
  (** [ta_->is_accepting_configuration] *)
  ta_is_accepting_configuration : TAConfiguration -> bool;
  (** [ata_->is_accepting_configuration] *)
  ata_is_accepting_configuration : ATAConfiguration -> bool;
  get_candidate : CanonicalABWord -> TAConfiguration * ATAConfiguration;
  get_time_successors : CanonicalABWord -> RegionIndex -> list (RegionIndex * CanonicalABWord);
  (** [get_next_canonical_words] on [ta_] and [ata_] *)
  get_next_canonical_words :
    TAConfiguration * ATAConfiguration -> ActionType -> RegionIndex -> list CanonicalABWord;
  reg_a : CanonicalABWord -> CanonicalABWord;
  is_monotonically_dominated : list CanonicalABWord -> list CanonicalABWord -> bool;
  (** [get_canonical_word(ta->get_initial_configuration(),
      ata->get_initial_configuration(), K)] *)
  initial_canonical_word : RegionIndex -> CanonicalABWord
}.

(** [has_satisfiable_ata_configuration]: false if every word contains an ATA
    sink location. *)
Definition is_sink_symbol (region_symbol : ABRegionSymbol) : bool :=
  match region_symbol with
  | ATASymbol s =>
      if MTLFormula_eq_dec (formula s) (MAtom (mkAP "sink")) then true else false
  | TASymbol _ => false
  end.

Definition has_satisfiable_ata_configuration (node : Node) : bool :=
  negb (forallb
          (fun word => existsb (fun component => existsb is_sink_symbol component) word)
          (words node)).

(* ------------------------------------------------------------------ *)
(** ** [TreeSearch] (search.h) *)

Module TreeSearch.

(** The members of [TreeSearch] other than [ta_] and [ata_], which are the
    [SynchronousProduct] passed to the methods.

    Modelled from the spec: the thread pool (utilities/priority_thread_pool.h)
    and the heuristics (heuristics.h) are not among the sources.  [pool_]
    holds the queued jobs, each the node that [expand_node] is to be called
    on; which of them the priority queue has on top is decided by the
    heuristic, and is an argument of [step]. *)
Record t : Type := mkTreeSearch {
  controller_actions_ : list ActionType;
  environment_actions_ : list ActionType;
  K_ : RegionIndex;
  incremental_labeling_ : bool;
  terminate_early_ : bool;
  tree_root_ : Node;
  pool_ : list NodePtr
}.

Definition with_root (root : Node) (s : t) : t :=
  mkTreeSearch (controller_actions_ s) (environment_actions_ s) (K_ s)
    (incremental_labeling_ s) (terminate_early_ s) root (pool_ s).

Definition with_pool (pool : list NodePtr) (s : t) : t :=
  mkTreeSearch (controller_actions_ s) (environment_actions_ s) (K_ s)
    (incremental_labeling_ s) (terminate_early_ s) (tree_root_ s) pool.

(** Runs [f] on the node [node] of the tree of [s]. *)
Definition on_node (f : Node -> Node) (node : NodePtr) (s : t) : t :=
  with_root (update_node f (tree_root_ s) node) s.

(** The outcome of a function that starts with assertions. *)
Inductive asserted (A : Type) : Type :=
| Passed (a : A)
| AssertionFailed.
Arguments Passed {A} a.
Arguments AssertionFailed {A}.

(** [operator[]] followed by [insert] on a [std::map] of sets. *)
Fixpoint map_insert {X : Type} (dec : forall a b : X, {a = b} + {a <> b})
  (key : CanonicalABWord) (x : X) (m : list (CanonicalABWord * list X))
  : list (CanonicalABWord * list X) :=
  match m with
  | [] => [(key, [x])]
  | (k, xs) :: m' =>
      if CanonicalABWord_eq_dec k key then (k, set_insert dec x xs) :: m'
      else (k, xs) :: map_insert dec key x m'
  end.

(** [operator[]] on a [std::map] of sets, for reading. *)
Fixpoint map_at {X : Type} (key : CanonicalABWord) (m : list (CanonicalABWord * list X))
  : list X :=
  match m with
  | [] => []
  | (k, xs) :: m' => if CanonicalABWord_eq_dec k key then xs else map_at key m'
  end.

Fixpoint remove_nth {A : Type} (i : nat) (l : list A) : list A :=
  match l, i with
  | [], _ => []
  | _ :: l', O => l'
  | a :: l', S i' => a :: remove_nth i' l'
  end.

Section TreeSearchMethods.

Variable product : SynchronousProduct.

(** The constructor: the two action sets are asserted to be disjoint, and
    the root is put into the queue. *)
Definition new (controller_actions environment_actions : list ActionType)
  (K : RegionIndex) (incremental_labeling terminate_early : bool)
  : asserted t :=
  if negb (forallb (fun a => negb (mem_action a environment_actions)) controller_actions)
  then AssertionFailed
  else if negb (forallb (fun a => negb (mem_action a controller_actions)) environment_actions)
  then AssertionFailed
  else
    Passed (mkTreeSearch controller_actions environment_actions K
              incremental_labeling terminate_early
              (new_node [initial_canonical_word product K] [])
              [ [] ]).

Definition get_root (s : t) : Node := tree_root_ s.

(** A node is bad if it violates the specification. *)
Definition is_bad_node (node : Node) : bool :=
  existsb
    (fun word =>
       let candidate := get_candidate product word in
       ta_is_accepting_configuration product (fst candidate)
       && ata_is_accepting_configuration product (snd candidate))
    (words node).

(** Is there an ancestor that monotonically dominates the node? *)
Definition dominates_ancestor (s : t) (node : NodePtr) : bool :=
  match get_node (tree_root_ s) node with
  | Some n =>
      existsb
        (fun ancestor_words => is_monotonically_dominated product ancestor_words (words n))
        (ancestor_words [] (tree_root_ s) node)
  | None => false
  end.

Definition add_node_to_queue (s : t) (node : NodePtr) : t :=
  with_pool (pool_ s ++ [node]) s.

(** [node->label_propagate(controller_actions_, environment_actions_,
    terminate_early_)]. *)
Definition propagate (node : NodePtr) (s : t) : t :=
  with_root
    (label_propagate (controller_actions_ s) (environment_actions_ s)
       (terminate_early_ s) (tree_root_ s) node)
    s.

(** The successors collected for one symbol: a set of pairs of a region
    increment and a canonical word. *)
Definition symbol_successors (K : RegionIndex) (n : Node) (symbol : ActionType)
  : list (RegionIndex * CanonicalABWord) :=
  set_insert_all Successor_eq_dec
    (flat_map
       (fun word =>
          flat_map
            (fun ts =>
               map (fun successor => (fst ts, successor))
                 (get_next_canonical_words product
                    (get_candidate product (snd ts)) symbol K))
            (get_time_successors product word K))
       (words n))
    [].

Definition child_maps : Type :=
  (list (CanonicalABWord * list CanonicalABWord)
   * list (CanonicalABWord * list (RegionIndex * ActionType)))%type.

(** Partition the successors by their reg_a component. *)
Definition partition_successors (symbol : ActionType)
  (successors : list (RegionIndex * CanonicalABWord)) (maps : child_maps) : child_maps :=
  fold_left
    (fun (m : child_maps) (succ : RegionIndex * CanonicalABWord) =>
       let word_reg := reg_a product (snd succ) in
       (map_insert CanonicalABWord_eq_dec word_reg (snd succ) (fst m),
        map_insert Action_eq_dec word_reg (fst succ, symbol) (snd m)))
    successors maps.

(** The child nodes: each child contains all successor words of the same
    reg_a class, and the actions that lead to the class. *)
Definition create_children (K : RegionIndex) (n : Node) : list Node :=
  let maps :=
    fold_left
      (fun (m : child_maps) symbol =>
         partition_successors symbol (symbol_successors K n symbol) m)
      (get_alphabet product) ([], []) in
  map (fun map_entry => new_node (snd map_entry) (map_at (fst map_entry) (snd maps)))
    (fst maps).

(** The three early exits of [expand_node] for a node that is not expanded
    further: [label_reason], [state] and [is_expanded] are set and, under
    incremental labeling, the node is labeled and the label propagated. *)
Definition close_node (s : t) (node : NodePtr)
  (reason : LabelReason) (st : NodeState) (l : NodeLabel) : t :=
  let s1 :=
    on_node (fun n => set_is_expanded true (set_state st (set_label_reason reason n)))
      node s in
  if incremental_labeling_ s then
    propagate node (on_node (set_label l (terminate_early_ s)) node s1)
  else s1.

(** Process and expand the given node. *)
Definition expand_node (s : t) (node : NodePtr) : t :=
  match get_node (tree_root_ s) node with
  | None => s
  | Some n =>
      if is_expanded n || negb (label_is UNLABELED n) then s
      else if is_bad_node n then close_node s node BAD_NODE BAD BOTTOM
      else if negb (has_satisfiable_ata_configuration n) then
        close_node s node NO_ATA_SUCCESSOR GOOD TOP
      else if dominates_ancestor s node then
        close_node s node MONOTONIC_DOMINATION GOOD TOP
      else
        let new_children := create_children (K_ s) n in
        let s1 := on_node (set_children new_children) node s in
        if label_is CANCELED n then
          on_node (fun m => set_is_expanded true (set_children [] m)) node s1
        else
          let s2 := on_node (set_is_expanded true) node s1 in
          let s3 :=
            fold_left add_node_to_queue
              (map (fun i => node ++ [i]) (seq 0 (List.length new_children))) s2 in
          match new_children with
          | [] =>
              let s4 := on_node (set_state DEAD) node s3 in
              if incremental_labeling_ s then
                propagate node
                  (on_node
                     (fun m => set_label TOP (terminate_early_ s)
                                 (set_label_reason DEAD_NODE m))
                     node s4)
              else s4
          | _ :: _ => s3
          end
  end.

(** Compute the next iteration: the job on top of the queue, which is the
    one at position [top], is taken out and run.  Returns whether there was
    still a job. *)
Definition step (top : nat) (s : t) : t * bool :=
  match nth_error (pool_ s) (top mod List.length (pool_ s)) with
  | None => (s, false)
  | Some job =>
      (expand_node (with_pool (remove_nth (top mod List.length (pool_ s)) (pool_ s)) s) job,
       true)
  end.

(** [build_tree(false)]: [while (step()) {}], for the given sequence of
    positions of the jobs on top.  The loop has run to its end when the
    queue of the result is empty. *)
Fixpoint build_tree (tops : list nat) (s : t) : t :=
  match tops with
  | [] => s
  | top :: rest =>
      let (s', more) := step top s in
      if more then build_tree rest s' else s'
  end.

(** One action of a child in the loop of [label] over the children. *)
Definition label_visit (s : t) (child : Node)
  (acc : bool * RegionIndex * RegionIndex) (sa : RegionIndex * ActionType)
  : bool * RegionIndex * RegionIndex :=
  let '(found_bad, first_good_controller_step, first_bad_environment_step) := acc in
  if label_is TOP child && mem_action (snd sa) (controller_actions_ s) then
    (found_bad, N.min first_good_controller_step (fst sa), first_bad_environment_step)
  else if label_is BOTTOM child && mem_action (snd sa) (environment_actions_ s) then
    (true, first_good_controller_step, N.min first_bad_environment_step (fst sa))
  else acc.

Definition label_scan (s : t) (cs : list Node)
  : bool * RegionIndex * RegionIndex :=
  fold_left
    (fun acc child => fold_left (label_visit s child) (incoming_actions child) acc)
    cs (false, RegionIndex_max, RegionIndex_max).

(** Compute the final tree labels, starting at [node]. *)
Fixpoint label (s : t) (node : Node) : Node :=
  match state node with
  | GOOD | DEAD => set_label TOP (terminate_early_ s) node
  | BAD => set_label BOTTOM (terminate_early_ s) node
  | UNKNOWN =>
      let node' := set_children (map (label s) (children node)) node in
      let '(found_bad, first_good_controller_step, first_bad_environment_step) :=
        label_scan s (children node') in
      if negb found_bad
         || (first_good_controller_step <? first_bad_environment_step)%N
      then set_label TOP (terminate_early_ s) node'
      else set_label BOTTOM (terminate_early_ s) node'
  end.

(** [label()], which starts at the root. *)
Definition label_root (s : t) : t :=
  with_root (label s (get_root s)) s.

(** The number of nodes in the sub-tree, including the node itself. *)
Fixpoint get_size (node : Node) : nat :=
  1 + fold_left (fun sum child => sum + get_size child) (children node) 0.

End TreeSearchMethods.

End TreeSearch.

End search.

(* ================================================================== *)
(** * Controller extraction (create_controller.h) *)
(* ================================================================== *)

Module controller_synthesis.
Import logic automata search.

(** The locations of the controller are sets of canonical words. *)
Definition Location := list CanonicalABWord.

Definition Location_eq_dec (a b : Location) : {a = b} + {a <> b}.
Proof. apply list_eq_dec, CanonicalABWord_eq_dec. Defined.

Record Transition : Type := mkTransition {
  source_ : Location;
  symbol_ : ActionType;
  target_ : Location;
  clock_constraints_ : list (string * ClockConstraint);
  clock_resets_ : list string
}.

(** Modelled from the spec: [automata::ta::TimedAutomaton] is declared in
    automata/ta.h, which is not among the sources.  A timed automaton is the
    tuple of its locations, alphabet, clocks, initial location, accepting
    locations and transitions. *)
Record TimedAutomaton : Type := mkTA {
  alphabet_ : list ActionType;
  locations_ : list Location;
  initial_location_ : Location;
  final_locations_ : list Location;
  clocks_ : list string;
  transitions_ : list Transition
}.

(** Modelled from the spec: the constructor taking the alphabet, the initial
    location and the final locations; the locations are those given. *)
Definition TimedAutomaton_new (alphabet : list ActionType) (initial_location : Location)
  (final_locations : list Location) : TimedAutomaton :=
  mkTA alphabet
    (set_insert_all Location_eq_dec final_locations [initial_location])
    initial_location final_locations [] [].

(** Modelled from the spec: the operations that extend a timed automaton
    insert into the component they name. *)
Definition add_location (l : Location) (ta : TimedAutomaton) : TimedAutomaton :=
  mkTA (alphabet_ ta) (set_insert Location_eq_dec l (locations_ ta))
    (initial_location_ ta) (final_locations_ ta) (clocks_ ta) (transitions_ ta).

Definition add_final_location (l : Location) (ta : TimedAutomaton) : TimedAutomaton :=
  mkTA (alphabet_ ta) (locations_ ta) (initial_location_ ta)
    (set_insert Location_eq_dec l (final_locations_ ta)) (clocks_ ta) (transitions_ ta).

Definition add_action (a : ActionType) (ta : TimedAutomaton) : TimedAutomaton :=
  mkTA (set_insert string_dec a (alphabet_ ta)) (locations_ ta) (initial_location_ ta)
    (final_locations_ ta) (clocks_ ta) (transitions_ ta).

Definition add_clock (c : string) (ta : TimedAutomaton) : TimedAutomaton :=
  mkTA (alphabet_ ta) (locations_ ta) (initial_location_ ta) (final_locations_ ta)
    (set_insert string_dec c (clocks_ ta)) (transitions_ ta).

Definition mem_location (l : Location) (ls : list Location) : bool :=
  if in_dec Location_eq_dec l ls then true else false.

Definition mem_clock (c : string) (cs : list string) : bool :=
  if in_dec string_dec c cs then true else false.

(** Modelled from the spec: a transition that references an unknown location
    or an unknown clock is invalid input and is refused. *)
Definition add_transition (tr : Transition) (ta : TimedAutomaton) : result TimedAutomaton :=
  if negb (mem_location (source_ tr) (locations_ ta)) then
    Throw (invalid_argument "Invalid location")
  else if negb (mem_location (target_ tr) (locations_ ta)) then
    Throw (invalid_argument "Invalid location")
  else if negb (forallb (fun cc => mem_clock (fst cc) (clocks_ ta)) (clock_constraints_ tr))
  then Throw (invalid_argument "Invalid clock")
  else if negb (forallb (fun c => mem_clock c (clocks_ ta)) (clock_resets_ tr)) then
    Throw (invalid_argument "Invalid clock")
  else
    Ok (mkTA (alphabet_ ta) (locations_ ta) (initial_location_ ta) (final_locations_ ta)
          (clocks_ ta) (transitions_ ta ++ [tr])).

(** The operations on canonical words and regions that create_controller.h
    calls and that are defined in headers outside the sources (reg_a.h,
    canonical_word.h, automata/ta_regions.h). *)
Record RegionOperations : Type := mkRegionOperations {
  reg_a : CanonicalABWord -> CanonicalABWord;
  get_nth_time_successor : CanonicalABWord -> RegionIndex -> RegionIndex -> CanonicalABWord;
  get_clock_constraints_from_region_index : RegionIndex -> list ClockConstraint
}.

Module details.
Section Details.

Variable ops : RegionOperations.

(** Construct a set of constraints from a time successor CanonicalABWord.
    [std::get<TARegionState>] throws on a symbol of the ATA. *)
Definition get_constraints_from_time_successor (word : CanonicalABWord)
  : result (list (string * ClockConstraint)) :=
  per_symbol <-
    for_each
      (fun symbol =>
         per_state <-
           for_each
             (fun region_state =>
                match region_state with
                | TASymbol st =>
                    Ok (map (fun constraint => (clock st, constraint))
                          (get_clock_constraints_from_region_index ops (region_index st)))
                | ATASymbol _ => Throw bad_variant_access
                end)
             symbol ;;
         Ok (List.concat per_state))
      word ;;
  Ok (List.concat per_symbol).

Definition not_top_message : string :=
  "Cannot create a controller for a node that is not labeled with TOP".

(** The body of the loop over [successor->incoming_actions]: one transition
    from [node_words] to [successor_words]. *)
Definition add_incoming_action (node_words successor_words : Location) (K : RegionIndex)
  (controller : TimedAutomaton) (ia : RegionIndex * ActionType) : result TimedAutomaton :=
  let controller1 := add_action (snd ia) controller in
  constraints <-
    get_constraints_from_time_successor
      (get_nth_time_successor ops (reg_a ops (hd [] node_words)) (fst ia) K) ;;
  let controller2 :=
    fold_left (fun c cc => add_clock (fst cc) c) constraints controller1 in
  add_transition (mkTransition node_words (snd ia) successor_words constraints [])
    controller2.

(** A loop whose body may throw. *)
Fixpoint fold_result {A B : Type} (f : A -> B -> result A) (l : list B) (a : A) : result A :=
  match l with
  | [] => Ok a
  | b :: l' => a' <- f a b ;; fold_result f l' a'
  end.

Fixpoint add_node_to_controller (node : Node) (K : RegionIndex)
  (controller : TimedAutomaton) : result TimedAutomaton :=
  if negb (label_is TOP node) then Throw (invalid_argument not_top_message)
  else
    (fix successors (cs : list Node) (controller : TimedAutomaton)
       : result TimedAutomaton :=
       match cs with
       | [] => Ok controller
       | successor :: rest =>
           if negb (label_is TOP successor) then successors rest controller
           else
             let controller1 :=
               add_final_location (words successor)
                 (add_location (words successor) controller) in
             controller2 <-
               fold_result (add_incoming_action (words node) (words successor) K)
                 (incoming_actions successor) controller1 ;;
             controller3 <- add_node_to_controller successor K controller2 ;;
             successors rest controller3
       end) (children node) controller.

End Details.
End details.

Definition create_controller (ops : RegionOperations) (root : Node) (K : RegionIndex)
  : result TimedAutomaton :=
  details.add_node_to_controller ops root K (TimedAutomaton_new [] (words root) []).

End controller_synthesis.

(* ================================================================== *)
(** * The launcher (main.cpp) *)
(* ================================================================== *)

Module app.

Section Main.

(** [app::Launcher launcher{argc, argv}; launcher.run();] for the given
    command line: the launcher is declared in app/app.h, which is not among
    the sources; it completes or throws. *)
Variable launcher_run : list string -> result unit.

(** What the process leaves behind: its exit status and the messages logged
    at level critical. *)
Record outcome : Type := mkOutcome {
  exit_status : Z;
  critical_log : list string
}.

Definition main (argv : list string) : outcome :=
  match launcher_run argv with
  | Ok _ => mkOutcome 0 []
  | Throw e => mkOutcome 1 [("Exception: " ++ what e)%string]
  end.

End Main.

End app.

(* ================================================================== *)
(** * A small plant and specification, for running the definitions *)
(* ================================================================== *)

Module fixtures.
Import logic search.

Definition ta_state (l : Location) : ABRegionSymbol :=
  TASymbol (mkTARegionState l "x" 0%N).
Definition ata_state (f : MTLFormula) : ABRegionSymbol :=
  ATASymbol (mkATARegionState f 0%N).

Definition a : MTLFormula := MAtom (mkAP "a").
Definition sink : MTLFormula := MAtom (mkAP "sink").
Definition phi : MTLFormula := MUntil MTrue (MAtom (mkAP "c")) unbounded.

(** The words of the nodes in the test
    "Check a node for unsatisfiable ATA configurations". *)
Definition word_a : CanonicalABWord := [[ta_state "l0"]; [ata_state a]].
Definition word_sink : CanonicalABWord := [[ta_state "l0"]; [ata_state sink]].
Definition word_a_sink : CanonicalABWord :=
  [[ta_state "l0"; ata_state a]; [ata_state sink]].
Definition word_a_only : CanonicalABWord := [[ta_state "l0"; ata_state a]].

(** A plant with the locations l0, l1 and l2: the controller action c leads
    from l0 to l1, where the specification is violated, the environment
    action e leads from l0 to l2, where the ATA is in its sink. *)
Definition word_l0 : CanonicalABWord := [[ta_state "l0"; ata_state (MAtom (mkAP "l0"))]].
Definition word_l1 : CanonicalABWord := [[ta_state "l1"; ata_state phi]].
Definition word_l2 : CanonicalABWord := [[ta_state "l2"; ata_state sink]].

Definition location_of (w : CanonicalABWord) : Location :=
  match List.concat w with
  | TASymbol st :: _ => location st
  | _ => ""
  end.

Definition ata_part (w : CanonicalABWord) : ATAConfiguration :=
  flat_map
    (fun sym =>
       match sym with
       | ATASymbol st => [(formula st, 0%Q)]
       | TASymbol _ => []
       end)
    (List.concat w).

Definition ta_part (w : CanonicalABWord) : CanonicalABWord :=
  map (filter (fun sym => match sym with TASymbol _ => true | ATASymbol _ => false end)) w.

Definition plant : SynchronousProduct :=
  mkProduct
    ["c"; "e"]
    (fun cfg => if string_dec (fst cfg) "l1" then true else false)
    (fun cfg =>
       forallb (fun lv => if MTLFormula_eq_dec (fst lv) sink then false else true) cfg)
    (fun w => ((location_of w, [("x", 0%Q)]), ata_part w))
    (fun w _ => [(0%N, w); (1%N, w)])
    (fun candidate symbol _ =>
       if string_dec (fst (fst candidate)) "l0" then
         if string_dec symbol "c" then [word_l1]
         else if string_dec symbol "e" then [word_l2]
         else []
       else [])
    ta_part
    (fun _ _ => false)
    (fun _ => word_l0).

Definition start (incremental_labeling : bool) : TreeSearch.t :=
  TreeSearch.mkTreeSearch ["c"] ["e"] 0%N incremental_labeling false
    (new_node [word_l0] []) [ [] ].

(** A search whose root is the node given. *)
Definition search_at (root : Node) (incremental_labeling : bool) : TreeSearch.t :=
  TreeSearch.mkTreeSearch ["c"] ["e"] 0%N incremental_labeling false root [ [] ].

(** A node with three leaves below it: a good one that the controller
    reaches first, and two bad ones that the environment reaches later. *)
Definition leaf (st : NodeState) (incoming : list (RegionIndex * ActionType)) : Node :=
  mkNode [word_l0] incoming st UNLABELED REASON_UNKNOWN true [].

Definition three_leaves : Node :=
  mkNode [word_l0] [] UNKNOWN UNLABELED REASON_UNKNOWN true
    [leaf GOOD [(0%N, "c")]; leaf BAD [(1%N, "e")]; leaf BAD [(2%N, "e")]].

(** The operations on words and regions for the controller extraction:
    [ta_part] for [reg_a], no passage of time, no constraint per region. *)
Definition region_operations : controller_synthesis.RegionOperations :=
  controller_synthesis.mkRegionOperations ta_part (fun w _ _ => w) (fun _ => []).

(** A labeled tree: the root and its first child are labeled [TOP], the
    second child is labeled [BOTTOM]. *)
Definition top_tree : Node :=
  mkNode [word_l0] [] UNKNOWN TOP NO_BAD_ENV_ACTION true
    [mkNode [word_l2] [(0%N, "e")] GOOD TOP NO_ATA_SUCCESSOR true [];
     mkNode [word_l1] [(0%N, "c")] BAD BOTTOM BAD_NODE true []].

(** A root labeled [TOP] without children. *)
Definition top_leaf : Node :=
  mkNode [word_l0] [] GOOD TOP NO_ATA_SUCCESSOR true [].

End fixtures.

(* ================================================================== *)
(** * The constructed trees of test_search.cpp *)
(* ================================================================== *)

Module test_search.
Import logic search.

Definition a : MTLFormula := MAtom (mkAP "a").
Definition b : MTLFormula := MAtom (mkAP "b").
Definition sink : MTLFormula := MAtom (mkAP "sink").

Definition l0_x_0 : ABRegionSymbol := TASymbol (mkTARegionState "l0" "x" 0%N).

Definition dummyWords : list CanonicalABWord :=
  [[[l0_x_0]; [ATASymbol (mkATARegionState (MUntil a b unbounded) 0%N)]]].

Definition controller_actions : list ActionType := ["a"; "b"; "c"].
Definition environment_actions : list ActionType := ["x"; "y"; "z"].

(** [create_test_node(dummyWords, parent)] with its label, its incoming
    actions and its children as the test sets them afterwards. *)
Definition create_test_node (l : NodeLabel)
  (incoming : list (RegionIndex * ActionType)) (cs : list Node) : Node :=
  mkNode dummyWords incoming UNKNOWN l REASON_UNKNOWN true cs.

(** Label tree: single-step propagate. *)
Definition single_step (l1 l2 l3 : NodeLabel) (a1 a2 a3 : ActionType) : Node :=
  create_test_node UNLABELED []
    [create_test_node l1 [(0%N, a1)] [];
     create_test_node l2 [(1%N, a2)] [];
     create_test_node l3 [(2%N, a3)] []].

(** Label tree: multi-step propagate, with the children [ch4], [ch5] of
    [ch1] and the children [below_ch2] of [ch2]. *)
Definition multi_step (l2 l3 l4 l5 : NodeLabel) (below_ch2 : list Node) : Node :=
  create_test_node UNLABELED []
    [create_test_node UNLABELED [(0%N, "a")]
       [create_test_node l4 [(0%N, "a")] [];
        create_test_node l5 [(1%N, "x")] []];
     create_test_node l2 [(1%N, "x")] below_ch2;
     create_test_node l3 [(2%N, "x")] []].

Definition ch6 : Node := create_test_node TOP [(0%N, "x")] [].

Definition propagate_from (ptr : NodePtr) (root : Node) : Node :=
  label_propagate controller_actions environment_actions false root ptr.

Definition label_at (ptr : NodePtr) (root : Node) : option NodeLabel :=
  option_map label (get_node root ptr).

(** Check a node for unsatisfiable ATA configurations. *)
Definition test_words (word : list CanonicalABWord) : Node := new_node word [].

End test_search.

(* ================================================================== *)
(** * Notions for the search: what [expand_node] leaves of a node, the
    rule of batch labeling, and the invariant that the search keeps *)
(* ================================================================== *)

Module search_properties.
Import logic search.

Unset Implicit Arguments.

(** The early exits: the node as [close_node] leaves it. *)
Definition closed (s : TreeSearch.t) (reason : LabelReason) (st : NodeState)
  (l : NodeLabel) (n : Node) : Node :=
  let n1 := set_is_expanded true (set_state st (set_label_reason reason n)) in
  if TreeSearch.incremental_labeling_ s
  then set_label l (TreeSearch.terminate_early_ s) n1
  else n1.

(** A node that is expanded further: the node as [expand_node] leaves it,
    with the children [cs] that were created for it. *)
Definition opened (s : TreeSearch.t) (cs : list Node) (n : Node) : Node :=
  match cs with
  | [] =>
      let n1 := set_state DEAD (set_is_expanded true (set_children [] n)) in
      if TreeSearch.incremental_labeling_ s
      then set_label TOP (TreeSearch.terminate_early_ s) (set_label_reason DEAD_NODE n1)
      else n1
  | _ :: _ => set_is_expanded true (set_children cs n)
  end.

(** The node that [expand_node] was called on, afterwards. *)
Definition expanded (product : SynchronousProduct) (s : TreeSearch.t) (ptr : NodePtr)
  (n : Node) : Node :=
  if TreeSearch.is_bad_node product n then closed s BAD_NODE BAD BOTTOM n
  else if negb (has_satisfiable_ata_configuration n) then closed s NO_ATA_SUCCESSOR GOOD TOP n
  else if TreeSearch.dominates_ancestor product s ptr
       then closed s MONOTONIC_DOMINATION GOOD TOP n
  else opened s (TreeSearch.create_children product (TreeSearch.K_ s) n) n.

(** Every word of the node contains the sink location of the ATA: in some
    component of the word there is a state of the ATA at [sink]. *)
Definition sink_in_every_word (node : Node) : Prop :=
  forall word, In word (words node) ->
    exists component, In component word
      /\ exists region_symbol, In region_symbol component
           /\ is_sink_symbol region_symbol = true.

(** Every component of every word of the node contains the sink location. *)
Definition sink_in_every_component (node : Node) : Prop :=
  forall word, In word (words node) ->
    forall component, In component word ->
      exists region_symbol, In region_symbol component
        /\ is_sink_symbol region_symbol = true.

Definition nonempty {A : Type} (l : list A) : bool :=
  match l with [] => false | _ :: _ => true end.

(** No region increment of an action into one of the nodes exceeds the
    largest region index. *)
Definition steps_in_range (cs : list Node) : Prop :=
  forall c, In c cs ->
    forall sa, In sa (incoming_actions c) -> (fst sa <= RegionIndex_max)%N.

(** No child that an environment action leads to is labeled [BOTTOM]. *)
Definition no_bad_environment_child (s : TreeSearch.t) (cs : list Node) : Prop :=
  forall c, In c cs -> label c = BOTTOM ->
    forall sa, In sa (incoming_actions c) ->
      ~ In (snd sa) (TreeSearch.environment_actions_ s).

(** The rule of batch labeling, in the words of the specification: there is
    no bad environment step, or the first good controller step, the minimum
    over the controller actions into children labeled [TOP], lies strictly
    before the first bad environment step, the minimum over the environment
    actions into children labeled [BOTTOM]. *)
Definition batch_top (s : TreeSearch.t) (cs : list Node) : Prop :=
  no_bad_environment_child s cs
  \/ exists first_good_controller_step first_bad_environment_step,
       first_step (steps_of TOP (TreeSearch.controller_actions_ s) cs)
       = Some first_good_controller_step
       /\ first_step (steps_of BOTTOM (TreeSearch.environment_actions_ s) cs)
          = Some first_bad_environment_step
       /\ (first_good_controller_step < first_bad_environment_step)%N.

(** The node that [p] points to is rewritten by [f]; when [propagating],
    the ancestors are then relabeled as [label_propagate] does. *)
Fixpoint walk (ctl env : list ActionType) (cc propagating : bool) (f : Node -> Node)
  (root : Node) (p : NodePtr) : Node :=
  match p with
  | [] => f root
  | i :: p' =>
      match nth_error (children root) i with
      | None => root
      | Some c =>
          let c' := walk ctl env cc propagating f c p' in
          let root' := set_children (replace_nth i c' (children root)) root in
          if propagating then
            match label c' with
            | UNLABELED => root'
            | _ =>
                match label_decision ctl env (children root') with
                | Some (l, reason) => set_label l cc (set_label_reason reason root')
                | None => root'
                end
            end
          else root'
      end
  end.

(** [a] is at most [b], where no step counts as later than every step. *)
Definition le_opt (a b : option RegionIndex) : Prop :=
  match b with
  | None => True
  | Some y => match a with Some x => (x <= y)%N | None => False end
  end.

Definition min_opt (a b : option RegionIndex) : option RegionIndex :=
  match a, b with
  | Some x, Some y => Some (N.min x y)
  | Some x, None => Some x
  | None, _ => b
  end.

(** The decision, on the four minima. *)
Definition decide (good open_ctl open_env bad : option RegionIndex)
  : option (NodeLabel * LabelReason) :=
  if is_none open_env && is_none bad then Some (TOP, NO_BAD_ENV_ACTION)
  else if strictly_before good open_env && strictly_before good bad then
    Some (TOP, GOOD_CONTROLLER_ACTION_FIRST)
  else if not_after bad good && not_after bad open_ctl then
    Some (BOTTOM, BAD_ENV_ACTION_FIRST)
  else None.

(** A child keeps its incoming actions, and keeps its label once it has
    one. *)
Definition advances (c c' : Node) : Prop :=
  incoming_actions c' = incoming_actions c
  /\ (label c' = label c \/ label c = UNLABELED).

(** Two nodes with the same label and the same incoming actions. *)
Definition same_face (a b : Node) : Prop :=
  label a = label b /\ incoming_actions a = incoming_actions b.

(** The invariant of the search, for a plant and a configuration. *)
Section Invariant.

Variable product : SynchronousProduct.
Variables ctl env : list ActionType.
Variable K : RegionIndex.
Variable incremental : bool.

(** What a node is before any decision on it: its words and the actions
    that lead to it. *)
Definition static (n : Node) : list CanonicalABWord * list (RegionIndex * ActionType) :=
  (words n, incoming_actions n).

Definition dominated (above : list (list CanonicalABWord)) (n : Node) : bool :=
  existsb (fun a => is_monotonically_dominated product a (words n)) above.

(** The state of an expanded node and what its children are, as the words
    of the node and of its ancestors determine them. *)
Definition kind (above : list (list CanonicalABWord)) (n : Node)
  : NodeState * list (list CanonicalABWord * list (RegionIndex * ActionType)) :=
  if TreeSearch.is_bad_node product n then (BAD, [])
  else if negb (has_satisfiable_ata_configuration n) then (GOOD, [])
  else if dominated above n then (GOOD, [])
  else
    let cs := TreeSearch.create_children product K n in
    (match cs with [] => DEAD | _ :: _ => UNKNOWN end, map static cs).

(** An inner node under incremental labeling: it waits for a child, or has
    the label that its children determine. *)
Definition pending_or_decided (n : Node) : Prop :=
  (label n = UNLABELED /\ exists c, In c (children n) /\ label c = UNLABELED)
  \/ (exists reason, label_decision ctl env (children n) = Some (label n, reason)).

Definition label_local (n : Node) : Prop :=
  if incremental then
    match state n with
    | GOOD | DEAD => label n = TOP
    | BAD => label n = BOTTOM
    | UNKNOWN => pending_or_decided n
    end
  else label n = UNLABELED.

Definition in_range (n : Node) : Prop :=
  forall sa, In sa (incoming_actions n) -> (fst sa <= RegionIndex_max)%N.

Definition node_ok (pool : list NodePtr) (prefix : NodePtr)
  (above : list (list CanonicalABWord)) (n : Node) : Prop :=
  in_range n
  /\ if is_expanded n
     then (state n, map static (children n)) = kind above n /\ label_local n
     else state n = UNKNOWN /\ children n = [] /\ label n = UNLABELED /\ In prefix pool.

(** The invariant: every node is as [expand_node] leaves it, or queued. *)
Inductive tree_ok (pool : list NodePtr)
  : NodePtr -> list (list CanonicalABWord) -> Node -> Prop :=
| tree_ok_node (prefix : NodePtr) (above : list (list CanonicalABWord)) (n : Node) :
    node_ok pool prefix above n ->
    (forall i c, nth_error (children n) i = Some c ->
                 tree_ok pool (prefix ++ [i]) (words n :: above) c) ->
    tree_ok pool prefix above n.

End Invariant.

(** The region increments that the plant yields are region indices. *)
Definition increments_in_range (product : SynchronousProduct) (K : RegionIndex) : Prop :=
  forall word d ts,
    In (d, ts) (get_time_successors product word K) -> (d <= RegionIndex_max)%N.

Definition actions_in_range
  (m : list (CanonicalABWord * list (RegionIndex * ActionType))) : Prop :=
  forall key xs, In (key, xs) m ->
    forall sa, In sa xs -> (fst sa <= RegionIndex_max)%N.

(** The configuration of a search, which [expand_node] leaves untouched. *)
Definition same_configuration (s s' : TreeSearch.t) : Prop :=
  TreeSearch.controller_actions_ s' = TreeSearch.controller_actions_ s
  /\ TreeSearch.environment_actions_ s' = TreeSearch.environment_actions_ s
  /\ TreeSearch.K_ s' = TreeSearch.K_ s
  /\ TreeSearch.incremental_labeling_ s' = TreeSearch.incremental_labeling_ s
  /\ TreeSearch.terminate_early_ s' = TreeSearch.terminate_early_ s.

(** The invariant of a search: early termination is off, and the tree is as
    the invariant says, for the configuration and the queue of the search. *)
Definition search_ok (product : SynchronousProduct) (s : TreeSearch.t) : Prop :=
  TreeSearch.terminate_early_ s = false
  /\ increments_in_range product (TreeSearch.K_ s)
  /\ tree_ok product (TreeSearch.controller_actions_ s) (TreeSearch.environment_actions_ s)
       (TreeSearch.K_ s) (TreeSearch.incremental_labeling_ s)
       (TreeSearch.pool_ s) [] [] (TreeSearch.tree_root_ s).

End search_properties.

(* ================================================================== *)
(** * Notions for the controller: the locations that the walk adds *)
(* ================================================================== *)

Module controller_properties.
Import logic automata search controller_synthesis controller_synthesis.details.

Unset Implicit Arguments.

(** The nodes that the walk of [add_node_to_controller] adds below the node
    it is called on: the children labeled [TOP], and what the walk adds
    below them. *)
Inductive added_below : Node -> Node -> Prop :=
| added_child (node successor : Node) :
    In successor (children node) -> label successor = TOP ->
    added_below node successor
| added_deeper (node successor n : Node) :
    In successor (children node) -> label successor = TOP ->
    added_below successor n ->
    added_below node n.

(** A word of states of the plant only, as [reg_a] yields them. *)
Definition ta_states_only (word : CanonicalABWord) : Prop :=
  forall symbol, In symbol word ->
    forall region_state, In region_state symbol ->
      exists st, region_state = TASymbol st.

(** The loop of [add_node_to_controller] over the children of the node. *)
Fixpoint add_successors (ops : RegionOperations) (node_words : Location) (K : RegionIndex)
  (cs : list Node) (controller : TimedAutomaton) : result TimedAutomaton :=
  match cs with
  | [] => Ok controller
  | successor :: rest =>
      if negb (label_is TOP successor) then add_successors ops node_words K rest controller
      else
        let controller1 :=
          add_final_location (words successor)
            (add_location (words successor) controller) in
        controller2 <-
          fold_result (add_incoming_action ops node_words (words successor) K)
            (incoming_actions successor) controller1 ;;
        controller3 <- add_node_to_controller ops successor K controller2 ;;
        add_successors ops node_words K rest controller3
  end.

End controller_properties.

(* ================================================================== *)
(** * Notions for the expansion of a node *)
(* ================================================================== *)

Module expansion_properties.
Import logic search.

Unset Implicit Arguments.

(** The node violates the specification: the candidate of one of its words
    is an accepting configuration of the plant and of the automaton. *)
Definition violates_specification (product : SynchronousProduct) (node : Node) : Prop :=
  exists word,
    In word (words node)
    /\ ta_is_accepting_configuration product (fst (get_candidate product word)) = true
    /\ ata_is_accepting_configuration product (snd (get_candidate product word)) = true.

(** A proper ancestor of the node at [ptr], reached by following [parent],
    whose words monotonically dominate the words of [node]. *)
Definition dominating_ancestor (product : SynchronousProduct) (root : Node)
  (ptr : NodePtr) (node : Node) : Prop :=
  exists (above below : NodePtr) (ancestor : Node),
    ptr = above ++ below /\ below <> []
    /\ get_node root above = Some ancestor
    /\ is_monotonically_dominated product (words ancestor) (words node) = true.

(** The pointers to the children of the node at [ptr], in their order. *)
Definition child_pointers (ptr : NodePtr) (cs : list Node) : list NodePtr :=
  map (fun i => ptr ++ [i]) (seq 0 (List.length cs)).

(** [successor] is reached from a word of the node by letting time pass
    for [increment] region steps and then taking [symbol]: the three nested
    loops of [expand_node] over the words, their time successors and the
    next canonical words. *)
Definition successor_of (product : SynchronousProduct) (K : RegionIndex) (n : Node)
  (symbol : ActionType) (increment : RegionIndex) (successor : CanonicalABWord) : Prop :=
  exists word time_successor,
    In word (words n)
    /\ In (increment, time_successor) (get_time_successors product word K)
    /\ In successor
         (get_next_canonical_words product (get_candidate product time_successor)
            symbol K).

(** [successor] is reached by a symbol of the alphabet of the plant. *)
Definition reached (product : SynchronousProduct) (K : RegionIndex) (n : Node)
  (symbol : ActionType) (increment : RegionIndex) (successor : CanonicalABWord) : Prop :=
  In symbol (get_alphabet product) /\ successor_of product K n symbol increment successor.

(** The successors in the order in which [expand_node] partitions them. *)
Definition all_successors (product : SynchronousProduct) (K : RegionIndex) (n : Node)
  : list (ActionType * (RegionIndex * CanonicalABWord)) :=
  flat_map
    (fun symbol =>
       map (fun succ => (symbol, succ)) (TreeSearch.symbol_successors product K n symbol))
    (get_alphabet product).

(** One step of the partition: the successor is put into its reg_a class. *)
Definition classify (product : SynchronousProduct) (m : TreeSearch.child_maps)
  (t : ActionType * (RegionIndex * CanonicalABWord)) : TreeSearch.child_maps :=
  let word_reg := reg_a product (snd (snd t)) in
  (TreeSearch.map_insert CanonicalABWord_eq_dec word_reg (snd (snd t)) (fst m),
   TreeSearch.map_insert Action_eq_dec word_reg (fst (snd t), fst t) (snd m)).

(** What is fixed once a node has been expanded. *)
Definition expanded_part (n : Node)
  : list CanonicalABWord * list (RegionIndex * ActionType) * NodeState * bool :=
  (words n, incoming_actions n, state n, is_expanded n).

(** [q] points to the node at [p] or into the sub-tree below it. *)
Definition extends (p q : NodePtr) : Prop := exists r, q = p ++ r.

End expansion_properties.

(* ================================================================== *)
(** * Notions for batch labeling *)
(* ================================================================== *)

Module label_properties.
Import logic search.

Unset Implicit Arguments.

(** The tree without its labels, as a search without incremental labeling
    leaves it. *)
Fixpoint unlabel (n : Node) : Node :=
  mkNode (words n) (incoming_actions n) (state n) UNLABELED (label_reason n)
    (is_expanded n) (map unlabel (children n)).

(** What labeling does not touch: everything but the label and the
    children. *)
Definition unlabeled_part (n : Node)
  : list CanonicalABWord * list (RegionIndex * ActionType) * NodeState * LabelReason * bool :=
  (words n, incoming_actions n, state n, label_reason n, is_expanded n).

(** Two trees with the same nodes, up to the labels. *)
Definition same_tree (a b : Node) : Prop :=
  forall p, option_map unlabeled_part (get_node a p) = option_map unlabeled_part (get_node b p).

End label_properties.

(* ================================================================== *)
(** * Notions for the automaton of a formula *)
(* ================================================================== *)

Module ata_properties.
Import logic automata automata.ata mtl_ata_translation.

Unset Implicit Arguments.

(** The locations that a transition formula refers to. *)
Fixpoint formula_locations (f : Formula) : list MTLFormula :=
  match f with
  | TrueFormula | FalseFormula | ClockConstraintFormula _ => []
  | LocationFormula l => [l]
  | ConjunctionFormula a b | DisjunctionFormula a b =>
      formula_locations a ++ formula_locations b
  | ResetClockFormula g => formula_locations g
  end.

(** The formula resets the clock nowhere. *)
Fixpoint reset_free (f : Formula) : bool :=
  match f with
  | TrueFormula | FalseFormula | ClockConstraintFormula _ | LocationFormula _ => true
  | ConjunctionFormula a b | DisjunctionFormula a b => reset_free a && reset_free b
  | ResetClockFormula _ => false
  end.

(** Every location of the formula stands directly below a clock reset. *)
Fixpoint locations_reset (f : Formula) : bool :=
  match f with
  | TrueFormula | FalseFormula | ClockConstraintFormula _ => true
  | LocationFormula _ => false
  | ConjunctionFormula a b | DisjunctionFormula a b => locations_reset a && locations_reset b
  | ResetClockFormula (LocationFormula _) => true
  | ResetClockFormula g => locations_reset g
  end.

(** Modelled from the spec: the satisfaction of a clock constraint is
    declared in automata/automata.h, which is not among the sources.  The
    constraint [(op, c)] is satisfied by the clock value [v] iff [v op c],
    as the comparison functors [std::less] and the like compute it. *)
Definition is_satisfied (constraint : ClockConstraint) (v : TimePoint) : bool :=
  match constraint with
  | less c => match Qcompare v c with Lt => true | _ => false end
  | less_equal c => match Qcompare v c with Gt => false | _ => true end
  | equal_to c => match Qcompare v c with Eq => true | _ => false end
  | not_equal_to c => match Qcompare v c with Eq => false | _ => true end
  | greater_equal c => match Qcompare v c with Lt => false | _ => true end
  | greater c => match Qcompare v c with Gt => true | _ => false end
  end.

(** Modelled from the spec: the satisfaction of a transition formula is
    declared in automata/ata_formula.h, which is not among the sources.  A
    location is satisfied when it is active with the clock value, a clock
    constraint when the clock value satisfies it, a reset when the formula
    below holds for the clock value 0. *)
Fixpoint holds (active : MTLFormula -> TimePoint -> bool) (v : TimePoint) (f : Formula)
  : bool :=
  match f with
  | TrueFormula => true
  | FalseFormula => false
  | LocationFormula l => active l v
  | ClockConstraintFormula c => is_satisfied c v
  | ConjunctionFormula a b => holds active v a && holds active v b
  | DisjunctionFormula a b => holds active v a || holds active v b
  | ResetClockFormula g => holds active 0%Q g
  end.

(** The formulas that [init] has a case for: below conjunctions and
    disjunctions, a negation stands only above [TRUE], [FALSE] or an atomic
    proposition; the operands of until and dual until are not looked at. *)
Fixpoint init_admits (f : MTLFormula) : bool :=
  match f with
  | MNeg MTrue | MNeg MFalse | MNeg (MAtom _) => true
  | MNeg _ => false
  | MAnd a b | MOr a b => init_admits a && init_admits b
  | MTrue | MFalse | MAtom _ | MUntil _ _ _ | MDualUntil _ _ _ => true
  end.

(** The locations that have transitions: the initial location, the until
    and the dual until subformulas of the formula translated. *)
Definition has_transitions (formula : MTLFormula) (location : MTLFormula) : Prop :=
  location = MAtom l0
  \/ In location (get_subformulas_of_type formula LUNTIL)
  \/ In location (get_subformulas_of_type formula LDUNTIL).

End ata_properties.

(* ================================================================== *)
(** * Notions for the walk of the controller extraction *)
(* ================================================================== *)

Module walk_properties.
Import logic automata search controller_synthesis controller_synthesis.details.
Import controller_properties.

Unset Implicit Arguments.

(** The transition that the walk adds for the incoming action [ia] of a
    successor: from the words of the node to the words of the successor,
    guarded by the constraints of the time successor of the node's first
    word, without resets. *)
Definition transition_for (ops : RegionOperations) (K : RegionIndex)
  (node_words : Location) (successor : Node) (tr : Transition) : Prop :=
  exists increment constraints,
    In (increment, symbol_ tr) (incoming_actions successor)
    /\ get_constraints_from_time_successor ops
         (get_nth_time_successor ops (reg_a ops (hd [] node_words)) increment K)
       = Ok constraints
    /\ tr = mkTransition node_words (symbol_ tr) (words successor) constraints [].

(** [successor] is a child labeled [TOP] of [parent], which is the node the
    walk starts at or a node that the walk adds below it. *)
Definition step_below (root parent successor : Node) : Prop :=
  (parent = root \/ added_below root parent)
  /\ In successor (children parent) /\ label successor = TOP.

(** The sub-trees below the children that are not labeled [TOP] are cut. *)
Fixpoint prune (n : Node) : Node :=
  mkNode (words n) (incoming_actions n) (state n) (label n) (label_reason n)
    (is_expanded n)
    ((fix prune_all (cs : list Node) : list Node :=
        match cs with
        | [] => []
        | c :: rest => if label_is TOP c then prune c :: prune_all rest else prune_all rest
        end) (children n)).

(** The parts of the automaton name what its transitions use, and no more. *)
Definition well_formed (c : TimedAutomaton) : Prop :=
  (forall a, In a (alphabet_ c) <-> exists tr, In tr (transitions_ c) /\ symbol_ tr = a)
  /\ (forall x, In x (clocks_ c)
                <-> exists tr cc, In tr (transitions_ c)
                                  /\ In cc (clock_constraints_ tr) /\ fst cc = x)
  /\ (forall tr, In tr (transitions_ c) ->
                 In (source_ tr) (locations_ c)
                 /\ In (target_ tr) (locations_ c)
                 /\ In (target_ tr) (final_locations_ c)
                 /\ clock_resets_ tr = [])
  /\ (forall l, In l (locations_ c)
                <-> l = initial_location_ c \/ In l (final_locations_ c)).

(** From [c] to [c'] the transitions in [N] and the locations in [L], all
    of them final, are added, with the actions and the clocks that the
    transitions use. *)
Definition grows (N : Transition -> Prop) (L : Location -> Prop)
  (c c' : TimedAutomaton) : Prop :=
  (forall tr, In tr (transitions_ c') <-> In tr (transitions_ c) \/ N tr)
  /\ initial_location_ c' = initial_location_ c
  /\ (forall a, In a (alphabet_ c')
                <-> In a (alphabet_ c) \/ exists tr, N tr /\ symbol_ tr = a)
  /\ (forall x, In x (clocks_ c')
                <-> In x (clocks_ c)
                    \/ exists tr cc, N tr /\ In cc (clock_constraints_ tr) /\ fst cc = x)
  /\ (forall l, In l (locations_ c') <-> In l (locations_ c) \/ L l)
  /\ (forall l, In l (final_locations_ c') <-> In l (final_locations_ c) \/ L l).

(** The transitions that the walk started at [node] adds. *)
Definition transitions_below (ops : RegionOperations) (K : RegionIndex) (node : Node)
  (tr : Transition) : Prop :=
  exists parent successor,
    step_below node parent successor
    /\ transition_for ops K (words parent) successor tr.

(** The locations that the walk started at [node] adds. *)
Definition locations_below (node : Node) (l : Location) : Prop :=
  exists n, added_below node n /\ words n = l.

End walk_properties.

(* ================================================================== *)
(** * A plant with a loop *)
(* ================================================================== *)

Module more_fixtures.
Import logic search.

(** A plant that loops: the action c leads from every word back to it, and
    a set of words dominates the sets equal to it. *)
Definition looping_plant : SynchronousProduct :=
  mkProduct
    ["c"]
    (fun _ => false)
    (fun _ => false)
    (fun w => ((fixtures.location_of w, [("x", 0%Q)]), fixtures.ata_part w))
    (fun w _ => [(0%N, w)])
    (fun _ _ _ => [fixtures.word_l0])
    fixtures.ta_part
    (fun ancestor_words node_words =>
       if list_eq_dec CanonicalABWord_eq_dec ancestor_words node_words then true else false)
    (fun _ => fixtures.word_l0).

(** The root of the looping plant, expanded, with its child in the queue. *)
Definition looping_search (incremental_labeling : bool) : TreeSearch.t :=
  TreeSearch.mkTreeSearch ["c"] [] 0%N incremental_labeling false
    (mkNode [fixtures.word_l0] [] UNKNOWN UNLABELED REASON_UNKNOWN true
       [new_node [fixtures.word_l0] [(0%N, "c")]])
    [ [0%nat] ].

End more_fixtures.

(* ================================================================== *)
(** * Properties of the translator *)
(* ================================================================== *)

Module translator_facts.
Import logic automata automata.ata mtl_ata_translation.

Lemma set_insert_In (A : Type) (dec : forall a b : A, {a = b} + {a <> b})
  (x y : A) (s : list A) :
  In y (set_insert dec x s) <-> y = x \/ In y s.
Proof.
  unfold set_insert. destruct (in_dec dec x s) as [Hin | Hnot].
  - split; [auto | intros [-> | H]; assumption].
  - rewrite in_app_iff. simpl. split.
    + intros [H | [H | []]]; auto.
    + intros [-> | H]; auto.
Qed.

Lemma set_insert_all_In (A : Type) (dec : forall a b : A, {a = b} + {a <> b})
  (xs : list A) : forall (s : list A) (y : A),
  In y (set_insert_all dec xs s) <-> In y xs \/ In y s.
Proof.
  unfold set_insert_all. induction xs as [| x xs IH]; intros s y; simpl.
  - tauto.
  - rewrite IH, set_insert_In. split.
    + intros [H | [H | H]]; auto.
    + intros [[H | H] | H]; auto.
Qed.

Lemma set_insert_NoDup (A : Type) (dec : forall a b : A, {a = b} + {a <> b})
  (x : A) (s : list A) : NoDup s -> NoDup (set_insert dec x s).
Proof.
  intros Hs. unfold set_insert. destruct (in_dec dec x s) as [Hin | Hnot]; [assumption |].
  apply NoDup_app; [assumption | repeat constructor; simpl; tauto |].
  intros a Ha [<- | []]. contradiction.
Qed.

Lemma set_insert_all_NoDup (A : Type) (dec : forall a b : A, {a = b} + {a <> b})
  (xs : list A) : forall s, NoDup s -> NoDup (set_insert_all dec xs s).
Proof.
  unfold set_insert_all. induction xs as [| x xs IH]; intros s Hs; simpl.
  - assumption.
  - apply IH, set_insert_NoDup, Hs.
Qed.

(** Normalising a formula that is already normalised changes nothing. *)
Lemma pnf_under_idempotent (f : MTLFormula) :
  forall negated, pnf_under false (pnf_under negated f) = pnf_under negated f.
Proof.
  induction f as [| | a | f1 IH1 f2 IH2 | f1 IH1 f2 IH2 | f IH
                 | f1 IH1 f2 IH2 i | f1 IH1 f2 IH2 i];
    intros negated; simpl.
  - destruct negated; reflexivity.
  - destruct negated; reflexivity.
  - destruct negated; reflexivity.
  - destruct negated; simpl; rewrite IH1, IH2; reflexivity.
  - destruct negated; simpl; rewrite IH1, IH2; reflexivity.
  - apply IH.
  - destruct negated; simpl; rewrite IH1, IH2; reflexivity.
  - destruct negated; simpl; rewrite IH1, IH2; reflexivity.
Qed.

Lemma to_positive_normal_form_idempotent (f : MTLFormula) :
  to_positive_normal_form (to_positive_normal_form f) = to_positive_normal_form f.
Proof. apply pnf_under_idempotent. Qed.

(** The normal form is a positive normal form. *)
Lemma pnf_under_is_pnf (f : MTLFormula) :
  forall negated, is_pnf (pnf_under negated f) = true.
Proof.
  induction f as [| | a | f1 IH1 f2 IH2 | f1 IH1 f2 IH2 | f IH
                 | f1 IH1 f2 IH2 i | f1 IH1 f2 IH2 i];
    intros negated; simpl;
    try (destruct negated; simpl; try rewrite IH1, IH2; reflexivity).
  apply IH.
Qed.

Lemma is_pnf_subformula (f g : MTLFormula) :
  In g (subformulas f) -> is_pnf f = true -> is_pnf g = true.
Proof.
  induction f as [| | a | f1 IH1 f2 IH2 | f1 IH1 f2 IH2 | f IH
                 | f1 IH1 f2 IH2 i | f1 IH1 f2 IH2 i];
    simpl; intros Hin Hpnf;
    try (destruct Hin as [<- | Hin]; [assumption |]);
    try contradiction;
    try (apply andb_true_iff in Hpnf; destruct Hpnf as [H1 H2];
         apply in_app_iff in Hin; destruct Hin as [Hin | Hin]; auto).
  destruct f; simpl in *; try discriminate.
  destruct Hin as [<- | []]. reflexivity.
Qed.

Lemma get_subformulas_of_type_In (f g : MTLFormula) (op : LOP) :
  In g (get_subformulas_of_type f op) <->
  In g (subformulas f) /\ get_operator g = op.
Proof.
  unfold get_subformulas_of_type. rewrite set_insert_all_In, filter_In. simpl.
  assert (Heqb : LOP_eqb (get_operator g) op = true <-> get_operator g = op).
  { destruct (get_operator g), op; simpl; split; congruence. }
  tauto.
Qed.

(** On a formula in positive normal form [init] does not throw. *)
Lemma init_is_pnf (f : MTLFormula) (ap : AtomicProposition) (first : bool) :
  is_pnf f = true -> exists g, init f ap first = Ok g.
Proof.
  induction f as [| | a | f1 IH1 f2 IH2 | f1 IH1 f2 IH2 | f IH
                 | f1 IH1 f2 IH2 i | f1 IH1 f2 IH2 i];
    simpl; intros Hpnf.
  - eauto.
  - eauto.
  - destruct (AtomicProposition_eq_dec a ap); eauto.
  - apply andb_true_iff in Hpnf. destruct Hpnf as [H1 H2].
    destruct (IH1 H1) as [g1 ->], (IH2 H2) as [g2 ->]. simpl. eauto.
  - apply andb_true_iff in Hpnf. destruct Hpnf as [H1 H2].
    destruct (IH1 H1) as [g1 ->], (IH2 H2) as [g2 ->]. simpl. eauto.
  - destruct f; try discriminate.
    destruct (AtomicProposition_eq_dec a ap); eauto.
  - destruct first; eauto.
  - destruct first; eauto.
Qed.

Lemma for_each_total (A B : Type) (f : A -> result B) (l : list A) :
  (forall a, In a l -> exists b, f a = Ok b) -> exists bs, for_each f l = Ok bs.
Proof.
  induction l as [| a l IH]; simpl; intros Hall.
  - eauto.
  - destruct (Hall a (or_introl eq_refl)) as [b ->]. simpl.
    destruct IH as [bs ->]; [intros; apply Hall; auto |]. simpl. eauto.
Qed.

Lemma until_transition_total (f : MTLFormula) (symbol : AtomicProposition) (u : MTLFormula) :
  is_pnf f = true -> In u (get_subformulas_of_type f LUNTIL) ->
  exists t, until_transition symbol u = Ok t.
Proof.
  intros Hpnf Hin. apply get_subformulas_of_type_In in Hin. destruct Hin as [Hsub Hop].
  pose proof (is_pnf_subformula _ _ Hsub Hpnf) as Hu.
  destruct u; simpl in Hop; try discriminate. simpl in Hu.
  apply andb_true_iff in Hu. destruct Hu as [H1 H2]. simpl.
  destruct (init_is_pnf u2 symbol false H2) as [g2 ->].
  destruct (init_is_pnf u1 symbol false H1) as [g1 ->]. simpl. eauto.
Qed.

Lemma dual_until_transition_total (f : MTLFormula) (symbol : AtomicProposition)
  (u : MTLFormula) :
  is_pnf f = true -> In u (get_subformulas_of_type f LDUNTIL) ->
  exists t, dual_until_transition symbol u = Ok t.
Proof.
  intros Hpnf Hin. apply get_subformulas_of_type_In in Hin. destruct Hin as [Hsub Hop].
  pose proof (is_pnf_subformula _ _ Hsub Hpnf) as Hu.
  destruct u; simpl in Hop; try discriminate. simpl in Hu.
  apply andb_true_iff in Hu. destruct Hu as [H1 H2]. simpl.
  destruct (init_is_pnf u2 symbol false H2) as [g2 ->].
  destruct (init_is_pnf u1 symbol false H1) as [g1 ->]. simpl. eauto.
Qed.

Lemma symbol_transitions_total (f : MTLFormula) (symbol : AtomicProposition) :
  is_pnf f = true ->
  exists ts,
    symbol_transitions f (get_subformulas_of_type f LUNTIL)
      (get_subformulas_of_type f LDUNTIL) symbol = Ok ts.
Proof.
  intros Hpnf. unfold symbol_transitions.
  destruct (init_is_pnf f symbol true Hpnf) as [g ->]. simpl.
  destruct (for_each_total (until_transition symbol) (get_subformulas_of_type f LUNTIL))
    as [us ->]; [intros; eapply until_transition_total; eauto |]. simpl.
  destruct (for_each_total (dual_until_transition symbol)
              (get_subformulas_of_type f LDUNTIL))
    as [ds ->]; [intros; eapply dual_until_transition_total; eauto |]. simpl.
  eauto.
Qed.

(** When the alphabet is free of [l0], the automaton is constructed: the
    normalisation makes the failure of [init] unreachable. *)
Lemma translate_returns (input_formula : MTLFormula) (alphabet : list AtomicProposition) :
  ~ In l0 (effective_alphabet input_formula alphabet) ->
  exists ata, translate input_formula alphabet = Ok ata.
Proof.
  intros Hnot. unfold translate. fold (effective_alphabet input_formula alphabet).
  destruct (0 <? count_occ AtomicProposition_eq_dec
                   (effective_alphabet input_formula alphabet) l0)%nat eqn:Hcount.
  - apply Nat.ltb_lt in Hcount. apply count_occ_In in Hcount. contradiction.
  - destruct (for_each_total
                (symbol_transitions (to_positive_normal_form input_formula)
                   (get_subformulas_of_type (to_positive_normal_form input_formula) LUNTIL)
                   (get_subformulas_of_type (to_positive_normal_form input_formula) LDUNTIL))
                (effective_alphabet input_formula alphabet)) as [ts ->].
    + intros a _. apply symbol_transitions_total, pnf_under_is_pnf.
    + simpl. eauto.
Qed.

(** C6.  [translate] throws [std::invalid_argument] if and only if the
    effective alphabet (the alphabet given or, when that is empty, the atomic
    propositions of the formula) contains the reserved symbol [l0]; on such
    an input no automaton is constructed. *)
Theorem translate_invalid_argument_iff_l0
  (input_formula : MTLFormula) (alphabet : list AtomicProposition) :
  ((exists message, translate input_formula alphabet = Throw (invalid_argument message))
   <-> In l0 (effective_alphabet input_formula alphabet))
  /\ (In l0 (effective_alphabet input_formula alphabet) ->
      forall ata, translate input_formula alphabet <> Ok ata).
Proof.
  assert (Hthrow : In l0 (effective_alphabet input_formula alphabet) ->
                   translate input_formula alphabet = Throw (invalid_argument l0_message)).
  { intros Hin. unfold translate. fold (effective_alphabet input_formula alphabet).
    apply (count_occ_In AtomicProposition_eq_dec) in Hin.
    apply Nat.ltb_lt in Hin. rewrite Hin. reflexivity. }
  split; [split |].
  - intros [message Hm].
    destruct (in_dec AtomicProposition_eq_dec l0
                (effective_alphabet input_formula alphabet)) as [Hin | Hnot];
      [assumption |].
    destruct (translate_returns input_formula alphabet Hnot) as [ata Hata].
    rewrite Hata in Hm. discriminate.
  - intros Hin. exists l0_message. apply Hthrow, Hin.
  - intros Hin ata Hata. rewrite (Hthrow Hin) in Hata. discriminate.
Qed.

(** C7.  Translating the positive normal form of a formula gives the same
    result as translating the formula: the same automaton, or the same
    exception. *)
Theorem translate_positive_normal_form
  (input_formula : MTLFormula) (alphabet : list AtomicProposition) :
  translate (to_positive_normal_form input_formula) alphabet
  = translate input_formula alphabet.
Proof.
  unfold translate. rewrite to_positive_normal_form_idempotent. reflexivity.
Qed.

End translator_facts.

(* ================================================================== *)
(** * Properties of the search *)
(* ================================================================== *)

Module search_facts.
Import logic search search_properties.

(** ** Nodes, pointers and updates *)

Lemma mem_action_In (a : ActionType) (s : list ActionType) :
  mem_action a s = true <-> In a s.
Proof.
  unfold mem_action. destruct (in_dec string_dec a s); split; (congruence || auto).
Qed.

Lemma label_is_true (l : NodeLabel) (n : Node) : label_is l n = true <-> label n = l.
Proof.
  unfold label_is. destruct (NodeLabel_eq_dec (label n) l); split; (congruence || auto).
Qed.

Lemma label_is_false (l : NodeLabel) (n : Node) : label_is l n = false <-> label n <> l.
Proof.
  unfold label_is. destruct (NodeLabel_eq_dec (label n) l); split; (congruence || auto).
Qed.

Lemma nth_error_replace_nth_eq (A : Type) (l : list A) :
  forall (i : nat) (x y : A), nth_error l i = Some y -> nth_error (replace_nth i x l) i = Some x.
Proof.
  induction l as [| a l IH]; intros [| i] x y H; simpl in *; try discriminate.
  - reflexivity.
  - eapply IH, H.
Qed.

Lemma nth_error_replace_nth_neq (A : Type) (l : list A) :
  forall (i j : nat) (x : A), i <> j -> nth_error (replace_nth i x l) j = nth_error l j.
Proof.
  induction l as [| a l IH]; intros [| i] [| j] x H; simpl; try reflexivity.
  - congruence.
  - apply IH. congruence.
Qed.

Lemma length_replace_nth (A : Type) (l : list A) :
  forall (i : nat) (x : A), List.length (replace_nth i x l) = List.length l.
Proof.
  induction l as [| a l IH]; intros [| i] x; simpl; try reflexivity.
  now rewrite IH.
Qed.

Lemma replace_nth_same (A : Type) (l : list A) :
  forall (i : nat) (x : A), nth_error l i = Some x -> replace_nth i x l = l.
Proof.
  induction l as [| a l IH]; intros [| i] x H; simpl in *; try reflexivity.
  - congruence.
  - f_equal. apply IH, H.
Qed.

Lemma map_replace_nth (A B : Type) (f : A -> B) (l : list A) :
  forall (i : nat) (x : A), map f (replace_nth i x l) = replace_nth i (f x) (map f l).
Proof.
  induction l as [| a l IH]; intros [| i] x; simpl; try reflexivity.
  now rewrite IH.
Qed.

(** The node that a pointer leads to is the one an update at that pointer
    rewrites. *)
Lemma get_node_update_node (f : Node -> Node) (p : NodePtr) :
  forall (root n : Node),
    get_node root p = Some n -> get_node (update_node f root p) p = Some (f n).
Proof.
  induction p as [| i p IH]; intros root n H; simpl in *.
  - congruence.
  - destruct (nth_error (children root) i) as [c |] eqn:Hc; [| discriminate].
    simpl. rewrite (nth_error_replace_nth_eq _ _ _ Hc). apply IH, H.
Qed.

Lemma update_node_update_node (f g : Node -> Node) (p : NodePtr) :
  forall (root : Node),
    update_node f (update_node g root p) p = update_node (fun m => f (g m)) root p.
Proof.
  induction p as [| i p IH]; intros root; simpl in *.
  - reflexivity.
  - destruct (nth_error (children root) i) as [c |] eqn:Hc.
    + simpl. rewrite (nth_error_replace_nth_eq _ _ _ Hc).
      unfold set_children. simpl. f_equal.
      rewrite (IH c).
      clear - Hc. revert i Hc.
      induction (children root) as [| a l IHl]; intros [| i] Hc;
        simpl in *; try discriminate; try reflexivity.
      f_equal. apply IHl, Hc.
    + simpl. rewrite Hc. reflexivity.
Qed.

Lemma cancel_labeled (n : Node) : label n <> UNLABELED -> cancel n = n.
Proof.
  intros H. destruct n as [w ia st l r e cs]. simpl in *. destruct l; congruence.
Qed.

Lemma label_set_label (l : NodeLabel) (c : bool) (n : Node) : label (set_label l c n) = l.
Proof. unfold set_label. destruct c; reflexivity. Qed.

Lemma words_set_label (l : NodeLabel) (c : bool) (n : Node) :
  words (set_label l c n) = words n.
Proof. unfold set_label. destruct c; reflexivity. Qed.

Lemma state_set_label (l : NodeLabel) (c : bool) (n : Node) :
  state (set_label l c n) = state n.
Proof. unfold set_label. destruct c; reflexivity. Qed.

Lemma label_reason_set_label (l : NodeLabel) (c : bool) (n : Node) :
  label_reason (set_label l c n) = label_reason n.
Proof. unfold set_label. destruct c; reflexivity. Qed.

Lemma is_expanded_set_label (l : NodeLabel) (c : bool) (n : Node) :
  is_expanded (set_label l c n) = is_expanded n.
Proof. unfold set_label. destruct c; reflexivity. Qed.

Lemma incoming_actions_set_label (l : NodeLabel) (c : bool) (n : Node) :
  incoming_actions (set_label l c n) = incoming_actions n.
Proof. unfold set_label. destruct c; reflexivity. Qed.

Lemma children_set_label (l : NodeLabel) (c : bool) (n : Node) :
  children (set_label l c n) = if c then map cancel (children n) else children n.
Proof. unfold set_label. destruct c; reflexivity. Qed.

(** A labeled node is left as it is by a propagation that starts at it:
    only its ancestors are relabeled, and a cancellation that one of them
    triggers passes over the nodes that have their label. *)
Lemma get_node_label_propagate (ctl env : list ActionType) (cc : bool) (p : NodePtr) :
  forall (root n : Node),
    get_node root p = Some n -> label n <> UNLABELED ->
    get_node (label_propagate ctl env cc root p) p = Some n.
Proof.
  induction p as [| i p IH]; intros root n H Hl; simpl in *.
  - assumption.
  - destruct (nth_error (children root) i) as [c |] eqn:Hc; [| discriminate].
    pose proof (IH c n H Hl) as Hc'.
    remember (label_propagate ctl env cc c p) as c' eqn:Ec'. clear Ec'.
    assert (Hroot' : nth_error (replace_nth i c' (children root)) i = Some c')
      by (eapply nth_error_replace_nth_eq; eassumption).
    destruct (label c') eqn:Hlc'.
    + simpl. rewrite Hroot'. assumption.
    + destruct (label_decision ctl env _) as [[l reason] |];
        [| simpl; rewrite Hroot'; assumption].
      cbn [get_node]. rewrite children_set_label. simpl. destruct cc.
      * rewrite nth_error_map, Hroot'. simpl. rewrite cancel_labeled by congruence.
        assumption.
      * rewrite Hroot'. assumption.
    + destruct (label_decision ctl env _) as [[l reason] |];
        [| simpl; rewrite Hroot'; assumption].
      cbn [get_node]. rewrite children_set_label. simpl. destruct cc.
      * rewrite nth_error_map, Hroot'. simpl. rewrite cancel_labeled by congruence.
        assumption.
      * rewrite Hroot'. assumption.
    + destruct (label_decision ctl env _) as [[l reason] |];
        [| simpl; rewrite Hroot'; assumption].
      cbn [get_node]. rewrite children_set_label. simpl. destruct cc.
      * rewrite nth_error_map, Hroot'. simpl. rewrite cancel_labeled by congruence.
        assumption.
      * rewrite Hroot'. assumption.
Qed.

(** ** The constructor *)

Lemma disjoint_check (xs ys : list ActionType) :
  forallb (fun a => negb (mem_action a ys)) xs = true
  <-> (forall a, In a xs -> ~ In a ys).
Proof.
  rewrite forallb_forall. split; intros H a Ha.
  - intros Hy. specialize (H a Ha). apply mem_action_In in Hy. rewrite Hy in H. discriminate.
  - destruct (mem_action a ys) eqn:Hm; [| reflexivity].
    apply mem_action_In in Hm. exfalso. exact (H a Ha Hm).
Qed.

(** C9.  The constructor of [TreeSearch] asserts that the controller actions
    and the environment actions are disjoint: an action that occurs in both
    sets fails an assertion, and when the sets are disjoint no assertion
    fails and the search is constructed. *)
Theorem new_asserts_disjoint_actions
  (product : SynchronousProduct) (controller_actions environment_actions : list ActionType)
  (K : RegionIndex) (incremental_labeling terminate_early : bool) :
  ((exists a, In a controller_actions /\ In a environment_actions)
   <-> TreeSearch.new product controller_actions environment_actions K
         incremental_labeling terminate_early = TreeSearch.AssertionFailed)
  /\ ((forall a, In a controller_actions -> ~ In a environment_actions)
      <-> exists s,
          TreeSearch.new product controller_actions environment_actions K
            incremental_labeling terminate_early = TreeSearch.Passed s).
Proof.
  unfold TreeSearch.new.
  destruct (forallb (fun a => negb (mem_action a environment_actions)) controller_actions)
    eqn:H1; simpl.
  - pose proof (proj1 (disjoint_check _ _) H1) as Hd.
    assert (H2 : forallb (fun a => negb (mem_action a controller_actions))
                   environment_actions = true).
    { apply disjoint_check. intros a Ha Hc. exact (Hd a Hc Ha). }
    rewrite H2. simpl. split; split.
    + intros [a [Hc He]]. exfalso. exact (Hd a Hc He).
    + discriminate.
    + eauto.
    + intros _. exact Hd.
  - assert (Hnd : ~ (forall a, In a controller_actions -> ~ In a environment_actions)).
    { intros Hd. apply disjoint_check in Hd. congruence. }
    split; split.
    + reflexivity.
    + intros _.
      assert (Hex : existsb (fun a => mem_action a environment_actions) controller_actions
                    = true).
      { destruct (existsb (fun a => mem_action a environment_actions) controller_actions)
          eqn:Hex; [reflexivity |].
        exfalso. apply Hnd. intros a Ha He.
        assert (Hfalse : mem_action a environment_actions = false).
        { destruct (mem_action a environment_actions) eqn:Hm; [| reflexivity].
          assert (Htrue : existsb (fun a => mem_action a environment_actions)
                            controller_actions = true)
            by (apply existsb_exists; eauto).
          congruence. }
        apply mem_action_In in He. congruence. }
      apply existsb_exists in Hex. destruct Hex as [a [Ha Hm]].
      exists a. split; [assumption | apply mem_action_In, Hm].
    + intros Hd. contradiction.
    + intros [s Hs]. discriminate.
Qed.

(** ** What [expand_node] does to the node it is called on *)

Lemma set_children_children (n : Node) : set_children (children n) n = n.
Proof. destruct n; reflexivity. Qed.

Lemma close_node_node (s : TreeSearch.t) (p : NodePtr) (reason : LabelReason)
  (st : NodeState) (l : NodeLabel) (n : Node) :
  get_node (TreeSearch.tree_root_ s) p = Some n -> l <> UNLABELED ->
  get_node (TreeSearch.tree_root_ (TreeSearch.close_node s p reason st l)) p
  = Some (closed s reason st l n).
Proof.
  intros Hn Hl. unfold TreeSearch.close_node, closed.
  destruct (TreeSearch.incremental_labeling_ s); simpl.
  - apply get_node_label_propagate; [| rewrite label_set_label; assumption].
    apply get_node_update_node with (f := set_label l (TreeSearch.terminate_early_ s)).
    apply get_node_update_node with
      (f := fun n => set_is_expanded true (set_state st (set_label_reason reason n))).
    assumption.
  - apply get_node_update_node with
      (f := fun n => set_is_expanded true (set_state st (set_label_reason reason n))).
    assumption.
Qed.

Lemma close_node_pool (s : TreeSearch.t) (p : NodePtr) (reason : LabelReason)
  (st : NodeState) (l : NodeLabel) :
  TreeSearch.pool_ (TreeSearch.close_node s p reason st l) = TreeSearch.pool_ s.
Proof.
  unfold TreeSearch.close_node. destruct (TreeSearch.incremental_labeling_ s); reflexivity.
Qed.

Lemma tree_root_add_nodes_to_queue (ptrs : list NodePtr) :
  forall s, TreeSearch.tree_root_ (fold_left TreeSearch.add_node_to_queue ptrs s)
            = TreeSearch.tree_root_ s.
Proof.
  induction ptrs as [| q ptrs IH]; intros s; simpl; [reflexivity |].
  rewrite IH. reflexivity.
Qed.

Lemma pool_add_nodes_to_queue (ptrs : list NodePtr) :
  forall s, TreeSearch.pool_ (fold_left TreeSearch.add_node_to_queue ptrs s)
            = TreeSearch.pool_ s ++ ptrs.
Proof.
  induction ptrs as [| q ptrs IH]; intros s; simpl.
  - symmetry. apply app_nil_r.
  - rewrite IH. simpl. rewrite <- app_assoc. reflexivity.
Qed.

Lemma config_add_nodes_to_queue (ptrs : list NodePtr) :
  forall s,
    TreeSearch.incremental_labeling_ (fold_left TreeSearch.add_node_to_queue ptrs s)
    = TreeSearch.incremental_labeling_ s
    /\ TreeSearch.terminate_early_ (fold_left TreeSearch.add_node_to_queue ptrs s)
       = TreeSearch.terminate_early_ s
    /\ TreeSearch.controller_actions_ (fold_left TreeSearch.add_node_to_queue ptrs s)
       = TreeSearch.controller_actions_ s
    /\ TreeSearch.environment_actions_ (fold_left TreeSearch.add_node_to_queue ptrs s)
       = TreeSearch.environment_actions_ s
    /\ TreeSearch.K_ (fold_left TreeSearch.add_node_to_queue ptrs s) = TreeSearch.K_ s.
Proof.
  induction ptrs as [| q ptrs IH]; intros s; simpl; [repeat split |].
  destruct (IH (TreeSearch.add_node_to_queue s q)) as (H1 & H2 & H3 & H4 & H5).
  rewrite H1, H2, H3, H4, H5. repeat split.
Qed.

Lemma expand_node_node (product : SynchronousProduct) (s : TreeSearch.t) (ptr : NodePtr)
  (n : Node) :
  get_node (TreeSearch.tree_root_ s) ptr = Some n ->
  is_expanded n = false -> label n = UNLABELED ->
  get_node (TreeSearch.tree_root_ (TreeSearch.expand_node product s ptr)) ptr
  = Some (expanded product s ptr n).
Proof.
  intros Hn He Hl. unfold TreeSearch.expand_node, expanded. rewrite Hn, He.
  assert (Hu : label_is UNLABELED n = true) by (apply label_is_true, Hl).
  assert (Hc : label_is CANCELED n = false) by (apply label_is_false; congruence).
  rewrite Hu, Hc. simpl.
  destruct (TreeSearch.is_bad_node product n);
    [apply close_node_node; [assumption | discriminate] |].
  destruct (has_satisfiable_ata_configuration n); simpl;
    [| apply close_node_node; [assumption | discriminate]].
  destruct (TreeSearch.dominates_ancestor product s ptr);
    [apply close_node_node; [assumption | discriminate] |].
  unfold opened.
  destruct (TreeSearch.create_children product (TreeSearch.K_ s) n) as [| c cs] eqn:Hcs.
  - simpl. destruct (TreeSearch.incremental_labeling_ s); simpl.
    + apply get_node_label_propagate; [| rewrite label_set_label; discriminate].
      repeat rewrite update_node_update_node.
      apply get_node_update_node with
        (f := fun m => set_label TOP (TreeSearch.terminate_early_ s)
                         (set_label_reason DEAD_NODE
                            (set_state DEAD (set_is_expanded true (set_children [] m))))).
      assumption.
    + repeat rewrite update_node_update_node.
      apply get_node_update_node with
        (f := fun m => set_state DEAD (set_is_expanded true (set_children [] m))).
      assumption.
  - rewrite tree_root_add_nodes_to_queue. simpl.
    rewrite update_node_update_node.
    apply get_node_update_node with
      (f := fun m => set_is_expanded true (set_children (c :: cs) m)).
    assumption.
Qed.

(** ** Nodes without a satisfiable ATA configuration *)

Lemma has_satisfiable_ata_configuration_false (node : Node) :
  has_satisfiable_ata_configuration node = false <-> sink_in_every_word node.
Proof.
  unfold has_satisfiable_ata_configuration, sink_in_every_word.
  rewrite negb_false_iff, forallb_forall.
  split; intros H word Hword; specialize (H word Hword).
  - apply existsb_exists in H. destruct H as [component [Hc H]].
    apply existsb_exists in H. eauto.
  - destruct H as [component [Hc H]].
    apply existsb_exists. exists component. split; [assumption |].
    apply existsb_exists, H.
Qed.

Lemma label_closed (s : TreeSearch.t) (reason : LabelReason) (st : NodeState)
  (l : NodeLabel) (n : Node) :
  label (closed s reason st l n)
  = if TreeSearch.incremental_labeling_ s then l else label n.
Proof.
  unfold closed. destruct (TreeSearch.incremental_labeling_ s);
    [apply label_set_label | reflexivity].
Qed.

Lemma state_closed (s : TreeSearch.t) (reason : LabelReason) (st : NodeState)
  (l : NodeLabel) (n : Node) :
  state (closed s reason st l n) = st.
Proof.
  unfold closed. destruct (TreeSearch.incremental_labeling_ s);
    [rewrite state_set_label |]; reflexivity.
Qed.

Lemma label_reason_closed (s : TreeSearch.t) (reason : LabelReason) (st : NodeState)
  (l : NodeLabel) (n : Node) :
  label_reason (closed s reason st l n) = reason.
Proof.
  unfold closed. destruct (TreeSearch.incremental_labeling_ s);
    [rewrite label_reason_set_label |]; reflexivity.
Qed.

Lemma is_expanded_closed (s : TreeSearch.t) (reason : LabelReason) (st : NodeState)
  (l : NodeLabel) (n : Node) :
  is_expanded (closed s reason st l n) = true.
Proof.
  unfold closed. destruct (TreeSearch.incremental_labeling_ s);
    [rewrite is_expanded_set_label |]; reflexivity.
Qed.

Lemma length_children_closed (s : TreeSearch.t) (reason : LabelReason) (st : NodeState)
  (l : NodeLabel) (n : Node) :
  List.length (children (closed s reason st l n)) = List.length (children n).
Proof.
  unfold closed. destruct (TreeSearch.incremental_labeling_ s); [| reflexivity].
  rewrite children_set_label. destruct (TreeSearch.terminate_early_ s);
    [rewrite length_map |]; reflexivity.
Qed.

Lemma state_opened (s : TreeSearch.t) (cs : list Node) (n : Node) :
  state (opened s cs n) = match cs with [] => DEAD | _ :: _ => state n end.
Proof.
  unfold opened. destruct cs; [| reflexivity].
  destruct (TreeSearch.incremental_labeling_ s); [rewrite state_set_label |]; reflexivity.
Qed.

(** C3, as the code has it.  When [expand_node] processes a node that is
    neither expanded nor labeled, that is as constructed (state [UNKNOWN])
    and that is not bad, it leaves the node with state [GOOD] and reason
    [NO_ATA_SUCCESSOR] exactly when every word of the node contains the sink
    location of the ATA in at least one of its components; the node is then
    marked as expanded and, under incremental labeling, labeled [TOP]. *)
Theorem expand_node_no_ata_successor
  (product : SynchronousProduct) (s : TreeSearch.t) (ptr : NodePtr) (node : Node)
  (Hnode : get_node (TreeSearch.tree_root_ s) ptr = Some node)
  (Hunexpanded : is_expanded node = false)
  (Hunlabeled : label node = UNLABELED)
  (Hconstructed : state node = UNKNOWN)
  (Hnot_bad : TreeSearch.is_bad_node product node = false) :
  exists node',
    get_node (TreeSearch.tree_root_ (TreeSearch.expand_node product s ptr)) ptr = Some node'
    /\ ((state node' = GOOD /\ label_reason node' = NO_ATA_SUCCESSOR)
        <-> sink_in_every_word node)
    /\ (sink_in_every_word node ->
        is_expanded node' = true
        /\ (TreeSearch.incremental_labeling_ s = true -> label node' = TOP)).
Proof.
  exists (expanded product s ptr node).
  split; [apply expand_node_node; assumption |].
  unfold expanded. rewrite Hnot_bad.
  rewrite <- has_satisfiable_ata_configuration_false.
  destruct (has_satisfiable_ata_configuration node); simpl.
  - split; [| discriminate].
    split; [| discriminate].
    destruct (TreeSearch.dominates_ancestor product s ptr).
    + rewrite label_reason_closed. intros [_ H]. discriminate.
    + rewrite state_opened.
      destruct (TreeSearch.create_children product (TreeSearch.K_ s) node);
        intros [H _]; congruence.
  - rewrite state_closed, label_reason_closed, is_expanded_closed, label_closed.
    split; [tauto |].
    intros _. split; [reflexivity |]. intros ->. reflexivity.
Qed.

(** The theorem holds of the node of the repository's test whose word has
    the sink in its second component only. *)
Lemma expand_node_no_ata_successor_witness :
  sink_in_every_word (new_node [fixtures.word_a_sink] [])
  /\ exists node',
       get_node
         (TreeSearch.tree_root_
            (TreeSearch.expand_node fixtures.plant
               (fixtures.search_at (new_node [fixtures.word_a_sink] []) true) []))
         [] = Some node'
       /\ state node' = GOOD /\ label_reason node' = NO_ATA_SUCCESSOR /\ label node' = TOP.
Proof.
  assert (Hsink : sink_in_every_word (new_node [fixtures.word_a_sink] [])).
  { apply has_satisfiable_ata_configuration_false. reflexivity. }
  split; [exact Hsink |].
  destruct (expand_node_no_ata_successor fixtures.plant
              (fixtures.search_at (new_node [fixtures.word_a_sink] []) true) []
              (node := new_node [fixtures.word_a_sink] [])
              eq_refl eq_refl eq_refl eq_refl eq_refl)
    as [node' [Hget [Hiff Hlabel]]].
  exists node'. split; [exact Hget |].
  destruct (proj2 Hiff Hsink) as [Hstate Hreason].
  split; [exact Hstate |]. split; [exact Hreason |].
  exact (proj2 (Hlabel Hsink) eq_refl).
Defined.

(** C3, as it is stated, fails: the node of the repository's test with the
    word [{ (l0, x, 0), (a, 0) }, { (sink, 0) }] is given the state [GOOD]
    with the reason [NO_ATA_SUCCESSOR], although the first component of its
    word does not contain the sink. *)
Lemma expand_node_every_component_counterexample :
  let node := new_node [fixtures.word_a_sink] [] in
  let s := fixtures.search_at node true in
  is_expanded node = false /\ label node = UNLABELED
  /\ TreeSearch.is_bad_node fixtures.plant node = false
  /\ exists node',
       get_node (TreeSearch.tree_root_ (TreeSearch.expand_node fixtures.plant s [])) []
       = Some node'
       /\ ~ ((state node' = GOOD /\ label_reason node' = NO_ATA_SUCCESSOR)
             <-> sink_in_every_component node).
Proof.
  simpl. repeat split.
  eexists. split; [reflexivity |].
  intros [Hto _].
  specialize (Hto (conj eq_refl eq_refl) fixtures.word_a_sink (or_introl eq_refl)
                [fixtures.ta_state "l0"; fixtures.ata_state fixtures.a]
                (or_introl eq_refl)).
  destruct Hto as [region_symbol [[<- | [<- | []]] Hsink]]; discriminate.
Qed.

(** C10.  For a node whose set of words is empty
    [has_satisfiable_ata_configuration] returns false, and [expand_node],
    called on such a node that is neither expanded nor labeled, gives it the
    state [GOOD] with the reason [NO_ATA_SUCCESSOR] instead of expanding it:
    no child is created and no job is queued. *)
Theorem expand_node_empty_words
  (product : SynchronousProduct) (s : TreeSearch.t) (ptr : NodePtr) (node : Node)
  (Hnode : get_node (TreeSearch.tree_root_ s) ptr = Some node)
  (Hwords : words node = [])
  (Hunexpanded : is_expanded node = false)
  (Hunlabeled : label node = UNLABELED) :
  has_satisfiable_ata_configuration node = false
  /\ exists node',
       get_node (TreeSearch.tree_root_ (TreeSearch.expand_node product s ptr)) ptr
       = Some node'
       /\ state node' = GOOD
       /\ label_reason node' = NO_ATA_SUCCESSOR
       /\ is_expanded node' = true
       /\ List.length (children node') = List.length (children node)
       /\ TreeSearch.pool_ (TreeSearch.expand_node product s ptr) = TreeSearch.pool_ s.
Proof.
  assert (Hsat : has_satisfiable_ata_configuration node = false).
  { unfold has_satisfiable_ata_configuration. rewrite Hwords. reflexivity. }
  assert (Hbad : TreeSearch.is_bad_node product node = false).
  { unfold TreeSearch.is_bad_node. rewrite Hwords. reflexivity. }
  split; [exact Hsat |].
  exists (expanded product s ptr node).
  split; [apply expand_node_node; assumption |].
  unfold expanded. rewrite Hbad, Hsat. simpl.
  rewrite state_closed, label_reason_closed, is_expanded_closed, length_children_closed.
  repeat split.
  unfold TreeSearch.expand_node. rewrite Hnode, Hunexpanded, Hbad, Hsat.
  assert (Hu : label_is UNLABELED node = true) by (apply label_is_true, Hunlabeled).
  rewrite Hu. simpl. apply close_node_pool.
Qed.

Lemma expand_node_empty_words_witness :
  words (new_node [] []) = []
  /\ has_satisfiable_ata_configuration (new_node [] []) = false
  /\ exists node',
       get_node
         (TreeSearch.tree_root_
            (TreeSearch.expand_node fixtures.plant
               (fixtures.search_at (new_node [] []) false) []))
         [] = Some node'
       /\ state node' = GOOD /\ label_reason node' = NO_ATA_SUCCESSOR.
Proof.
  split; [reflexivity |].
  destruct (expand_node_empty_words fixtures.plant
              (fixtures.search_at (new_node [] []) false) []
              (node := new_node [] []) eq_refl eq_refl eq_refl eq_refl)
    as [Hsat [node' [Hget [Hstate [Hreason _]]]]].
  split; [exact Hsat |].
  exists node'. repeat split; assumption.
Defined.

(** ** Batch labeling *)

Unset Implicit Arguments.

Lemma first_step_None (l : list RegionIndex) : first_step l = None <-> l = [].
Proof.
  destruct l as [| d l]; simpl; [tauto |].
  destruct (first_step l); split; discriminate.
Qed.

Lemma first_step_Some (l : list RegionIndex) :
  forall m, first_step l = Some m -> In m l /\ (forall x, In x l -> (m <= x)%N).
Proof.
  induction l as [| d l IH]; simpl; intros m Hm; [discriminate |].
  destruct (first_step l) as [m' |] eqn:Hl.
  - destruct (IH m' eq_refl) as [Hin Hle]. injection Hm as <-. split.
    + destruct (N.min_spec d m') as [[_ ->] | [_ ->]]; auto.
    + intros x [<- | Hx]; [apply N.le_min_l |].
      specialize (Hle x Hx). etransitivity; [apply N.le_min_r | assumption].
  - injection Hm as <-. apply first_step_None in Hl. subst l.
    split; [auto |]. intros x [<- | []]. reflexivity.
Qed.

(** A smallest element exists and is found as soon as the list has one. *)
Lemma first_step_In (l : list RegionIndex) (x : RegionIndex) :
  In x l -> exists m, first_step l = Some m /\ (m <= x)%N.
Proof.
  intros Hx. destruct (first_step l) as [m |] eqn:Hm.
  - exists m. split; [reflexivity |]. apply (first_step_Some _ _ Hm), Hx.
  - apply first_step_None in Hm. subst l. contradiction.
Qed.

Lemma fold_min_first_step (l : list RegionIndex) :
  forall m0,
    fold_left N.min l m0
    = match first_step l with None => m0 | Some m => N.min m0 m end.
Proof.
  induction l as [| d l IH]; intros m0; simpl; [reflexivity |].
  rewrite IH. destruct (first_step l); [| reflexivity].
  symmetry. apply N.min_assoc.
Qed.

Lemma steps_of_In (l : NodeLabel) (actions : list ActionType) (cs : list Node)
  (d : RegionIndex) :
  In d (steps_of l actions cs)
  <-> exists c a, In c cs /\ label c = l /\ In (d, a) (incoming_actions c) /\ In a actions.
Proof.
  unfold steps_of. rewrite in_flat_map. split.
  - intros [c [Hc Hd]]. destruct (label_is l c) eqn:Hl; [| contradiction].
    apply label_is_true in Hl. apply in_map_iff in Hd.
    destruct Hd as [[d' a] [Hfst Hin]]. simpl in Hfst. subst d'.
    apply filter_In in Hin. destruct Hin as [Hin Hmem]. simpl in Hmem.
    apply mem_action_In in Hmem. exists c, a. auto.
  - intros [c [a [Hc [Hl [Hin Ha]]]]]. exists c. split; [assumption |].
    apply label_is_true in Hl. rewrite Hl. apply in_map_iff. exists (d, a).
    split; [reflexivity |]. apply filter_In. split; [assumption |].
    simpl. apply mem_action_In, Ha.
Qed.

Lemma steps_of_cons (l : NodeLabel) (actions : list ActionType) (c : Node) (cs : list Node) :
  steps_of l actions (c :: cs) = steps_of l actions [c] ++ steps_of l actions cs.
Proof. unfold steps_of. simpl. rewrite app_nil_r. reflexivity. Qed.

Lemma steps_of_single (l : NodeLabel) (actions : list ActionType) (c : Node) :
  steps_of l actions [c]
  = if label_is l c
    then map fst (filter (fun sa => mem_action (snd sa) actions) (incoming_actions c))
    else [].
Proof. unfold steps_of. simpl. apply app_nil_r. Qed.

(** The loop of [label] over the actions of one child. *)
Lemma fold_label_visit (s : TreeSearch.t) (child : Node) :
  forall (actions : list (RegionIndex * ActionType)) (found_bad : bool)
         (good bad : RegionIndex),
    fold_left (TreeSearch.label_visit s child) actions (found_bad, good, bad)
    = (found_bad
       || nonempty
            (if label_is BOTTOM child
             then filter (fun sa => mem_action (snd sa) (TreeSearch.environment_actions_ s))
                    actions
             else []),
       fold_left N.min
         (if label_is TOP child
          then map fst (filter (fun sa => mem_action (snd sa)
                                            (TreeSearch.controller_actions_ s)) actions)
          else [])
         good,
       fold_left N.min
         (if label_is BOTTOM child
          then map fst (filter (fun sa => mem_action (snd sa)
                                            (TreeSearch.environment_actions_ s)) actions)
          else [])
         bad).
Proof.
  assert (Hexcl : label_is TOP child = true -> label_is BOTTOM child = false).
  { intros Ht. apply label_is_true in Ht. apply label_is_false. congruence. }
  induction actions as [| [d a] actions IH]; intros found_bad good bad.
  - simpl. destruct (label_is BOTTOM child), (label_is TOP child);
      simpl; rewrite orb_false_r; reflexivity.
  - cbn [fold_left]. unfold TreeSearch.label_visit at 2. cbn [fst snd].
    destruct (label_is TOP child) eqn:Ht.
    + rewrite (Hexcl eq_refl) in *. cbn [andb].
      destruct (mem_action a (TreeSearch.controller_actions_ s)) eqn:Hc;
        rewrite IH; cbn [filter snd map fold_left]; rewrite ?Hc;
        reflexivity.
    + cbn [andb]. destruct (label_is BOTTOM child) eqn:Hb.
      * destruct (mem_action a (TreeSearch.environment_actions_ s)) eqn:He;
          cbn [andb]; rewrite IH; cbn [filter snd map fold_left]; rewrite ?He;
          cbn [nonempty map fold_left fst];
          rewrite ?orb_true_r; reflexivity.
      * cbn [andb]. rewrite IH. reflexivity.
Qed.

Lemma nonempty_app (A : Type) (l1 l2 : list A) :
  nonempty (l1 ++ l2) = nonempty l1 || nonempty l2.
Proof. destruct l1; reflexivity. Qed.

Lemma nonempty_map (A B : Type) (f : A -> B) (l : list A) :
  nonempty (map f l) = nonempty l.
Proof. destruct l; reflexivity. Qed.

(** The loop of [label] over the children: whether a bad environment
    action was found, and the two minima, each starting from the largest
    region index. *)
Lemma fold_label_scan (s : TreeSearch.t) (cs : list Node) :
  forall (found_bad : bool) (good bad : RegionIndex),
    fold_left
      (fun acc child =>
         fold_left (TreeSearch.label_visit s child) (incoming_actions child) acc)
      cs (found_bad, good, bad)
    = (found_bad || nonempty (steps_of BOTTOM (TreeSearch.environment_actions_ s) cs),
       fold_left N.min (steps_of TOP (TreeSearch.controller_actions_ s) cs) good,
       fold_left N.min (steps_of BOTTOM (TreeSearch.environment_actions_ s) cs) bad).
Proof.
  induction cs as [| c cs IH]; intros found_bad good bad.
  - simpl. rewrite orb_false_r. reflexivity.
  - cbn [fold_left]. rewrite fold_label_visit, IH.
    rewrite (steps_of_cons BOTTOM), (steps_of_cons TOP).
    rewrite !fold_left_app, nonempty_app, orb_assoc, !steps_of_single.
    destruct (label_is BOTTOM c); rewrite ?nonempty_map; reflexivity.
Qed.

Lemma label_scan_spec (s : TreeSearch.t) (cs : list Node) :
  TreeSearch.label_scan s cs
  = (nonempty (steps_of BOTTOM (TreeSearch.environment_actions_ s) cs),
     fold_left N.min (steps_of TOP (TreeSearch.controller_actions_ s) cs) RegionIndex_max,
     fold_left N.min (steps_of BOTTOM (TreeSearch.environment_actions_ s) cs) RegionIndex_max).
Proof. unfold TreeSearch.label_scan. rewrite fold_label_scan. reflexivity. Qed.

Lemma no_bad_environment_child_steps (s : TreeSearch.t) (cs : list Node) :
  no_bad_environment_child s cs
  <-> steps_of BOTTOM (TreeSearch.environment_actions_ s) cs = [].
Proof.
  split.
  - intros Hno. destruct (steps_of BOTTOM _ cs) as [| d l] eqn:Hsteps; [reflexivity |].
    assert (Hin : In d (steps_of BOTTOM (TreeSearch.environment_actions_ s) cs))
      by (rewrite Hsteps; left; reflexivity).
    apply steps_of_In in Hin. destruct Hin as [c [a [Hc [Hl [Hin Ha]]]]].
    exfalso. exact (Hno c Hc Hl (d, a) Hin Ha).
  - intros Hnil c Hc Hl [d a] Hin Ha. simpl in Ha.
    assert (Hd : In d (steps_of BOTTOM (TreeSearch.environment_actions_ s) cs))
      by (apply steps_of_In; exists c, a; auto).
    rewrite Hnil in Hd. contradiction.
Qed.

Lemma steps_of_in_range (l : NodeLabel) (actions : list ActionType) (cs : list Node)
  (d : RegionIndex) :
  steps_in_range cs -> In d (steps_of l actions cs) -> (d <= RegionIndex_max)%N.
Proof.
  intros Hrange Hd. apply steps_of_In in Hd. destruct Hd as [c [a [Hc [_ [Hin _]]]]].
  exact (Hrange c Hc (d, a) Hin).
Qed.

(** The test at the end of [label] decides the rule of batch labeling. *)
Lemma label_scan_batch_top (s : TreeSearch.t) (cs : list Node) :
  steps_in_range cs ->
  (let '(found_bad, first_good_controller_step, first_bad_environment_step) :=
     TreeSearch.label_scan s cs in
   negb found_bad || (first_good_controller_step <? first_bad_environment_step)%N) = true
  <-> batch_top s cs.
Proof.
  intros Hrange. rewrite label_scan_spec, !fold_min_first_step.
  unfold batch_top. rewrite no_bad_environment_child_steps.
  destruct (first_step (steps_of BOTTOM (TreeSearch.environment_actions_ s) cs))
    as [b |] eqn:Hb.
  - destruct (first_step_Some _ _ Hb) as [Hbin _].
    pose proof (steps_of_in_range _ _ _ _ Hrange Hbin) as Hble.
    assert (Hne : steps_of BOTTOM (TreeSearch.environment_actions_ s) cs <> [])
      by (intros Hnil; rewrite Hnil in Hbin; contradiction).
    assert (Hnonempty : nonempty (steps_of BOTTOM (TreeSearch.environment_actions_ s) cs)
                        = true)
      by (destruct (steps_of BOTTOM _ cs); [contradiction | reflexivity]).
    rewrite Hnonempty. cbn [negb orb]. rewrite (N.min_r _ _ Hble).
    destruct (first_step (steps_of TOP (TreeSearch.controller_actions_ s) cs))
      as [g |] eqn:Hg.
    + destruct (first_step_Some _ _ Hg) as [Hgin _].
      pose proof (steps_of_in_range _ _ _ _ Hrange Hgin) as Hgle.
      rewrite (N.min_r _ _ Hgle), N.ltb_lt. split.
      * intros Hlt. right. exists g, b. auto.
      * intros [Hnil | [g' [b' [Hg' [Hb' Hlt]]]]]; [contradiction |].
        injection Hg' as <-. injection Hb' as <-. assumption.
    + split.
      * intros Hlt. apply N.ltb_lt in Hlt. lia.
      * intros [Hnil | [g' [b' [Hg' _]]]]; [contradiction | discriminate].
  - apply first_step_None in Hb. rewrite Hb. simpl. tauto.
Qed.

Lemma label_unfold (s : TreeSearch.t) (node : Node) :
  TreeSearch.label s node
  = match state node with
    | GOOD | DEAD => set_label TOP (TreeSearch.terminate_early_ s) node
    | BAD => set_label BOTTOM (TreeSearch.terminate_early_ s) node
    | UNKNOWN =>
        let node' := set_children (map (TreeSearch.label s) (children node)) node in
        let '(found_bad, first_good_controller_step, first_bad_environment_step) :=
          TreeSearch.label_scan s (children node') in
        if negb found_bad
           || (first_good_controller_step <? first_bad_environment_step)%N
        then set_label TOP (TreeSearch.terminate_early_ s) node'
        else set_label BOTTOM (TreeSearch.terminate_early_ s) node'
    end.
Proof. destruct node; reflexivity. Qed.

(** Batch labeling leaves every node with [TOP] or [BOTTOM]. *)
Lemma label_label (s : TreeSearch.t) (node : Node) :
  label (TreeSearch.label s node) = TOP \/ label (TreeSearch.label s node) = BOTTOM.
Proof.
  rewrite label_unfold. destruct (state node); cbv zeta;
    try (rewrite label_set_label; auto).
  destruct (TreeSearch.label_scan s _) as [[found_bad g] b].
  destruct (negb found_bad || (g <? b)%N); rewrite label_set_label; auto.
Qed.

Lemma incoming_actions_label (s : TreeSearch.t) (node : Node) :
  incoming_actions (TreeSearch.label s node) = incoming_actions node.
Proof.
  rewrite label_unfold. destruct (state node); cbv zeta;
    try (rewrite incoming_actions_set_label; reflexivity).
  destruct (TreeSearch.label_scan s _) as [[found_bad g] b].
  destruct (negb found_bad || (g <? b)%N); rewrite incoming_actions_set_label; reflexivity.
Qed.

Lemma map_cancel_labeled (cs : list Node) :
  (forall c, In c cs -> label c <> UNLABELED) -> map cancel cs = cs.
Proof.
  induction cs as [| c cs IH]; intros H; simpl; [reflexivity |].
  rewrite cancel_labeled by (apply H; left; reflexivity).
  rewrite IH by (intros; apply H; right; assumption). reflexivity.
Qed.

Lemma map_cancel_map_label (s : TreeSearch.t) (cs : list Node) :
  map cancel (map (TreeSearch.label s) cs) = map (TreeSearch.label s) cs.
Proof.
  apply map_cancel_labeled. intros c Hc. apply in_map_iff in Hc.
  destruct Hc as [c0 [<- _]]. destruct (label_label s c0) as [-> | ->]; discriminate.
Qed.

Lemma steps_in_range_map_label (s : TreeSearch.t) (cs : list Node) :
  steps_in_range cs -> steps_in_range (map (TreeSearch.label s) cs).
Proof.
  intros Hrange c Hc sa Hsa. apply in_map_iff in Hc. destruct Hc as [c0 [<- Hc0]].
  rewrite incoming_actions_label in Hsa. exact (Hrange c0 Hc0 sa Hsa).
Qed.

(** C4.  Batch labeling labels a node by its state when that is [GOOD] or
    [DEAD] ([TOP]) or [BAD] ([BOTTOM]).  A node with state [UNKNOWN] has its
    children labeled first and is then labeled [TOP] if and only if no child
    that an environment action leads to is labeled [BOTTOM], or the smallest
    region increment over the controller actions into [TOP] children is
    strictly smaller than the smallest region increment over the environment
    actions into [BOTTOM] children; otherwise it is labeled [BOTTOM]. *)
Theorem label_batch_rule (s : TreeSearch.t) (node : Node)
  (Hrange : steps_in_range (children node)) :
  (state node = GOOD \/ state node = DEAD -> label (TreeSearch.label s node) = TOP)
  /\ (state node = BAD -> label (TreeSearch.label s node) = BOTTOM)
  /\ (state node = UNKNOWN ->
      children (TreeSearch.label s node) = map (TreeSearch.label s) (children node)
      /\ (label (TreeSearch.label s node) = TOP
          <-> batch_top s (children (TreeSearch.label s node)))
      /\ (label (TreeSearch.label s node) = BOTTOM
          <-> ~ batch_top s (children (TreeSearch.label s node)))).
Proof.
  rewrite label_unfold. split; [| split].
  - intros [-> | ->]; apply label_set_label.
  - intros ->. apply label_set_label.
  - intros ->. cbv zeta.
    pose proof (label_scan_batch_top s _ (steps_in_range_map_label s _ Hrange)) as Hrule.
    cbn [children set_children] in *.
    destruct (TreeSearch.label_scan s (map (TreeSearch.label s) (children node)))
      as [[found_bad g] b].
    assert (Hchildren :
              forall l,
                children (set_label l (TreeSearch.terminate_early_ s)
                            (set_children (map (TreeSearch.label s) (children node)) node))
                = map (TreeSearch.label s) (children node)).
    { intros l. rewrite children_set_label. cbn [children set_children].
      destruct (TreeSearch.terminate_early_ s);
        [apply map_cancel_map_label | reflexivity]. }
    destruct (negb found_bad || (g <? b)%N);
      rewrite Hchildren, label_set_label; (split; [reflexivity |]).
    + assert (Htop : batch_top s (map (TreeSearch.label s) (children node)))
        by (apply Hrule; reflexivity).
      split; [tauto | split; [discriminate | tauto]].
    + assert (Hnot : ~ batch_top s (map (TreeSearch.label s) (children node)))
        by (intros Htop; apply Hrule in Htop; discriminate).
      split; [split; [discriminate | tauto] | tauto].
Qed.

Lemma label_batch_rule_witness :
  steps_in_range (children fixtures.three_leaves)
  /\ label (TreeSearch.label (fixtures.search_at fixtures.three_leaves false)
              fixtures.three_leaves) = TOP.
Proof.
  assert (Hrange : steps_in_range (children fixtures.three_leaves)).
  { intros c Hc sa Hsa. simpl in Hc.
    destruct Hc as [<- | [<- | [<- | []]]]; simpl in Hsa;
      destruct Hsa as [<- | []]; discriminate. }
  split; [exact Hrange |].
  destruct (label_batch_rule (fixtures.search_at fixtures.three_leaves false)
              fixtures.three_leaves Hrange) as [_ [_ Hunknown]].
  destruct (Hunknown eq_refl) as [_ [Htop _]].
  apply Htop. right. exists 0%N, 1%N. repeat split.
Defined.

(** ** Induction over the search tree *)

(** A property holds of every node when it holds of a node as soon as it
    holds of the children of the node. *)
Lemma Node_children_ind (P : Node -> Prop) :
  (forall n, Forall P (children n) -> P n) -> forall n, P n.
Proof.
  intros step.
  refine (fix IH (n : Node) : P n := _).
  apply step. destruct n as [w ia st l r e cs]. simpl.
  induction cs as [| c cs IHcs]; constructor; [apply IH | apply IHcs].
Qed.

End search_facts.

(* ================================================================== *)
(** * Batch labeling and incremental labeling *)
(* ================================================================== *)

Module labeling_facts.
Import logic search search_properties search_facts.

Unset Implicit Arguments.

(** ** The two walks of [expand_node] as one *)

Lemma replace_nth_replace_nth (A : Type) (l : list A) :
  forall (i : nat) (x y : A), replace_nth i y (replace_nth i x l) = replace_nth i y l.
Proof.
  induction l as [| a l IH]; intros [| i] x y; simpl; try reflexivity.
  now rewrite IH.
Qed.

Lemma walk_update_node (ctl env : list ActionType) (cc : bool) (f : Node -> Node)
  (p : NodePtr) :
  forall root, walk ctl env cc false f root p = update_node f root p.
Proof.
  induction p as [| i p IH]; intros root; simpl; [reflexivity |].
  destruct (nth_error (children root) i) as [c |]; [| reflexivity].
  rewrite IH. reflexivity.
Qed.

Lemma walk_label_propagate (ctl env : list ActionType) (cc : bool) (f : Node -> Node)
  (p : NodePtr) :
  forall root,
    walk ctl env cc true f root p = label_propagate ctl env cc (update_node f root p) p.
Proof.
  induction p as [| i p IH]; intros root; simpl; [reflexivity |].
  destruct (nth_error (children root) i) as [c |] eqn:Hc; [| simpl; rewrite Hc; reflexivity].
  cbn [children set_children].
  rewrite (nth_error_replace_nth_eq _ _ _ Hc), <- IH, replace_nth_replace_nth.
  reflexivity.
Qed.

Lemma update_node_at (f : Node -> Node) (p : NodePtr) :
  forall root n,
    get_node root p = Some n -> update_node f root p = update_node (fun _ => f n) root p.
Proof.
  induction p as [| i p IH]; intros root n H; simpl in *.
  - congruence.
  - destruct (nth_error (children root) i) as [c |]; [| discriminate].
    rewrite (IH c n H). reflexivity.
Qed.

Lemma close_node_walk (s : TreeSearch.t) (ptr : NodePtr) (reason : LabelReason)
  (st : NodeState) (l : NodeLabel) (n : Node) :
  get_node (TreeSearch.tree_root_ s) ptr = Some n ->
  label n = UNLABELED -> l <> UNLABELED ->
  TreeSearch.tree_root_ (TreeSearch.close_node s ptr reason st l)
  = walk (TreeSearch.controller_actions_ s) (TreeSearch.environment_actions_ s)
      (TreeSearch.terminate_early_ s)
      (negb (label_is UNLABELED (closed s reason st l n)))
      (fun _ => closed s reason st l n) (TreeSearch.tree_root_ s) ptr.
Proof.
  intros Hn Hl Hl'. unfold TreeSearch.close_node, closed.
  destruct (TreeSearch.incremental_labeling_ s); simpl.
  - assert (Hlab : label_is UNLABELED
                     (set_label l (TreeSearch.terminate_early_ s)
                        (set_is_expanded true (set_state st (set_label_reason reason n))))
                   = false)
      by (apply label_is_false; rewrite label_set_label; assumption).
    rewrite Hlab. simpl. rewrite walk_label_propagate, update_node_update_node.
    f_equal.
    apply (update_node_at
             (fun m => set_label l (TreeSearch.terminate_early_ s)
                         (set_is_expanded true
                            (set_state st (set_label_reason reason m))))), Hn.
  - assert (Hlab : label_is UNLABELED
                     (set_is_expanded true (set_state st (set_label_reason reason n)))
                   = true)
      by (apply label_is_true; assumption).
    rewrite Hlab. simpl. rewrite walk_update_node.
    apply (update_node_at
             (fun m => set_is_expanded true (set_state st (set_label_reason reason m)))),
      Hn.
Qed.

(** [expand_node] on a node that it processes, as a walk: the node is
    rewritten into [expanded], and the label is propagated if the node got
    one. *)
Lemma expand_node_walk (product : SynchronousProduct) (s : TreeSearch.t) (ptr : NodePtr)
  (n : Node) :
  get_node (TreeSearch.tree_root_ s) ptr = Some n ->
  is_expanded n = false -> label n = UNLABELED ->
  TreeSearch.tree_root_ (TreeSearch.expand_node product s ptr)
  = walk (TreeSearch.controller_actions_ s) (TreeSearch.environment_actions_ s)
      (TreeSearch.terminate_early_ s)
      (negb (label_is UNLABELED (expanded product s ptr n)))
      (fun _ => expanded product s ptr n) (TreeSearch.tree_root_ s) ptr.
Proof.
  intros Hn He Hl. unfold TreeSearch.expand_node, expanded. rewrite Hn, He.
  assert (Hu : label_is UNLABELED n = true) by (apply label_is_true, Hl).
  assert (Hc : label_is CANCELED n = false) by (apply label_is_false; congruence).
  rewrite Hu, Hc. simpl.
  destruct (TreeSearch.is_bad_node product n);
    [apply close_node_walk; [assumption | assumption | discriminate] |].
  destruct (has_satisfiable_ata_configuration n); simpl;
    [| apply close_node_walk; [assumption | assumption | discriminate]].
  destruct (TreeSearch.dominates_ancestor product s ptr);
    [apply close_node_walk; [assumption | assumption | discriminate] |].
  unfold opened.
  destruct (TreeSearch.create_children product (TreeSearch.K_ s) n) as [| c cs] eqn:Hcs.
  - simpl. destruct (TreeSearch.incremental_labeling_ s); simpl.
    + assert (Hlab : label_is UNLABELED
                       (set_label TOP (TreeSearch.terminate_early_ s)
                          (set_label_reason DEAD_NODE
                             (set_state DEAD
                                (set_is_expanded true (set_children [] n)))))
                     = false)
        by (apply label_is_false; rewrite label_set_label; discriminate).
      rewrite Hlab. simpl. rewrite walk_label_propagate.
      rewrite !update_node_update_node. f_equal.
      apply (update_node_at
               (fun m => set_label TOP (TreeSearch.terminate_early_ s)
                           (set_label_reason DEAD_NODE
                              (set_state DEAD
                                 (set_is_expanded true
                                    (set_children [] (set_children [] m))))))), Hn.
    + assert (Hlab : label_is UNLABELED
                       (set_state DEAD (set_is_expanded true (set_children [] n)))
                     = true)
        by (apply label_is_true; assumption).
      rewrite Hlab. simpl. rewrite walk_update_node, !update_node_update_node.
      apply (update_node_at
               (fun m => set_state DEAD
                           (set_is_expanded true
                              (set_children [] (set_children [] m))))), Hn.
  - rewrite tree_root_add_nodes_to_queue. simpl.
    assert (Hlab : label_is UNLABELED (set_is_expanded true (set_children (c :: cs) n))
                   = true)
      by (apply label_is_true; assumption).
    rewrite Hlab. simpl. rewrite walk_update_node, update_node_update_node.
    apply (update_node_at (fun m => set_is_expanded true (set_children (c :: cs) m))), Hn.
Qed.

(** ** The decision of [label_propagate] as children get their labels *)

Lemma first_step_incl (l1 l2 : list RegionIndex) :
  (forall d, In d l1 -> In d l2) -> le_opt (first_step l2) (first_step l1).
Proof.
  intros Hincl. unfold le_opt. destruct (first_step l1) as [y |] eqn:H1; [| exact I].
  destruct (first_step_Some _ _ H1) as [Hy _].
  destruct (first_step_In _ _ (Hincl y Hy)) as [x [-> Hle]]. exact Hle.
Qed.

Lemma first_step_incl2 (l l1 l2 : list RegionIndex) :
  (forall d, In d l -> In d l1 \/ In d l2) ->
  le_opt (min_opt (first_step l1) (first_step l2)) (first_step l).
Proof.
  intros Hincl. unfold le_opt. destruct (first_step l) as [y |] eqn:Hl; [| exact I].
  destruct (first_step_Some _ _ Hl) as [Hy _].
  destruct (Hincl y Hy) as [Hin | Hin];
    destruct (first_step_In _ _ Hin) as [x [Hx Hle]]; rewrite Hx; simpl.
  - destruct (first_step l2); simpl; [| assumption].
    apply N.le_trans with x; [apply N.le_min_l | assumption].
  - destruct (first_step l1); simpl; [| assumption].
    apply N.le_trans with x; [apply N.le_min_r | assumption].
Qed.

Lemma label_decision_decide (ctl env : list ActionType) (cs : list Node) :
  label_decision ctl env cs
  = decide (first_step (steps_of TOP ctl cs)) (first_step (steps_of UNLABELED ctl cs))
      (first_step (steps_of UNLABELED env cs)) (first_step (steps_of BOTTOM env cs)).
Proof. reflexivity. Qed.

Ltac split_comparisons :=
  repeat match goal with
         | H : context [(?a <? ?b)%N] |- _ => destruct (N.ltb_spec a b)
         | H : context [(?a <=? ?b)%N] |- _ => destruct (N.leb_spec a b)
         | |- context [(?a <? ?b)%N] => destruct (N.ltb_spec a b)
         | |- context [(?a <=? ?b)%N] => destruct (N.leb_spec a b)
         end.

(** A decision that has been taken stays when more children get a label:
    the steps that were counted as the best or the worst case of a child
    without label cover what the child turns out to be. *)
Lemma decide_stable (good open_ctl open_env bad good' open_ctl' open_env' bad'
                     : option RegionIndex) (l : NodeLabel) (reason : LabelReason) :
  le_opt good' good -> le_opt bad' bad ->
  le_opt open_env open_env' -> le_opt open_ctl open_ctl' ->
  le_opt (min_opt bad open_env) bad' -> le_opt (min_opt good open_ctl) good' ->
  decide good open_ctl open_env bad = Some (l, reason) ->
  exists reason', decide good' open_ctl' open_env' bad' = Some (l, reason').
Proof.
  unfold decide, le_opt, min_opt, is_none, strictly_before, not_after.
  intros Hg Hb Hoe Hoc Hb' Hg' Hd.
  destruct good as [g |], open_ctl as [oc |], open_env as [oe |], bad as [b |],
    good' as [g' |], open_ctl' as [oc' |], open_env' as [oe' |], bad' as [b' |];
    simpl in *; try contradiction; try discriminate;
    split_comparisons; simpl in *;
    try discriminate; try (eexists; eassumption); try lia;
    try (injection Hd as <- <-; eexists; reflexivity).
Qed.

(** Without a child that has no label yet, a decision is taken. *)
Lemma decide_total (good bad : option RegionIndex) :
  decide good None None bad <> None.
Proof.
  unfold decide, is_none, strictly_before, not_after.
  destruct good as [g |], bad as [b |]; simpl; try discriminate;
    split_comparisons; simpl; try discriminate; lia.
Qed.

Lemma Forall2_In_left (A B : Type) (R : A -> B -> Prop) (l : list A) (l' : list B) :
  Forall2 R l l' -> forall x, In x l -> exists y, In y l' /\ R x y.
Proof.
  induction 1 as [| a b l l' Hab _ IH]; intros x Hx; [contradiction |].
  destruct Hx as [<- | Hx].
  - exists b. split; [left; reflexivity | assumption].
  - destruct (IH x Hx) as [y [Hy Hxy]]. exists y. split; [right |]; assumption.
Qed.

Lemma Forall2_In_right (A B : Type) (R : A -> B -> Prop) (l : list A) (l' : list B) :
  Forall2 R l l' -> forall y, In y l' -> exists x, In x l /\ R x y.
Proof.
  induction 1 as [| a b l l' Hab _ IH]; intros y Hy; [contradiction |].
  destruct Hy as [<- | Hy].
  - exists a. split; [left; reflexivity | assumption].
  - destruct (IH y Hy) as [x [Hx Hxy]]. exists x. split; [right |]; assumption.
Qed.

Lemma steps_of_advance_keep (l : NodeLabel) (actions : list ActionType)
  (cs cs' : list Node) (d : RegionIndex) :
  Forall2 advances cs cs' -> l <> UNLABELED ->
  In d (steps_of l actions cs) -> In d (steps_of l actions cs').
Proof.
  intros Hadv Hl Hd. apply steps_of_In in Hd.
  destruct Hd as [c [a [Hc [Hlc [Hin Ha]]]]].
  destruct (Forall2_In_left _ _ _ _ _ Hadv c Hc) as [c' [Hc' [Hia Hlab]]].
  apply steps_of_In. exists c', a. repeat split; try assumption.
  - destruct Hlab as [Hlab | Hlab]; congruence.
  - rewrite Hia. assumption.
Qed.

Lemma steps_of_advance_from (l : NodeLabel) (actions : list ActionType)
  (cs cs' : list Node) (d : RegionIndex) :
  Forall2 advances cs cs' ->
  In d (steps_of l actions cs') ->
  In d (steps_of l actions cs) \/ In d (steps_of UNLABELED actions cs).
Proof.
  intros Hadv Hd. apply steps_of_In in Hd.
  destruct Hd as [c' [a [Hc' [Hlc' [Hin Ha]]]]].
  destruct (Forall2_In_right _ _ _ _ _ Hadv c' Hc') as [c [Hc [Hia Hlab]]].
  rewrite Hia in Hin.
  destruct Hlab as [Hlab | Hlab]; [left | right];
    apply steps_of_In; exists c, a; repeat split; try assumption; congruence.
Qed.

Lemma steps_of_advance_open (actions : list ActionType) (cs cs' : list Node)
  (d : RegionIndex) :
  Forall2 advances cs cs' ->
  In d (steps_of UNLABELED actions cs') -> In d (steps_of UNLABELED actions cs).
Proof.
  intros Hadv Hd. destruct (steps_of_advance_from _ _ _ _ _ Hadv Hd); assumption.
Qed.

(** A label that is determined stays determined, and the same. *)
Lemma label_decision_stable (ctl env : list ActionType) (cs cs' : list Node)
  (l : NodeLabel) (reason : LabelReason) :
  Forall2 advances cs cs' ->
  label_decision ctl env cs = Some (l, reason) ->
  exists reason', label_decision ctl env cs' = Some (l, reason').
Proof.
  intros Hadv. rewrite !label_decision_decide. apply decide_stable.
  - apply first_step_incl. intros d. apply steps_of_advance_keep; [assumption | discriminate].
  - apply first_step_incl. intros d. apply steps_of_advance_keep; [assumption | discriminate].
  - apply first_step_incl. intros d. apply steps_of_advance_open; assumption.
  - apply first_step_incl. intros d. apply steps_of_advance_open; assumption.
  - apply first_step_incl2. intros d. apply steps_of_advance_from; assumption.
  - apply first_step_incl2. intros d. apply steps_of_advance_from; assumption.
Qed.

Lemma steps_of_none (l : NodeLabel) (actions : list ActionType) (cs : list Node) :
  (forall c, In c cs -> label c <> l) -> steps_of l actions cs = [].
Proof.
  intros Hnone. destruct (steps_of l actions cs) as [| d ds] eqn:Hsteps; [reflexivity |].
  assert (Hd : In d (steps_of l actions cs)) by (rewrite Hsteps; left; reflexivity).
  apply steps_of_In in Hd. destruct Hd as [c [a [Hc [Hl _]]]].
  exfalso. exact (Hnone c Hc Hl).
Qed.

(** As long as no label is determined, a child is still without label. *)
Lemma label_decision_pending (ctl env : list ActionType) (cs : list Node) :
  label_decision ctl env cs = None -> exists c, In c cs /\ label c = UNLABELED.
Proof.
  intros Hnone. destruct (existsb (label_is UNLABELED) cs) eqn:Hex.
  - apply existsb_exists in Hex. destruct Hex as [c [Hc Hl]].
    exists c. split; [assumption | apply label_is_true, Hl].
  - exfalso. rewrite label_decision_decide in Hnone.
    assert (Hall : forall c, In c cs -> label c <> UNLABELED).
    { intros c Hc Hl.
      assert (Htrue : existsb (label_is UNLABELED) cs = true)
        by (apply existsb_exists; exists c; split; [assumption | apply label_is_true, Hl]).
      congruence. }
    rewrite !(steps_of_none UNLABELED _ cs Hall) in Hnone.
    exact (decide_total _ _ Hnone).
Qed.

Lemma steps_of_replace_nth (l : NodeLabel) (actions : list ActionType) (c c' : Node)
  (cs : list Node) :
  label c' = label c -> incoming_actions c' = incoming_actions c ->
  forall i, nth_error cs i = Some c ->
    steps_of l actions (replace_nth i c' cs) = steps_of l actions cs.
Proof.
  intros Hl Hia. induction cs as [| c0 cs IH]; intros [| i] Hi;
    cbn [replace_nth nth_error] in *; try discriminate.
  - injection Hi as ->. rewrite (steps_of_cons l actions c'), (steps_of_cons l actions c).
    rewrite !steps_of_single. unfold label_is. rewrite Hl, Hia. reflexivity.
  - rewrite (steps_of_cons l actions c0 (replace_nth i c' cs)),
      (steps_of_cons l actions c0 cs), (IH i Hi). reflexivity.
Qed.

Lemma label_decision_replace_nth (ctl env : list ActionType) (c c' : Node)
  (cs : list Node) (i : nat) :
  label c' = label c -> incoming_actions c' = incoming_actions c ->
  nth_error cs i = Some c ->
  label_decision ctl env (replace_nth i c' cs) = label_decision ctl env cs.
Proof.
  intros Hl Hia Hi. rewrite !label_decision_decide.
  rewrite !(steps_of_replace_nth _ _ c c' cs Hl Hia i Hi). reflexivity.
Qed.

Lemma advance_replace_nth (c c' : Node) (cs : list Node) :
  advances c c' ->
  forall i, nth_error cs i = Some c -> Forall2 advances cs (replace_nth i c' cs).
Proof.
  intros Hadv.
  assert (Hrefl : forall l, Forall2 advances l l).
  { induction l as [| a l IH]; constructor; [| assumption]. split; auto. }
  induction cs as [| c0 cs IH]; intros [| i] Hi; simpl in *; try discriminate.
  - injection Hi as ->. constructor; [assumption | apply Hrefl].
  - constructor; [split; auto | apply IH, Hi].
Qed.

(** ** The invariant of the search *)

Section Invariant.

Variable product : SynchronousProduct.
Variables ctl env : list ActionType.
Variable K : RegionIndex.
Variable incremental : bool.

Lemma tree_ok_pool (pool pool' : list NodePtr) :
  forall prefix above n,
    tree_ok product ctl env K incremental pool prefix above n ->
    (forall r, In (prefix ++ r) pool -> In (prefix ++ r) pool') ->
    tree_ok product ctl env K incremental pool' prefix above n.
Proof.
  induction 1 as [prefix above n [Hrange Hnode] _ IH]; intros Hpool.
  constructor.
  - split; [assumption |]. destruct (is_expanded n); [assumption |].
    destruct Hnode as (Hs & Hc & Hl & Hin). repeat split; try assumption.
    specialize (Hpool []). rewrite app_nil_r in Hpool. auto.
  - intros i c Hc. apply (IH i c Hc). intros r. rewrite <- !app_assoc. apply Hpool.
Qed.

Lemma kind_words (above : list (list CanonicalABWord)) (n m : Node) :
  words n = words m -> kind product K above n = kind product K above m.
Proof.
  intros Hw. unfold kind, TreeSearch.is_bad_node, has_satisfiable_ata_configuration,
    dominated, TreeSearch.create_children, TreeSearch.symbol_successors.
  rewrite Hw. reflexivity.
Qed.

(** A node with a child is an expanded inner node. *)
Lemma node_ok_parent (pool : list NodePtr) (prefix : NodePtr)
  (above : list (list CanonicalABWord)) (n c : Node) (i : nat) :
  node_ok product ctl env K incremental pool prefix above n ->
  nth_error (children n) i = Some c ->
  is_expanded n = true /\ state n = UNKNOWN.
Proof.
  intros [_ Hnode] Hc. destruct (is_expanded n).
  - split; [reflexivity |]. destruct Hnode as [Hkind _]. unfold kind in Hkind.
    assert (Hne : map static (children n) <> []).
    { destruct (children n); [destruct i; discriminate | discriminate]. }
    destruct (TreeSearch.is_bad_node product n); [congruence |].
    destruct (negb (has_satisfiable_ata_configuration n)); [congruence |].
    destruct (dominated product above n); [congruence |].
    destruct (TreeSearch.create_children product K n); simpl in Hkind; congruence.
  - destruct Hnode as (_ & Hnil & _). rewrite Hnil in Hc. destruct i; discriminate.
Qed.

Lemma exists_unlabeled_replace_nth (c c' : Node) (cs : list Node) (i : nat) :
  label c' = label c -> nth_error cs i = Some c ->
  (exists x, In x cs /\ label x = UNLABELED) ->
  exists y, In y (replace_nth i c' cs) /\ label y = UNLABELED.
Proof.
  intros Hl Hi [x [Hx Hlx]]. apply In_nth_error in Hx. destruct Hx as [j Hj].
  destruct (Nat.eq_dec i j) as [<- | Hij].
  - exists c'. split.
    + eapply nth_error_In, nth_error_replace_nth_eq, Hi.
    + congruence.
  - exists x. split; [| assumption].
    eapply nth_error_In. rewrite nth_error_replace_nth_neq; eassumption.
Qed.

End Invariant.

Section WalkInvariant.

Variable product : SynchronousProduct.
Variables ctl env : list ActionType.
Variable K : RegionIndex.
Variable incremental : bool.

Variables pool pool' : list NodePtr.
(** The node that is processed, and what it becomes. *)
Variable target : NodePtr.
Variable e : Node.
Variable propagating : bool.

Hypothesis propagating_incremental : propagating = true -> incremental = true.
Hypothesis propagating_labeled : propagating = negb (label_is UNLABELED e).
Hypothesis e_expanded : is_expanded e = true.
Hypothesis e_label : label_local ctl env incremental e.
Hypothesis e_children :
  forall i c, nth_error (children e) i = Some c ->
    c = new_node (words c) (incoming_actions c)
    /\ in_range c /\ In (target ++ [i]) pool'.
Hypothesis pool_kept : forall q, In q pool -> q <> target -> In q pool'.

Lemma walk_tree_ok :
  forall p prefix above root n,
    target = prefix ++ p ->
    tree_ok product ctl env K incremental pool prefix above root ->
    get_node root p = Some n ->
    is_expanded n = false ->
    static e = static n ->
    (state e, map static (children e)) = kind product K (ancestor_words above root p) e ->
    tree_ok product ctl env K incremental pool' prefix above
      (walk ctl env false propagating (fun _ => e) root p)
    /\ static (walk ctl env false propagating (fun _ => e) root p) = static root
    /\ (label (walk ctl env false propagating (fun _ => e) root p) = label root
        \/ (propagating = true /\ label root = UNLABELED)).
Proof.
  induction p as [| i p IH]; intros prefix above root n Htarget Hok Hn Hunexp Hstatic Hkind.
  - (* the node itself *)
    simpl in Hn. injection Hn as ->. simpl in *.
    inversion Hok as [prefix0 above0 n0 [Hrange Hnode] Hchildren]; subst prefix0 above0 n0.
    rewrite Hunexp in Hnode. destruct Hnode as (Hstate & Hnil & Hlabel & Hin).
    split; [| split].
    + constructor.
      * split.
        -- unfold in_range. injection Hstatic as _ ->. exact Hrange.
        -- rewrite e_expanded. split; assumption.
      * intros i c Hc. destruct (e_children i c Hc) as (Hc_new & Hc_range & Hc_pool).
        rewrite app_nil_r in Htarget. rewrite Htarget in Hc_pool.
        constructor.
        -- split; [assumption |]. rewrite Hc_new. simpl. auto.
        -- intros j cj Hcj. rewrite Hc_new in Hcj. simpl in Hcj.
           destruct j; discriminate.
    + assumption.
    + rewrite Hlabel. rewrite propagating_labeled.
      destruct (label_is UNLABELED e) eqn:He.
      * left. apply label_is_true, He.
      * right. auto.
  - (* an ancestor of the node *)
    simpl in Hn. destruct (nth_error (children root) i) as [c |] eqn:Hc; [| discriminate].
    inversion Hok as [prefix0 above0 n0 Hnode Hchildren]; subst prefix0 above0 n0.
    destruct (node_ok_parent _ _ _ _ _ _ _ _ _ _ _ Hnode Hc) as [Hexp Hstate].
    assert (Hkind' : (state e, map static (children e))
                     = kind product K (ancestor_words (words root :: above) c p) e).
    { simpl in Hkind. rewrite Hc in Hkind. exact Hkind. }
    assert (Htarget' : target = (prefix ++ [i]) ++ p)
      by (rewrite <- app_assoc; exact Htarget).
    destruct (IH (prefix ++ [i]) (words root :: above) c n Htarget'
                (Hchildren i c Hc) Hn Hunexp Hstatic Hkind')
      as (Hok_c' & Hstatic_c' & Hlabel_c').
    cbn [walk]. rewrite Hc.
    set (c' := walk ctl env false propagating (fun _ => e) c p) in *.
    set (root1 := set_children (replace_nth i c' (children root)) root).
    assert (Hia_c' : incoming_actions c' = incoming_actions c)
      by (injection Hstatic_c' as _ H; exact H).
    assert (Hwords_c' : words c' = words c)
      by (injection Hstatic_c' as H _; exact H).
    (* every outcome keeps the fields of the ancestor other than its label,
       and the children of [root1] *)
    assert (Hgoal :
              forall root',
                words root' = words root ->
                incoming_actions root' = incoming_actions root ->
                state root' = state root ->
                is_expanded root' = is_expanded root ->
                children root' = replace_nth i c' (children root) ->
                label_local ctl env incremental root' ->
                (label root' = label root \/ (propagating = true /\ label root = UNLABELED)) ->
                tree_ok product ctl env K incremental pool' prefix above root'
                /\ static root' = static root
                /\ (label root' = label root
                    \/ (propagating = true /\ label root = UNLABELED))).
    { intros root' Hw Hia Hst Hex Hch Hlab Hrel. split; [| split].
      - constructor.
        + destruct Hnode as [Hrange Hnode']. split.
          * unfold in_range. rewrite Hia. exact Hrange.
          * rewrite Hex, Hexp. rewrite Hexp in Hnode'. destruct Hnode' as [Hk _].
            split; [| exact Hlab].
            rewrite Hst, Hch, map_replace_nth, Hstatic_c'.
            rewrite (@replace_nth_same _ (map static (children root)) i (static c))
              by (rewrite nth_error_map, Hc; reflexivity).
            rewrite (kind_words product K above root' root Hw). exact Hk.
        + intros j cj Hcj. rewrite Hw. rewrite Hch in Hcj.
          destruct (Nat.eq_dec i j) as [<- | Hij].
          * rewrite (nth_error_replace_nth_eq _ _ _ Hc) in Hcj. injection Hcj as <-.
            exact Hok_c'.
          * rewrite nth_error_replace_nth_neq in Hcj by assumption.
            apply (tree_ok_pool product ctl env K incremental pool pool'
                     _ _ _ (Hchildren j cj Hcj)).
            intros r Hr. apply pool_kept; [assumption |].
            rewrite <- !app_assoc. intros Heq. rewrite Htarget in Heq.
            apply app_inv_head in Heq. simpl in Heq. congruence.
      - unfold static. rewrite Hw, Hia. reflexivity.
      - exact Hrel. }
    (* the ancestor when its children carry the labels they had *)
    assert (Hsame :
              label c' = label c ->
              label_local ctl env incremental root1).
    { intros Hl. destruct Hnode as [_ Hnode']. rewrite Hexp in Hnode'.
      destruct Hnode' as [_ Hlab]. unfold label_local in *.
      destruct incremental; [| exact Hlab].
      change (state root1) with (state root). rewrite Hstate in *.
      unfold pending_or_decided in *. cbn [children root1 set_children label].
      change (label root1) with (label root).
      rewrite (label_decision_replace_nth ctl env c c' _ i Hl Hia_c' Hc).
      destruct Hlab as [[Hu Hex] | Hdec]; [left | right; exact Hdec].
      split; [exact Hu |].
      apply (exists_unlabeled_replace_nth c c' _ i Hl Hc Hex). }
    destruct propagating eqn:Hprop.
    + (* the label is propagated *)
      pose proof (propagating_incremental eq_refl) as Hinc.
      destruct (NodeLabel_eq_dec (label c') UNLABELED) as [Hu | Hlabeled].
      * (* the walk ended below *)
        rewrite Hu.
        assert (Hl : label c' = label c)
          by (destruct Hlabel_c' as [H | [_ H]]; congruence).
        apply Hgoal; try reflexivity; [apply Hsame, Hl | left; reflexivity].
      * assert (Hadv : Forall2 advances (children root) (replace_nth i c' (children root))).
        { apply advance_replace_nth with (c := c); [| exact Hc].
          split; [exact Hia_c' |]. destruct Hlabel_c' as [H | [_ H]]; auto. }
        destruct Hnode as [_ Hnode']. rewrite Hexp in Hnode'.
        destruct Hnode' as [_ Hlab]. unfold label_local in Hlab.
        rewrite Hinc, Hstate in Hlab.
        assert (Hstep :
                  match label_decision ctl env (children root1) with
                  | Some (l, reason) => set_label l false (set_label_reason reason root1)
                  | None => root1
                  end
                  = match label c' with
                    | UNLABELED => root1
                    | _ =>
                        match label_decision ctl env (children root1) with
                        | Some (l, reason) =>
                            set_label l false (set_label_reason reason root1)
                        | None => root1
                        end
                    end)
          by (destruct (label c'); [contradiction | reflexivity ..]).
        rewrite <- Hstep. clear Hstep.
        destruct (label_decision ctl env (children root1)) as [[l reason] |] eqn:Hdec.
        -- apply Hgoal; try reflexivity.
           ++ unfold label_local. rewrite Hinc.
              change (state (set_label l false (set_label_reason reason root1)))
                with (state root).
              rewrite Hstate. right. exists reason. exact Hdec.
           ++ destruct Hlab as [[Hu _] | [reason0 Hdec0]]; [right; auto |].
              left. destruct (label_decision_stable ctl env _ _ _ _ Hadv Hdec0)
                as [reason' Hdec'].
              cbn [children root1 set_children] in Hdec. rewrite Hdec in Hdec'.
              injection Hdec' as -> _. reflexivity.
        -- apply Hgoal; try reflexivity; [| left; reflexivity].
           unfold label_local. rewrite Hinc. change (state root1) with (state root).
           rewrite Hstate.
           destruct Hlab as [[Hu _] | [reason0 Hdec0]].
           ++ left. split; [exact Hu |]. apply (label_decision_pending ctl env), Hdec.
           ++ destruct (label_decision_stable ctl env _ _ _ _ Hadv Hdec0)
                as [reason' Hdec'].
              cbn [children root1 set_children] in Hdec. congruence.
    + (* no label is propagated *)
      assert (Hl : label c' = label c)
        by (destruct Hlabel_c' as [H | [H _]]; [exact H | discriminate]).
      apply Hgoal; try reflexivity; [apply Hsame, Hl | left; reflexivity].
Qed.

End WalkInvariant.

(** ** The children that [expand_node] creates *)

Lemma map_insert_in_range (key : CanonicalABWord) (x : RegionIndex * ActionType)
  (m : list (CanonicalABWord * list (RegionIndex * ActionType))) :
  (fst x <= RegionIndex_max)%N -> actions_in_range m ->
  actions_in_range (TreeSearch.map_insert Action_eq_dec key x m).
Proof.
  intros Hx. induction m as [| [k xs] m IH]; intros Hm key' xs' Hin sa Hsa; simpl in Hin.
  - destruct Hin as [Heq | []]. injection Heq as <- <-.
    destruct Hsa as [<- | []]. exact Hx.
  - destruct (CanonicalABWord_eq_dec k key).
    + destruct Hin as [Heq | Hin].
      * injection Heq as <- <-. apply translator_facts.set_insert_In in Hsa.
        destruct Hsa as [-> | Hsa]; [exact Hx |].
        apply (Hm k xs (or_introl eq_refl) sa Hsa).
      * apply (Hm key' xs' (or_intror Hin) sa Hsa).
    + destruct Hin as [Heq | Hin].
      * injection Heq as <- <-. apply (Hm k xs (or_introl eq_refl) sa Hsa).
      * apply (IH (fun k0 x0 H0 => Hm k0 x0 (or_intror H0)) key' xs' Hin sa Hsa).
Qed.

Lemma map_at_in_range (key : CanonicalABWord)
  (m : list (CanonicalABWord * list (RegionIndex * ActionType))) :
  actions_in_range m ->
  forall sa, In sa (TreeSearch.map_at key m) -> (fst sa <= RegionIndex_max)%N.
Proof.
  induction m as [| [k xs] m IH]; intros Hm sa Hsa; simpl in Hsa; [contradiction |].
  destruct (CanonicalABWord_eq_dec k key).
  - apply (Hm k xs (or_introl eq_refl) sa Hsa).
  - apply (IH (fun k0 x0 H0 => Hm k0 x0 (or_intror H0)) sa Hsa).
Qed.

Lemma symbol_successors_in_range (product : SynchronousProduct) (K : RegionIndex)
  (n : Node) (symbol : ActionType) :
  increments_in_range product K ->
  forall succ, In succ (TreeSearch.symbol_successors product K n symbol) ->
    (fst succ <= RegionIndex_max)%N.
Proof.
  intros Hrange succ Hsucc. unfold TreeSearch.symbol_successors in Hsucc.
  apply translator_facts.set_insert_all_In in Hsucc. destruct Hsucc as [Hsucc | []].
  apply in_flat_map in Hsucc. destruct Hsucc as [word [_ Hsucc]].
  apply in_flat_map in Hsucc. destruct Hsucc as [[d ts] [Hts Hsucc]].
  apply in_map_iff in Hsucc. destruct Hsucc as [w [<- _]]. simpl.
  apply (Hrange word d ts Hts).
Qed.

Lemma partition_successors_in_range (product : SynchronousProduct) (symbol : ActionType)
  (successors : list (RegionIndex * CanonicalABWord)) :
  (forall succ, In succ successors -> (fst succ <= RegionIndex_max)%N) ->
  forall maps,
    actions_in_range (snd maps) ->
    actions_in_range (snd (TreeSearch.partition_successors product symbol successors maps)).
Proof.
  unfold TreeSearch.partition_successors.
  induction successors as [| succ successors IH]; intros Hsucc maps Hmaps; simpl.
  - exact Hmaps.
  - apply IH; [intros; apply Hsucc; right; assumption |]. simpl.
    apply map_insert_in_range; [| exact Hmaps]. simpl. apply Hsucc. left. reflexivity.
Qed.

Lemma create_children_in_range (product : SynchronousProduct) (K : RegionIndex) (n : Node) :
  increments_in_range product K ->
  forall c, In c (TreeSearch.create_children product K n) -> in_range c.
Proof.
  intros Hrange c Hc. unfold TreeSearch.create_children in Hc.
  apply in_map_iff in Hc. destruct Hc as [entry [<- _]].
  unfold in_range. simpl. apply map_at_in_range.
  generalize (get_alphabet product).
  assert (Hstart : actions_in_range
                     (snd (([], []) : TreeSearch.child_maps)))
    by (intros key xs []).
  revert Hstart. generalize (([], []) : TreeSearch.child_maps).
  intros maps Hmaps alphabet. revert maps Hmaps.
  induction alphabet as [| symbol alphabet IH]; intros maps Hmaps; simpl.
  - exact Hmaps.
  - apply IH. apply partition_successors_in_range; [| exact Hmaps].
    apply symbol_successors_in_range, Hrange.
Qed.

Lemma create_children_new (product : SynchronousProduct) (K : RegionIndex) (n c : Node) :
  In c (TreeSearch.create_children product K n) ->
  c = new_node (words c) (incoming_actions c).
Proof.
  intros Hc. unfold TreeSearch.create_children in Hc.
  apply in_map_iff in Hc. destruct Hc as [entry [<- _]]. reflexivity.
Qed.

(** ** [expand_node] keeps the invariant *)

Section Preservation.

Variable product : SynchronousProduct.
Variables ctl env : list ActionType.
Variable K : RegionIndex.
Variable incremental : bool.

Lemma tree_ok_get_node (pool : list NodePtr) :
  forall p prefix above root n,
    tree_ok product ctl env K incremental pool prefix above root ->
    get_node root p = Some n ->
    tree_ok product ctl env K incremental pool (prefix ++ p)
      (ancestor_words above root p) n.
Proof.
  induction p as [| i p IH]; intros prefix above root n Hok Hn; simpl in *.
  - injection Hn as <-. rewrite app_nil_r. exact Hok.
  - destruct (nth_error (children root) i) as [c |] eqn:Hc; [| discriminate].
    inversion Hok as [prefix0 above0 n0 _ Hchildren]; subst prefix0 above0 n0.
    replace (prefix ++ i :: p) with ((prefix ++ [i]) ++ p)
      by (rewrite <- app_assoc; reflexivity).
    apply IH; [apply Hchildren, Hc | exact Hn].
Qed.

Lemma tree_ok_node_ok (pool : list NodePtr) (prefix : NodePtr)
  (above : list (list CanonicalABWord)) (n : Node) :
  tree_ok product ctl env K incremental pool prefix above n ->
  node_ok product ctl env K incremental pool prefix above n.
Proof. intros Hok. inversion Hok. assumption. Qed.

(** The invariant depends on the queue through the unexpanded nodes only. *)
Lemma tree_ok_requeue (pool pool' : list NodePtr) :
  forall prefix above n,
    tree_ok product ctl env K incremental pool prefix above n ->
    (forall r m, get_node n r = Some m -> is_expanded m = false ->
                 In (prefix ++ r) pool') ->
    tree_ok product ctl env K incremental pool' prefix above n.
Proof.
  induction 1 as [prefix above n [Hrange Hnode] _ IH]; intros Hpool.
  constructor.
  - split; [assumption |]. destruct (is_expanded n) eqn:Hexp; [assumption |].
    destruct Hnode as (Hs & Hc & Hl & Hin). repeat split; try assumption.
    specialize (Hpool [] n eq_refl Hexp). rewrite app_nil_r in Hpool. exact Hpool.
  - intros i c Hc. apply (IH i c Hc). intros r m Hm Hexp.
    rewrite <- app_assoc. apply (Hpool (i :: r) m); [| exact Hexp].
    simpl. rewrite Hc. exact Hm.
Qed.

Lemma tree_ok_unexpanded_queued (pool : list NodePtr) (prefix : NodePtr)
  (above : list (list CanonicalABWord)) (root : Node) (r : NodePtr) (m : Node) :
  tree_ok product ctl env K incremental pool prefix above root ->
  get_node root r = Some m -> is_expanded m = false ->
  In (prefix ++ r) pool /\ label m = UNLABELED /\ children m = [] /\ state m = UNKNOWN.
Proof.
  intros Hok Hm Hexp.
  pose proof (tree_ok_node_ok _ _ _ _ (tree_ok_get_node pool r prefix above root m Hok Hm))
    as [_ Hnode].
  rewrite Hexp in Hnode. tauto.
Qed.

End Preservation.

Lemma same_configuration_refl (s : TreeSearch.t) : same_configuration s s.
Proof. repeat split. Qed.

Lemma same_configuration_trans (s1 s2 s3 : TreeSearch.t) :
  same_configuration s1 s2 -> same_configuration s2 s3 -> same_configuration s1 s3.
Proof. unfold same_configuration. intuition congruence. Qed.

Lemma close_node_configuration (s : TreeSearch.t) (ptr : NodePtr) (reason : LabelReason)
  (st : NodeState) (l : NodeLabel) :
  same_configuration s (TreeSearch.close_node s ptr reason st l).
Proof.
  unfold TreeSearch.close_node. destruct (TreeSearch.incremental_labeling_ s);
    repeat split.
Qed.

Lemma add_nodes_to_queue_configuration (ptrs : list NodePtr) (s : TreeSearch.t) :
  same_configuration s (fold_left TreeSearch.add_node_to_queue ptrs s).
Proof.
  destruct (config_add_nodes_to_queue ptrs s) as (H1 & H2 & H3 & H4 & H5).
  repeat split; assumption.
Qed.

Lemma expand_node_configuration (product : SynchronousProduct) (s : TreeSearch.t)
  (ptr : NodePtr) :
  same_configuration s (TreeSearch.expand_node product s ptr).
Proof.
  unfold TreeSearch.expand_node.
  destruct (get_node (TreeSearch.tree_root_ s) ptr) as [n |];
    [| apply same_configuration_refl].
  destruct (is_expanded n || negb (label_is UNLABELED n));
    [apply same_configuration_refl |].
  destruct (TreeSearch.is_bad_node product n); [apply close_node_configuration |].
  destruct (negb (has_satisfiable_ata_configuration n)); [apply close_node_configuration |].
  destruct (TreeSearch.dominates_ancestor product s ptr); [apply close_node_configuration |].
  destruct (label_is CANCELED n); [repeat split |].
  destruct (TreeSearch.create_children product (TreeSearch.K_ s) n) as [| c cs].
  - simpl. destruct (TreeSearch.incremental_labeling_ s); repeat split.
  - eapply same_configuration_trans; [| apply add_nodes_to_queue_configuration].
    repeat split.
Qed.

(** The queue after [expand_node] has processed a node that had no
    children: the children of the node are appended, in their order. *)
Lemma expand_node_pool (product : SynchronousProduct) (s : TreeSearch.t) (ptr : NodePtr)
  (n : Node) :
  get_node (TreeSearch.tree_root_ s) ptr = Some n ->
  is_expanded n = false -> label n = UNLABELED -> children n = [] ->
  TreeSearch.pool_ (TreeSearch.expand_node product s ptr)
  = TreeSearch.pool_ s
    ++ map (fun i => ptr ++ [i])
         (seq 0 (List.length (children (expanded product s ptr n)))).
Proof.
  intros Hn He Hl Hnil. unfold TreeSearch.expand_node, expanded. rewrite Hn, He.
  assert (Hu : label_is UNLABELED n = true) by (apply label_is_true, Hl).
  assert (Hc : label_is CANCELED n = false) by (apply label_is_false; congruence).
  rewrite Hu, Hc. simpl.
  assert (Hclosed : forall reason st l,
             TreeSearch.pool_ (TreeSearch.close_node s ptr reason st l)
             = TreeSearch.pool_ s
               ++ map (fun i => ptr ++ [i])
                    (seq 0 (List.length (children (closed s reason st l n))))).
  { intros reason st l. rewrite close_node_pool, length_children_closed, Hnil.
    simpl. symmetry. apply app_nil_r. }
  destruct (TreeSearch.is_bad_node product n); [apply Hclosed |].
  destruct (has_satisfiable_ata_configuration n); simpl; [| apply Hclosed].
  destruct (TreeSearch.dominates_ancestor product s ptr); [apply Hclosed |].
  unfold opened.
  destruct (TreeSearch.create_children product (TreeSearch.K_ s) n) as [| c cs].
  - simpl. destruct (TreeSearch.incremental_labeling_ s); simpl.
    + rewrite children_set_label. simpl.
      destruct (TreeSearch.terminate_early_ s); simpl; symmetry; apply app_nil_r.
    + symmetry. apply app_nil_r.
  - rewrite pool_add_nodes_to_queue. reflexivity.
Qed.

(** What [expand_node] makes of a node that is as constructed. *)
Lemma expanded_facts (product : SynchronousProduct) (s : TreeSearch.t) (ptr : NodePtr)
  (n : Node) :
  TreeSearch.terminate_early_ s = false ->
  increments_in_range product (TreeSearch.K_ s) ->
  get_node (TreeSearch.tree_root_ s) ptr = Some n ->
  state n = UNKNOWN -> label n = UNLABELED -> children n = [] ->
  let e := expanded product s ptr n in
  is_expanded e = true
  /\ static e = static n
  /\ (label e <> UNLABELED -> TreeSearch.incremental_labeling_ s = true)
  /\ label_local (TreeSearch.controller_actions_ s) (TreeSearch.environment_actions_ s)
       (TreeSearch.incremental_labeling_ s) e
  /\ (state e, map static (children e))
     = kind product (TreeSearch.K_ s)
         (ancestor_words [] (TreeSearch.tree_root_ s) ptr) e
  /\ (forall c, In c (children e) ->
        c = new_node (words c) (incoming_actions c) /\ in_range c).
Proof.
  intros Hte Hrange Hn Hstate Hlabel Hnil e.
  assert (Hclosed :
            forall reason st l,
              let c := closed s reason st l n in
              is_expanded c = true /\ static c = static n /\ state c = st
              /\ children c = []
              /\ label c = (if TreeSearch.incremental_labeling_ s then l else UNLABELED)).
  { intros reason st l. unfold closed. rewrite Hte.
    destruct (TreeSearch.incremental_labeling_ s); simpl; rewrite ?Hnil, ?Hlabel;
      repeat split. }
  assert (Hkind_words :
            kind product (TreeSearch.K_ s)
              (ancestor_words [] (TreeSearch.tree_root_ s) ptr) e
            = kind product (TreeSearch.K_ s)
                (ancestor_words [] (TreeSearch.tree_root_ s) ptr) n).
  { apply kind_words. subst e. unfold expanded.
    destruct (TreeSearch.is_bad_node product n);
      [destruct (Hclosed BAD_NODE BAD BOTTOM) as (_ & H & _);
       injection H as H _; exact H |].
    destruct (negb (has_satisfiable_ata_configuration n));
      [destruct (Hclosed NO_ATA_SUCCESSOR GOOD TOP) as (_ & H & _);
       injection H as H _; exact H |].
    destruct (TreeSearch.dominates_ancestor product s ptr);
      [destruct (Hclosed MONOTONIC_DOMINATION GOOD TOP) as (_ & H & _);
       injection H as H _; exact H |].
    unfold opened. destruct (TreeSearch.create_children product (TreeSearch.K_ s) n);
      [| reflexivity].
    destruct (TreeSearch.incremental_labeling_ s); [rewrite words_set_label |];
      reflexivity. }
  rewrite Hkind_words. unfold kind.
  assert (Hdom : dominated product (ancestor_words [] (TreeSearch.tree_root_ s) ptr) n
                 = TreeSearch.dominates_ancestor product s ptr).
  { unfold TreeSearch.dominates_ancestor, dominated. rewrite Hn. reflexivity. }
  rewrite Hdom. subst e. unfold expanded.
  assert (Hleaf :
            forall reason st l,
              (l = TOP \/ l = BOTTOM) ->
              (st = GOOD /\ l = TOP \/ st = BAD /\ l = BOTTOM) ->
              let c := closed s reason st l n in
              is_expanded c = true
              /\ static c = static n
              /\ (label c <> UNLABELED -> TreeSearch.incremental_labeling_ s = true)
              /\ label_local (TreeSearch.controller_actions_ s)
                   (TreeSearch.environment_actions_ s)
                   (TreeSearch.incremental_labeling_ s) c
              /\ (state c, map static (children c)) = (st, [])
              /\ (forall c0, In c0 (children c) ->
                    c0 = new_node (words c0) (incoming_actions c0) /\ in_range c0)).
  { intros reason st l Hl Hst c.
    destruct (Hclosed reason st l) as (H1 & H2 & H3 & H4 & H5). fold c in H1, H2, H3, H4, H5.
    split; [exact H1 |]. split; [exact H2 |]. split.
    { rewrite H5. destruct (TreeSearch.incremental_labeling_ s); congruence. }
    split.
    { unfold label_local. rewrite H3, H5.
      destruct (TreeSearch.incremental_labeling_ s); [| reflexivity].
      destruct Hst as [[-> ->] | [-> ->]]; reflexivity. }
    split; [rewrite H3, H4; reflexivity |].
    rewrite H4. intros c0 []. }
  destruct (TreeSearch.is_bad_node product n); [apply Hleaf; auto |].
  destruct (negb (has_satisfiable_ata_configuration n)); [apply Hleaf; auto |].
  destruct (TreeSearch.dominates_ancestor product s ptr); [apply Hleaf; auto |].
  unfold opened.
  destruct (TreeSearch.create_children product (TreeSearch.K_ s) n) as [| c cs] eqn:Hcs.
  - cbv zeta. rewrite Hte. unfold label_local.
    destruct (TreeSearch.incremental_labeling_ s); simpl; rewrite ?Hlabel;
      repeat split; try congruence; try contradiction.
  - simpl. rewrite Hstate, Hlabel. split; [reflexivity |]. split; [reflexivity |].
    split; [congruence |]. split.
    + unfold label_local. simpl. rewrite Hstate.
      destruct (TreeSearch.incremental_labeling_ s); [| exact Hlabel].
      left. simpl. split; [exact Hlabel |]. exists c. split; [left; reflexivity |].
      rewrite (create_children_new product (TreeSearch.K_ s) n c)
        by (rewrite Hcs; left; reflexivity).
      reflexivity.
    + split; [reflexivity |]. intros c0 Hc0. change (In c0 (c :: cs)) in Hc0.
      rewrite <- Hcs in Hc0. split.
      * apply (create_children_new product (TreeSearch.K_ s) n c0 Hc0).
      * apply (create_children_in_range product (TreeSearch.K_ s) n Hrange c0 Hc0).
Qed.

Lemma In_remove_nth (A : Type) (l : list A) :
  forall (k : nat) (x q : A),
    nth_error l k = Some x -> In q l -> q <> x -> In q (TreeSearch.remove_nth k l).
Proof.
  induction l as [| a l IH]; intros [| k] x q Hk Hq Hneq; simpl in *;
    try contradiction; try discriminate.
  - injection Hk as ->. destruct Hq as [-> | Hq]; [contradiction | exact Hq].
  - destruct Hq as [-> | Hq]; [left; reflexivity | right; eapply IH; eassumption].
Qed.

(** [expand_node] keeps the invariant, when the node it is called on has
    been taken out of the queue. *)
Lemma expand_node_tree_ok (product : SynchronousProduct) (s : TreeSearch.t)
  (ptr : NodePtr) (pool0 : list NodePtr) :
  TreeSearch.terminate_early_ s = false ->
  increments_in_range product (TreeSearch.K_ s) ->
  tree_ok product (TreeSearch.controller_actions_ s) (TreeSearch.environment_actions_ s)
    (TreeSearch.K_ s) (TreeSearch.incremental_labeling_ s) pool0 [] []
    (TreeSearch.tree_root_ s) ->
  (forall q, In q pool0 -> q <> ptr -> In q (TreeSearch.pool_ s)) ->
  search_ok product (TreeSearch.expand_node product s ptr)
  /\ static (TreeSearch.tree_root_ (TreeSearch.expand_node product s ptr))
     = static (TreeSearch.tree_root_ s).
Proof.
  intros Hte Hrange Hok Hpool.
  destruct (expand_node_configuration product s ptr) as (Hctl & Henv & HK & Hinc & Hte').
  unfold search_ok. rewrite Hctl, Henv, HK, Hinc, Hte'.
  assert (Hgoal :
            tree_ok product (TreeSearch.controller_actions_ s)
              (TreeSearch.environment_actions_ s) (TreeSearch.K_ s)
              (TreeSearch.incremental_labeling_ s)
              (TreeSearch.pool_ (TreeSearch.expand_node product s ptr)) [] []
              (TreeSearch.tree_root_ (TreeSearch.expand_node product s ptr))
            /\ static (TreeSearch.tree_root_ (TreeSearch.expand_node product s ptr))
               = static (TreeSearch.tree_root_ s));
    [| destruct Hgoal as [Hgoal1 Hgoal2];
       split; [split; [exact Hte | split; [exact Hrange | exact Hgoal1]] | exact Hgoal2]].
  assert (Hunchanged :
            TreeSearch.expand_node product s ptr = s ->
            (forall m, get_node (TreeSearch.tree_root_ s) ptr = Some m ->
                       is_expanded m = true) ->
            tree_ok product (TreeSearch.controller_actions_ s)
              (TreeSearch.environment_actions_ s) (TreeSearch.K_ s)
              (TreeSearch.incremental_labeling_ s)
              (TreeSearch.pool_ (TreeSearch.expand_node product s ptr)) [] []
              (TreeSearch.tree_root_ (TreeSearch.expand_node product s ptr))
            /\ static (TreeSearch.tree_root_ (TreeSearch.expand_node product s ptr))
               = static (TreeSearch.tree_root_ s)).
  { intros -> Hexp. split; [| reflexivity].
    apply (tree_ok_requeue _ _ _ _ _ pool0 _ _ _ _ Hok).
    intros r m Hm Hunexp. simpl.
    destruct (tree_ok_unexpanded_queued _ _ _ _ _ _ _ _ _ _ _ Hok Hm Hunexp)
      as (Hin & _).
    apply Hpool; [exact Hin |]. intros ->. rewrite (Hexp m Hm) in Hunexp. discriminate. }
  destruct (get_node (TreeSearch.tree_root_ s) ptr) as [n |] eqn:Hn.
  - destruct (is_expanded n) eqn:Hexp.
    + apply Hunchanged.
      * unfold TreeSearch.expand_node. rewrite Hn, Hexp. reflexivity.
      * intros m Hm. injection Hm as <-. exact Hexp.
    + destruct (tree_ok_unexpanded_queued _ _ _ _ _ _ _ _ _ _ _ Hok Hn Hexp)
        as (_ & Hlabel & Hnil & Hstate).
      destruct (expanded_facts product s ptr n Hte Hrange Hn Hstate Hlabel Hnil)
        as (He_exp & He_static & He_inc & He_label & He_kind & He_children).
      rewrite (expand_node_walk product s ptr n Hn Hexp Hlabel), Hte.
      rewrite (expand_node_pool product s ptr n Hn Hexp Hlabel Hnil).
      cut (forall A B C : Prop, A /\ B /\ C -> A /\ B); [| tauto].
      intros Hcut. eapply Hcut.
      apply (walk_tree_ok product (TreeSearch.controller_actions_ s)
               (TreeSearch.environment_actions_ s) (TreeSearch.K_ s)
               (TreeSearch.incremental_labeling_ s) pool0 _ ptr
               (expanded product s ptr n)
               (negb (label_is UNLABELED (expanded product s ptr n))))
        with (n := n); try assumption; try reflexivity.
      * intros Hprop. apply He_inc. apply negb_true_iff, label_is_false in Hprop.
        exact Hprop.
      * intros i c Hc. destruct (He_children c (nth_error_In _ _ Hc)) as [Hnew Hr].
        split; [exact Hnew |]. split; [exact Hr |].
        apply in_or_app. right. apply (in_map (fun j => ptr ++ [j])). apply in_seq.
        split; [lia |]. simpl. apply nth_error_Some. congruence.
      * intros q Hq Hneq. apply in_or_app. left. apply Hpool; assumption.
  - apply Hunchanged.
    + unfold TreeSearch.expand_node. rewrite Hn. reflexivity.
    + intros m Hm. discriminate.
Qed.

Lemma step_search_ok (product : SynchronousProduct) (top : nat) (s : TreeSearch.t) :
  search_ok product s ->
  search_ok product (fst (TreeSearch.step product top s))
  /\ static (TreeSearch.tree_root_ (fst (TreeSearch.step product top s)))
     = static (TreeSearch.tree_root_ s).
Proof.
  intros Hok. unfold TreeSearch.step.
  destruct (nth_error (TreeSearch.pool_ s) (top mod List.length (TreeSearch.pool_ s)))
    as [job |] eqn:Hjob; [| split; [exact Hok | reflexivity]].
  destruct Hok as (Hte & Hrange & Htree). simpl.
  apply (expand_node_tree_ok product
           (TreeSearch.with_pool
              (TreeSearch.remove_nth (top mod List.length (TreeSearch.pool_ s))
                 (TreeSearch.pool_ s)) s)
           job (TreeSearch.pool_ s)); try assumption.
  intros q Hq Hneq. simpl. eapply In_remove_nth; eassumption.
Qed.

Lemma step_configuration (product : SynchronousProduct) (top : nat) (s : TreeSearch.t) :
  same_configuration s (fst (TreeSearch.step product top s)).
Proof.
  unfold TreeSearch.step.
  destruct (nth_error (TreeSearch.pool_ s) (top mod List.length (TreeSearch.pool_ s)));
    [| apply same_configuration_refl].
  simpl. eapply same_configuration_trans; [| apply expand_node_configuration].
  repeat split.
Qed.

Lemma build_tree_search_ok (product : SynchronousProduct) (tops : list nat) :
  forall s, search_ok product s ->
            search_ok product (TreeSearch.build_tree product tops s)
            /\ same_configuration s (TreeSearch.build_tree product tops s)
            /\ static (TreeSearch.tree_root_ (TreeSearch.build_tree product tops s))
               = static (TreeSearch.tree_root_ s).
Proof.
  induction tops as [| top tops IH]; intros s Hok; simpl.
  - split; [exact Hok | split; [apply same_configuration_refl | reflexivity]].
  - destruct (step_search_ok product top s Hok) as [Hstep Hstatic].
    pose proof (step_configuration product top s) as Hconf.
    destruct (TreeSearch.step product top s) as [s' more]. simpl in *.
    destruct more.
    + destruct (IH s' Hstep) as (Hok' & Hconf' & Hstatic').
      split; [exact Hok' |].
      split; [eapply same_configuration_trans; eassumption | congruence].
    + split; [exact Hstep | split; [exact Hconf | exact Hstatic]].
Qed.

(** The search as the constructor leaves it satisfies the invariant. *)
Lemma new_search_ok (product : SynchronousProduct) (ctl env : list ActionType)
  (K : RegionIndex) (incremental : bool) (s : TreeSearch.t) :
  increments_in_range product K ->
  TreeSearch.new product ctl env K incremental false = TreeSearch.Passed s ->
  search_ok product s
  /\ TreeSearch.controller_actions_ s = ctl /\ TreeSearch.environment_actions_ s = env
  /\ TreeSearch.K_ s = K /\ TreeSearch.incremental_labeling_ s = incremental
  /\ TreeSearch.tree_root_ s = new_node [initial_canonical_word product K] [].
Proof.
  intros Hrange Hnew. unfold TreeSearch.new in Hnew.
  destruct (negb (forallb _ ctl)); [discriminate |].
  destruct (negb (forallb _ env)); [discriminate |].
  injection Hnew as <-. simpl.
  split; [| split; [reflexivity | split; [reflexivity | split; [reflexivity | split;
    reflexivity]]]].
  unfold search_ok. simpl. split; [reflexivity |]. split; [exact Hrange |].
  constructor.
  - split; [intros sa [] |]. simpl.
    split; [reflexivity |]. split; [reflexivity |]. split; [reflexivity |].
    left. reflexivity.
  - intros i c Hc. simpl in Hc. destruct i; discriminate.
Qed.

(** ** When the queue is empty *)

Lemma steps_of_same_face (l : NodeLabel) (actions : list ActionType) (cs cs' : list Node) :
  Forall2 same_face cs cs' -> steps_of l actions cs = steps_of l actions cs'.
Proof.
  induction 1 as [| a b cs cs' [Hl Hia] _ IH]; [reflexivity |].
  rewrite (steps_of_cons l actions a), (steps_of_cons l actions b), IH.
  rewrite !steps_of_single. unfold label_is. rewrite Hl, Hia. reflexivity.
Qed.

Lemma batch_top_same_face (s : TreeSearch.t) (cs cs' : list Node) :
  Forall2 same_face cs cs' -> (batch_top s cs <-> batch_top s cs').
Proof.
  intros Hsame. unfold batch_top. rewrite !no_bad_environment_child_steps.
  rewrite (steps_of_same_face BOTTOM _ cs cs' Hsame),
    (steps_of_same_face TOP _ cs cs' Hsame).
  reflexivity.
Qed.

(** Once every child has its label, the decision of [label_propagate] is
    the rule of batch labeling. *)
Lemma label_decision_batch (s : TreeSearch.t) (cs : list Node) (l : NodeLabel)
  (reason : LabelReason) :
  (forall c, In c cs -> label c <> UNLABELED) ->
  label_decision (TreeSearch.controller_actions_ s) (TreeSearch.environment_actions_ s) cs
  = Some (l, reason) ->
  (l = TOP /\ batch_top s cs) \/ (l = BOTTOM /\ ~ batch_top s cs).
Proof.
  intros Hall. rewrite label_decision_decide.
  rewrite !(steps_of_none UNLABELED _ cs Hall).
  unfold batch_top. rewrite no_bad_environment_child_steps.
  change (first_step []) with (@None RegionIndex).
  destruct (first_step (steps_of BOTTOM (TreeSearch.environment_actions_ s) cs))
    as [b |] eqn:Hb.
  - assert (Hne : steps_of BOTTOM (TreeSearch.environment_actions_ s) cs <> []).
    { intros Hnil. rewrite Hnil in Hb. discriminate. }
    unfold decide. simpl.
    destruct (first_step (steps_of TOP (TreeSearch.controller_actions_ s) cs))
      as [g |] eqn:Hg; simpl.
    + destruct (N.ltb_spec g b) as [Hlt | Hge]; simpl.
      * intros Hd. injection Hd as <- _. left. split; [reflexivity |].
        right. exists g, b. auto.
      * destruct (N.leb_spec b g) as [Hle | Hgt]; simpl; [| lia].
        intros Hd. injection Hd as <- _. right. split; [reflexivity |].
        intros [Hnil | [g' [b' [Hg' [Hb' Hlt]]]]]; [contradiction |].
        injection Hg' as <-. injection Hb' as <-. lia.
    + intros Hd. injection Hd as <- _. right. split; [reflexivity |].
      intros [Hnil | [g' [b' [Hg' _]]]]; [contradiction | discriminate].
  - apply first_step_None in Hb. unfold decide. simpl.
    intros Hd. injection Hd as <- _. left. split; [reflexivity |]. left. exact Hb.
Qed.

Lemma Forall2_nth_error (A B : Type) (R : A -> B -> Prop) (l : list A) :
  forall (l' : list B),
    List.length l = List.length l' ->
    (forall i a b, nth_error l i = Some a -> nth_error l' i = Some b -> R a b) ->
    Forall2 R l l'.
Proof.
  induction l as [| a l IH]; intros [| b l'] Hlen Hnth; simpl in Hlen; try discriminate.
  - constructor.
  - constructor.
    + apply (Hnth 0%nat a b); reflexivity.
    + apply IH; [congruence |]. intros i a' b' Ha Hb. apply (Hnth (S i) a' b'); assumption.
Qed.

Lemma kind_leaf (product : SynchronousProduct) (K : RegionIndex)
  (above : list (list CanonicalABWord)) (n : Node) (st : NodeState)
  (cs : list (list CanonicalABWord * list (RegionIndex * ActionType))) :
  (st, cs) = kind product K above n -> st <> UNKNOWN -> cs = [].
Proof.
  unfold kind. intros Hkind Hst.
  destruct (TreeSearch.is_bad_node product n); [congruence |].
  destruct (negb (has_satisfiable_ata_configuration n)); [congruence |].
  destruct (dominated product above n); [congruence |].
  destruct (TreeSearch.create_children product K n); simpl in Hkind; congruence.
Qed.

Lemma children_label (s : TreeSearch.t) (n : Node) :
  TreeSearch.terminate_early_ s = false ->
  (state n <> UNKNOWN -> children n = []) ->
  children (TreeSearch.label s n) = map (TreeSearch.label s) (children n).
Proof.
  intros Hte Hleaf. rewrite label_unfold, Hte.
  destruct (state n) eqn:Hstate;
    try (rewrite children_set_label, Hleaf by discriminate; reflexivity).
  cbv zeta. destruct (TreeSearch.label_scan s _) as [[found_bad g] b].
  destruct (negb found_bad || (g <? b)%N); rewrite children_set_label; reflexivity.
Qed.

(** The label that batch labeling gives to an inner node. *)
Lemma label_label_inner (s : TreeSearch.t) (n : Node) :
  state n = UNKNOWN -> steps_in_range (children n) ->
  (label (TreeSearch.label s n) = TOP
   /\ batch_top s (map (TreeSearch.label s) (children n)))
  \/ (label (TreeSearch.label s n) = BOTTOM
      /\ ~ batch_top s (map (TreeSearch.label s) (children n))).
Proof.
  intros Hstate Hrange. rewrite label_unfold, Hstate. cbv zeta.
  pose proof (label_scan_batch_top s _ (steps_in_range_map_label s _ Hrange)) as Hrule.
  cbn [children set_children].
  destruct (TreeSearch.label_scan s (map (TreeSearch.label s) (children n)))
    as [[found_bad g] b].
  destruct (negb found_bad || (g <? b)%N); rewrite label_set_label.
  - left. split; [reflexivity | apply Hrule; reflexivity].
  - right. split; [reflexivity |]. intros Htop. apply Hrule in Htop. discriminate.
Qed.

Section Agreement.

Variable product : SynchronousProduct.
Variable K : RegionIndex.
(** The search that is labeled in one batch. *)
Variable sb : TreeSearch.t.
Hypothesis sb_terminate_early : TreeSearch.terminate_early_ sb = false.

Let ctl := TreeSearch.controller_actions_ sb.
Let env := TreeSearch.environment_actions_ sb.

(** A tree that was built without labels and is then labeled in one batch,
    and the tree that was built with incremental labeling from the same
    node, carry the same labels. *)
Lemma complete_trees_agree (nb : Node) :
  forall prefix above ni,
    tree_ok product ctl env K false [] prefix above nb ->
    tree_ok product ctl env K true [] prefix above ni ->
    static nb = static ni ->
    forall p,
      option_map label (get_node (TreeSearch.label sb nb) p)
      = option_map label (get_node ni p)
      /\ (forall m, get_node (TreeSearch.label sb nb) p = Some m ->
                    label m = TOP \/ label m = BOTTOM).
Proof.
  induction nb as [nb IH] using Node_children_ind.
  intros prefix above ni Hb Hi Hstatic.
  inversion Hb as [prefix0 above0 n0 [Hrange_b Hnode_b] Hchildren_b];
    subst prefix0 above0 n0.
  inversion Hi as [prefix0 above0 n0 [Hrange_i Hnode_i] Hchildren_i];
    subst prefix0 above0 n0.
  destruct (is_expanded nb); [| destruct Hnode_b as (_ & _ & _ & []) ].
  destruct (is_expanded ni); [| destruct Hnode_i as (_ & _ & _ & []) ].
  destruct Hnode_b as [Hkind_b _]. destruct Hnode_i as [Hkind_i Hlabel_i].
  assert (Hwords : words nb = words ni) by (injection Hstatic as H _; exact H).
  rewrite (kind_words product K above nb ni Hwords), <- Hkind_i in Hkind_b.
  injection Hkind_b as Hstate Hstatics.
  assert (Hlen : List.length (children nb) = List.length (children ni)).
  { rewrite <- (length_map static (children nb)), Hstatics. apply length_map. }
  assert (Hleaf : state nb <> UNKNOWN -> children nb = []).
  { intros Hnot. rewrite Hstate in Hnot.
    pose proof (kind_leaf product K above ni _ _ Hkind_i Hnot) as Hnil.
    rewrite <- Hstatics in Hnil. destruct (children nb); [reflexivity | discriminate]. }
  assert (Hchild :
            forall i cb ci,
              nth_error (children nb) i = Some cb ->
              nth_error (children ni) i = Some ci ->
              static cb = static ci
              /\ forall p,
                   option_map label (get_node (TreeSearch.label sb cb) p)
                   = option_map label (get_node ci p)
                   /\ (forall m, get_node (TreeSearch.label sb cb) p = Some m ->
                                 label m = TOP \/ label m = BOTTOM)).
  { intros i cb ci Hcb Hci.
    assert (Hs : static cb = static ci).
    { assert (H : nth_error (map static (children nb)) i
                  = nth_error (map static (children ni)) i) by (rewrite Hstatics; reflexivity).
      rewrite !nth_error_map, Hcb, Hci in H. simpl in H. congruence. }
    split; [exact Hs |].
    rewrite Forall_forall in IH.
    apply (IH cb (nth_error_In _ _ Hcb) (prefix ++ [i]) (words nb :: above) ci).
    - apply Hchildren_b, Hcb.
    - rewrite Hwords. apply Hchildren_i, Hci.
    - exact Hs. }
  intros [| i p].
  - (* the node itself *)
    simpl. split; [| intros m Hm; injection Hm as <-; apply label_label].
    f_equal. unfold label_local in Hlabel_i.
    destruct (state nb) eqn:Hstate_b; rewrite <- Hstate in Hlabel_i.
    + (* an inner node *)
      assert (Hrange : steps_in_range (children nb)).
      { intros c Hc. apply In_nth_error in Hc. destruct Hc as [i Hc].
        pose proof (Hchildren_b i c Hc) as Hok.
        inversion Hok as [prefix0 above0 n0 [Hr _] _]. exact Hr. }
      assert (Hfaces : Forall2 same_face (map (TreeSearch.label sb) (children nb))
                         (children ni)).
      { apply Forall2_nth_error; [rewrite length_map; exact Hlen |].
        intros i a b Ha Hb0. rewrite nth_error_map in Ha.
        destruct (nth_error (children nb) i) as [cb |] eqn:Hcb; [| discriminate].
        injection Ha as <-. destruct (Hchild i cb b Hcb Hb0) as [Hs Hp].
        split.
        - destruct (Hp []) as [Hp0 _]. simpl in Hp0. congruence.
        - rewrite incoming_actions_label. injection Hs as _ H. exact H. }
      assert (Hlabeled : forall c, In c (children ni) -> label c <> UNLABELED).
      { intros c Hc. destruct (Forall2_In_right _ _ _ _ _ Hfaces c Hc)
          as [c0 [Hc0 [Hl _]]].
        apply in_map_iff in Hc0. destruct Hc0 as [cb [<- _]].
        rewrite <- Hl. destruct (label_label sb cb) as [-> | ->]; discriminate. }
      destruct Hlabel_i as [[_ [c [Hc Hu]]] | [reason Hdec]];
        [exfalso; exact (Hlabeled c Hc Hu) |].
      destruct (label_decision_batch sb (children ni) _ _ Hlabeled Hdec)
        as [[Hl Htop] | [Hl Hnot]];
        destruct (label_label_inner sb nb Hstate_b Hrange) as [[Hl' Htop'] | [Hl' Hnot']];
        try congruence.
      * exfalso. apply Hnot'. apply (batch_top_same_face sb _ _ Hfaces), Htop.
      * exfalso. apply Hnot. apply (batch_top_same_face sb _ _ Hfaces), Htop'.
    + rewrite label_unfold, Hstate_b, label_set_label. congruence.
    + rewrite label_unfold, Hstate_b, label_set_label. congruence.
    + rewrite label_unfold, Hstate_b, label_set_label. congruence.
  - (* a node below *)
    simpl. rewrite (children_label sb nb sb_terminate_early Hleaf), nth_error_map.
    destruct (nth_error (children nb) i) as [cb |] eqn:Hcb;
      destruct (nth_error (children ni) i) as [ci |] eqn:Hci; simpl.
    + apply (Hchild i cb ci Hcb Hci).
    + apply nth_error_None in Hci. assert (nth_error (children nb) i <> None) by congruence.
      apply nth_error_Some in H. lia.
    + apply nth_error_None in Hcb. assert (nth_error (children ni) i <> None) by congruence.
      apply nth_error_Some in H. lia.
    + split; [reflexivity | discriminate].
Qed.

End Agreement.

(** ** Batch labeling and incremental labeling agree *)


Lemma fixture_increments_in_range : increments_in_range fixtures.plant 0%N.
Proof.
  intros word d ts [H | [H | []]]; injection H as <- _; discriminate.
Qed.


End labeling_facts.

(* ================================================================== *)
(** * Properties of the launcher *)
(* ================================================================== *)

Module app_facts.
Import app.

(** C8.  The process exits with status 0 when the launcher is constructed
    and runs without an exception, and with status 1, after logging the
    message of the exception, when an exception escapes the launcher;
    this holds for every command line. *)
Theorem main_exit_status (launcher_run : list string -> result unit) (argv : list string) :
  (exit_status (main launcher_run argv) = 0%Z <-> exists u, launcher_run argv = Ok u)
  /\ (exit_status (main launcher_run argv) = 1%Z <-> exists e, launcher_run argv = Throw e)
  /\ (forall e, launcher_run argv = Throw e ->
        critical_log (main launcher_run argv) = [("Exception: " ++ what e)%string]).
Proof.
  unfold main. destruct (launcher_run argv) as [u | e]; simpl.
  - split; [| split].
    + split; eauto.
    + split; [discriminate | intros [e He]; discriminate].
    + discriminate.
  - split; [| split].
    + split; [discriminate | intros [u Hu]; discriminate].
    + split; eauto.
    + intros e' He'. injection He' as <-. reflexivity.
Qed.

End app_facts.

(* ================================================================== *)
(** * Properties of the controller extraction *)
(* ================================================================== *)

Module controller_facts.
Import logic automata search controller_synthesis controller_synthesis.details.
Import controller_properties.

Unset Implicit Arguments.

Lemma add_node_to_controller_unfold (ops : RegionOperations) (node : Node)
  (K : RegionIndex) (controller : TimedAutomaton) :
  add_node_to_controller ops node K controller
  = if negb (label_is TOP node) then Throw (invalid_argument not_top_message)
    else add_successors ops (words node) K (children node) controller.
Proof.
  destruct node as [w ia st l r e cs]. simpl.
  destruct (negb (label_is TOP (mkNode w ia st l r e cs))); [reflexivity |].
  revert controller. induction cs as [| c cs IH]; intros controller; [reflexivity |].
  simpl. destruct (negb (label_is TOP c)); [apply IH |].
  destruct (fold_result _ _ _) as [c2 |]; [| reflexivity]. simpl.
  destruct (add_node_to_controller ops c K c2) as [c3 |]; [| reflexivity]. simpl.
  apply IH.
Qed.

Section Walk.

Variable ops : RegionOperations.
Variable K : RegionIndex.

(** Every word that the constraints are read off is a word of states of
    the plant. *)
Hypothesis time_successors_of_reg_a :
  forall word increment,
    ta_states_only (get_nth_time_successor ops (reg_a ops word) increment K).

Lemma get_constraints_from_time_successor_returns (word : CanonicalABWord) :
  ta_states_only word ->
  exists constraints, get_constraints_from_time_successor ops word = Ok constraints.
Proof.
  intros Hta. unfold get_constraints_from_time_successor.
  destruct (@translator_facts.for_each_total _ _
              (fun symbol =>
                 per_state <-
                   for_each
                     (fun region_state =>
                        match region_state with
                        | TASymbol st =>
                            Ok (map (fun constraint => (clock st, constraint))
                                  (get_clock_constraints_from_region_index ops
                                     (region_index st)))
                        | ATASymbol _ => Throw bad_variant_access
                        end)
                     symbol ;;
                 Ok (List.concat per_state))
              word) as [per_symbol ->].
  - intros symbol Hsymbol.
    destruct (@translator_facts.for_each_total _ _
                (fun region_state =>
                   match region_state with
                   | TASymbol st =>
                       Ok (map (fun constraint => (clock st, constraint))
                             (get_clock_constraints_from_region_index ops
                                (region_index st)))
                   | ATASymbol _ => Throw bad_variant_access
                   end)
                symbol) as [per_state ->].
    + intros region_state Hstate.
      destruct (Hta symbol Hsymbol region_state Hstate) as [st ->]. eauto.
    + simpl. eauto.
  - simpl. eauto.
Qed.

Lemma add_clocks (constraints : list (string * ClockConstraint)) :
  forall controller,
    let controller' :=
      fold_left (fun c cc => add_clock (fst cc) c) constraints controller in
    locations_ controller' = locations_ controller
    /\ final_locations_ controller' = final_locations_ controller
    /\ (forall x, In x (clocks_ controller) -> In x (clocks_ controller'))
    /\ (forall cc, In cc constraints -> In (fst cc) (clocks_ controller')).
Proof.
  induction constraints as [| cc constraints IH]; intros controller; simpl.
  - repeat split; auto. intros cc [].
  - destruct (IH (add_clock (fst cc) controller)) as [Hl [Hf [Hold Hnew]]].
    simpl in *. repeat split; try assumption.
    + intros x Hx. apply Hold. apply translator_facts.set_insert_In. auto.
    + intros cc' [<- | Hcc']; [| apply Hnew, Hcc'].
      apply Hold. apply translator_facts.set_insert_In. auto.
Qed.

(** One transition is added without a throw, and the locations stay. *)
Lemma add_incoming_action_returns (node_words successor_words : Location)
  (controller : TimedAutomaton) (ia : RegionIndex * ActionType) :
  In node_words (locations_ controller) ->
  In successor_words (locations_ controller) ->
  exists controller',
    add_incoming_action ops node_words successor_words K controller ia = Ok controller'
    /\ locations_ controller' = locations_ controller
    /\ final_locations_ controller' = final_locations_ controller.
Proof.
  intros Hsource Htarget. unfold add_incoming_action.
  destruct (get_constraints_from_time_successor_returns
              (get_nth_time_successor ops (reg_a ops (hd [] node_words)) (fst ia) K)
              (time_successors_of_reg_a _ _)) as [constraints ->].
  simpl.
  destruct (add_clocks constraints (add_action (snd ia) controller))
    as [Hl [Hf [_ Hclocks]]].
  simpl in Hl, Hf.
  set (controller2 :=
         fold_left (fun c cc => add_clock (fst cc) c) constraints
           (add_action (snd ia) controller)) in *.
  unfold add_transition. simpl.
  assert (Hs : mem_location node_words (locations_ controller2) = true).
  { unfold mem_location. rewrite Hl.
    destruct (in_dec Location_eq_dec node_words (locations_ controller));
      [reflexivity | contradiction]. }
  assert (Ht : mem_location successor_words (locations_ controller2) = true).
  { unfold mem_location. rewrite Hl.
    destruct (in_dec Location_eq_dec successor_words (locations_ controller));
      [reflexivity | contradiction]. }
  assert (Hc : forallb (fun cc => mem_clock (fst cc) (clocks_ controller2)) constraints
               = true).
  { apply forallb_forall. intros cc Hcc. unfold mem_clock.
    destruct (in_dec string_dec (fst cc) (clocks_ controller2)); [reflexivity |].
    exfalso. auto. }
  rewrite Hs, Ht, Hc. simpl. eexists. split; [reflexivity |]. simpl. auto.
Qed.

Lemma add_incoming_actions_return (node_words successor_words : Location)
  (actions : list (RegionIndex * ActionType)) :
  forall controller,
    In node_words (locations_ controller) ->
    In successor_words (locations_ controller) ->
    exists controller',
      fold_result (add_incoming_action ops node_words successor_words K) actions controller
      = Ok controller'
      /\ locations_ controller' = locations_ controller
      /\ final_locations_ controller' = final_locations_ controller.
Proof.
  induction actions as [| ia actions IH]; intros controller Hsource Htarget; simpl.
  - eauto.
  - destruct (add_incoming_action_returns node_words successor_words controller ia
                Hsource Htarget) as [c1 [-> [Hl Hf]]].
    simpl. destruct (IH c1) as [c2 [-> [Hl2 Hf2]]]; try (rewrite Hl; assumption).
    exists c2. repeat split; congruence.
Qed.

(** The walk below a node labeled [TOP] does not throw; it keeps the
    locations it finds and makes final exactly the words of the nodes it
    adds. *)
Lemma add_node_to_controller_returns (node : Node) :
  forall controller,
    label node = TOP ->
    In (words node) (locations_ controller) ->
    exists controller',
      add_node_to_controller ops node K controller = Ok controller'
      /\ (forall l, In l (locations_ controller) -> In l (locations_ controller'))
      /\ (forall l, In l (final_locations_ controller')
                    <-> In l (final_locations_ controller)
                        \/ exists n, added_below node n /\ words n = l).
Proof.
  induction node as [node IHchildren] using search_facts.Node_children_ind.
  intros controller Hlabel Hin.
  rewrite add_node_to_controller_unfold.
  apply search_facts.label_is_true in Hlabel. rewrite Hlabel. simpl.
  assert (Hloop :
            forall cs, Forall
                         (fun c =>
                            forall controller,
                              label c = TOP ->
                              In (words c) (locations_ controller) ->
                              exists controller',
                                add_node_to_controller ops c K controller = Ok controller'
                                /\ (forall l, In l (locations_ controller)
                                              -> In l (locations_ controller'))
                                /\ (forall l,
                                      In l (final_locations_ controller')
                                      <-> In l (final_locations_ controller)
                                          \/ exists n, added_below c n /\ words n = l))
                         cs ->
            forall controller,
              In (words node) (locations_ controller) ->
              exists controller',
                add_successors ops (words node) K cs controller = Ok controller'
                /\ (forall l, In l (locations_ controller) -> In l (locations_ controller'))
                /\ (forall l,
                      In l (final_locations_ controller')
                      <-> In l (final_locations_ controller)
                          \/ exists c, In c cs /\ label c = TOP
                               /\ (words c = l
                                   \/ exists n, added_below c n /\ words n = l))).
  { clear controller Hin IHchildren. intros cs Hcs.
    induction Hcs as [| c cs Hc Hcs IH]; intros controller Hin.
    - simpl. exists controller. repeat split; auto.
      intros [H | [c [[] _]]]. assumption.
    - simpl. destruct (label_is TOP c) eqn:Hlc; simpl.
      + apply search_facts.label_is_true in Hlc.
        set (controller1 :=
               add_final_location (words c) (add_location (words c) controller)).
        assert (Hsource1 : In (words node) (locations_ controller1))
          by (simpl; apply translator_facts.set_insert_In; auto).
        assert (Htarget1 : In (words c) (locations_ controller1))
          by (simpl; apply translator_facts.set_insert_In; auto).
        destruct (add_incoming_actions_return (words node) (words c)
                    (incoming_actions c) controller1 Hsource1 Htarget1)
          as [c2 [-> [Hl2 Hf2]]].
        simpl.
        destruct (Hc c2 Hlc) as [c3 [-> [Hl3 Hf3]]]; [rewrite Hl2; assumption |].
        simpl.
        destruct (IH c3) as [c4 [-> [Hl4 Hf4]]];
          [apply Hl3; rewrite Hl2; assumption |].
        exists c4. split; [reflexivity |]. split.
        * intros l Hl. apply Hl4, Hl3. rewrite Hl2. simpl.
          apply translator_facts.set_insert_In. auto.
        * intros l. rewrite Hf4, Hf3, Hf2. simpl.
          rewrite translator_facts.set_insert_In. split.
          -- intros [[[-> | H] | [n [Hn Hw]]] | [c' [Hc' [Hl' H]]]].
             ++ right. exists c. auto.
             ++ auto.
             ++ right. exists c. split; [left; reflexivity |]. split; [assumption |].
                right. eauto.
             ++ right. exists c'. auto.
          -- intros [H | [c' [[<- | Hc'] [Hl' [Hw | [n [Hn Hw]]]]]]].
             ++ auto.
             ++ subst l. auto.
             ++ left. right. eauto.
             ++ right. exists c'. auto.
             ++ right. exists c'. split; [assumption |]. split; [assumption |].
                right. eauto.
      + apply search_facts.label_is_false in Hlc.
        destruct (IH controller Hin) as [c4 [-> [Hl4 Hf4]]].
        exists c4. split; [reflexivity |]. split; [assumption |].
        intros l. rewrite Hf4. split.
        * intros [H | [c' [Hc' H]]]; [auto |]. right. exists c'. auto.
        * intros [H | [c' [[<- | Hc'] [Hl' H]]]]; [auto | contradiction |].
          right. exists c'. auto. }
  destruct (Hloop (children node) IHchildren controller Hin) as [c' [-> [Hl Hf]]].
  exists c'. split; [reflexivity |]. split; [assumption |].
  intros l. rewrite Hf. split.
  - intros [H | [c [Hc [Hlc [Hw | [n [Hn Hw]]]]]]].
    + auto.
    + right. exists c. split; [apply added_child; assumption | assumption].
    + right. exists n. split; [eapply added_deeper; eassumption | assumption].
  - intros [H | [n [Hn Hw]]]; [auto |]. right.
    inversion Hn as [node0 c Hc Hlc | node0 c n0 Hc Hlc Hbelow]; subst.
    + exists n. auto.
    + exists c. split; [assumption |]. split; [assumption |]. right. eauto.
Qed.

End Walk.

(** C5, as the code has it.  For a root labeled [TOP], [create_controller]
    returns a timed automaton whose final locations are exactly the sets of
    words of the nodes that the walk adds below the root: the children
    labeled [TOP] of the root and, in turn, of every node added.  The root
    itself is the initial location and is not made final.  For a root that is
    not labeled [TOP], [create_controller] throws [std::invalid_argument]. *)
Theorem create_controller_final_locations
  (ops : RegionOperations) (K : RegionIndex) (root : Node)
  (Hreg_a : forall word increment,
      ta_states_only (get_nth_time_successor ops (reg_a ops word) increment K)) :
  (label root <> TOP ->
   create_controller ops root K = Throw (invalid_argument not_top_message))
  /\ (label root = TOP ->
      exists controller,
        create_controller ops root K = Ok controller
        /\ forall l, In l (final_locations_ controller)
                     <-> exists n, added_below root n /\ words n = l).
Proof.
  unfold create_controller. split.
  - intros Hlabel. rewrite add_node_to_controller_unfold.
    apply search_facts.label_is_false in Hlabel. rewrite Hlabel. reflexivity.
  - intros Hlabel.
    destruct (add_node_to_controller_returns ops K Hreg_a root
                (TimedAutomaton_new [] (words root) []) Hlabel)
      as [controller [Hok [_ Hfinal]]].
    + simpl. auto.
    + exists controller. split; [exact Hok |].
      intros l. rewrite Hfinal. simpl. tauto.
Qed.

Lemma fixture_reg_a_ta_states_only (word : CanonicalABWord) :
  ta_states_only (fixtures.ta_part word).
Proof.
  intros symbol Hsymbol region_state Hstate. unfold fixtures.ta_part in Hsymbol.
  apply in_map_iff in Hsymbol. destruct Hsymbol as [symbol0 [<- _]].
  apply filter_In in Hstate. destruct Hstate as [_ Hstate].
  destruct region_state as [st | st]; [eauto | discriminate].
Qed.

Lemma create_controller_final_locations_witness :
  (forall word increment,
      ta_states_only
        (get_nth_time_successor fixtures.region_operations
           (reg_a fixtures.region_operations word) increment 0%N))
  /\ exists controller,
       create_controller fixtures.region_operations fixtures.top_tree 0%N = Ok controller
       /\ (In [fixtures.word_l2] (final_locations_ controller)
           <-> exists n, added_below fixtures.top_tree n /\ words n = [fixtures.word_l2]).
Proof.
  assert (Hreg_a : forall word increment,
             ta_states_only
               (get_nth_time_successor fixtures.region_operations
                  (reg_a fixtures.region_operations word) increment 0%N)).
  { intros word increment. apply fixture_reg_a_ta_states_only. }
  split; [exact Hreg_a |].
  destruct (create_controller_final_locations fixtures.region_operations 0%N
              fixtures.top_tree Hreg_a) as [_ Htop].
  destruct (Htop eq_refl) as [controller [Hok Hfinal]].
  exists controller. split; [exact Hok | apply Hfinal].
Defined.

(** C5, as it is stated, fails: for a root labeled [TOP] that has no
    children the controller has no final location, so the set of words of
    the root, a node labeled [TOP] in the walked subtree, is not final. *)
Lemma create_controller_root_not_final_counterexample :
  label fixtures.top_leaf = TOP
  /\ exists controller,
       create_controller fixtures.region_operations fixtures.top_leaf 0%N = Ok controller
       /\ ~ In (words fixtures.top_leaf) (final_locations_ controller).
Proof.
  split; [reflexivity |].
  eexists. split; [reflexivity |]. simpl. tauto.
Qed.

End controller_facts.

(* ================================================================== *)
(** * The checks of test_search.cpp on constructed trees *)
(* ================================================================== *)

Module test_search_facts.
Import logic search test_search.

(** Incremental labeling on constructed cases, single-step propagate: the
    five checks on the label of the root. *)
Example single_step_propagate :
  label (propagate_from [1] (single_step TOP BOTTOM BOTTOM "a" "x" "x")) = TOP
  /\ label (propagate_from [1] (single_step BOTTOM TOP TOP "a" "x" "x")) = TOP
  /\ label (propagate_from [1] (single_step BOTTOM TOP BOTTOM "a" "x" "x")) = BOTTOM
  /\ label (propagate_from [1] (single_step TOP TOP BOTTOM "x" "a" "z")) = TOP
  /\ label (propagate_from [1] (single_step BOTTOM TOP BOTTOM "x" "a" "z")) = BOTTOM.
Proof. vm_compute. auto. Qed.

(** Multi-step propagate: [ch1] and the root get the labels that the test
    checks after a call on [ch4]. *)
Example multi_step_propagate :
  (let root := propagate_from [0; 0] (multi_step BOTTOM BOTTOM BOTTOM TOP []) in
   label_at [0] root = Some TOP /\ label root = TOP)
  /\ (let root := propagate_from [0; 0] (multi_step BOTTOM BOTTOM TOP BOTTOM []) in
      label_at [0] root = Some TOP /\ label root = TOP)
  /\ (let root := propagate_from [0; 0] (multi_step TOP BOTTOM BOTTOM BOTTOM []) in
      label_at [0] root = Some BOTTOM /\ label root = BOTTOM).
Proof. vm_compute. auto. Qed.

(** Multi-step propagate with an unlabeled [ch2]: the root stays unlabeled
    after the call on [ch4] and gets [TOP] after the call on [ch6]. *)
Example multi_step_propagate_pending :
  let root := propagate_from [0; 0] (multi_step UNLABELED TOP BOTTOM BOTTOM [ch6]) in
  label_at [0] root = Some BOTTOM /\ label root = UNLABELED
  /\ let root' := propagate_from [1; 0] root in
     label_at [1] root' = Some TOP /\ label root' = TOP.
Proof. vm_compute. auto. Qed.

(** Check a node for unsatisfiable ATA configurations: the four checks. *)
Example unsatisfiable_ata_configurations :
  has_satisfiable_ata_configuration
    (test_words [[[l0_x_0]; [ATASymbol (mkATARegionState a 0%N)]]]) = true
  /\ has_satisfiable_ata_configuration
       (test_words [[[l0_x_0]; [ATASymbol (mkATARegionState sink 0%N)]]]) = false
  /\ has_satisfiable_ata_configuration
       (test_words [[[l0_x_0; ATASymbol (mkATARegionState a 0%N)];
                     [ATASymbol (mkATARegionState sink 0%N)]]]) = false
  /\ has_satisfiable_ata_configuration
       (test_words [[[l0_x_0; ATASymbol (mkATARegionState a 0%N)]];
                    [[l0_x_0; ATASymbol (mkATARegionState a 0%N)]]]) = true.
Proof. vm_compute. auto. Qed.

End test_search_facts.

(* ================================================================== *)
(** * What [expand_node] does to a node *)
(* ================================================================== *)

Module expansion_facts.
Import logic search search_properties search_facts labeling_facts expansion_properties.

Unset Implicit Arguments.

Lemma is_bad_node_violates (product : SynchronousProduct) (node : Node) :
  TreeSearch.is_bad_node product node = true <-> violates_specification product node.
Proof.
  unfold TreeSearch.is_bad_node, violates_specification. rewrite existsb_exists.
  split; intros [word [Hin H]]; exists word; (split; [assumption |]).
  - apply andb_true_iff in H. exact H.
  - apply andb_true_iff. exact H.
Qed.

Lemma ancestor_words_In (p : NodePtr) :
  forall (root n : Node) (above : list (list CanonicalABWord)) (w : list CanonicalABWord),
    get_node root p = Some n ->
    (In w (ancestor_words above root p)
     <-> In w above
         \/ exists q r a, p = q ++ r /\ r <> [] /\ get_node root q = Some a /\ words a = w).
Proof.
  induction p as [| i p IH]; intros root n above w Hn; simpl in *.
  - split; [auto |]. intros [H | (q & r & a & Hp & Hr & _)]; [assumption |].
    destruct q; destruct r; try discriminate. congruence.
  - destruct (nth_error (children root) i) as [c |] eqn:Hc; [| discriminate].
    rewrite (IH c n (words root :: above) w Hn). simpl. split.
    + intros [[Hw | Hin] | (q & r & a & Hp & Hr & Ha & Hw)].
      * right. exists [], (i :: p), root. repeat split; [discriminate | assumption].
      * left. assumption.
      * right. exists (i :: q), r, a. subst p. simpl. rewrite Hc.
        repeat split; assumption.
    + intros [Hin | (q & r & a & Hp & Hr & Ha & Hw)]; [auto |].
      destruct q as [| j q]; simpl in *.
      * injection Ha as <-. auto.
      * injection Hp as <- ->. rewrite Hc in Ha.
        right. exists q, r, a. repeat split; assumption.
Qed.

Lemma dominates_ancestor_dominating (product : SynchronousProduct) (s : TreeSearch.t)
  (ptr : NodePtr) (node : Node) :
  get_node (TreeSearch.tree_root_ s) ptr = Some node ->
  (TreeSearch.dominates_ancestor product s ptr = true
   <-> dominating_ancestor product (TreeSearch.tree_root_ s) ptr node).
Proof.
  intros Hn. unfold TreeSearch.dominates_ancestor, dominating_ancestor. rewrite Hn.
  rewrite existsb_exists. split.
  - intros [w [Hin Hdom]]. apply (ancestor_words_In ptr _ _ _ _ Hn) in Hin.
    destruct Hin as [[] | (q & r & a & Hp & Hr & Ha & <-)].
    exists q, r, a. repeat split; assumption.
  - intros (q & r & a & Hp & Hr & Ha & Hdom). exists (words a). split; [| assumption].
    apply (ancestor_words_In ptr _ _ _ _ Hn). right. exists q, r, a.
    repeat split; assumption.
Qed.

(** X1.  [expand_node], called on a node that is neither expanded nor
    labeled, gives it the state [BAD] exactly when the node violates the
    specification: the candidate of one of its words is accepting in the
    plant and in the automaton.  The node is then expanded, its reason is
    [BAD_NODE], it gets no child, nothing is queued, and it is labeled
    [BOTTOM] under incremental labeling and left unlabeled otherwise. *)
Theorem expand_node_bad_node
  (product : SynchronousProduct) (s : TreeSearch.t) (ptr : NodePtr) (node : Node)
  (Hnode : get_node (TreeSearch.tree_root_ s) ptr = Some node)
  (Hunexpanded : is_expanded node = false)
  (Hunlabeled : label node = UNLABELED)
  (Hconstructed : state node = UNKNOWN) :
  exists node',
    get_node (TreeSearch.tree_root_ (TreeSearch.expand_node product s ptr)) ptr = Some node'
    /\ (state node' = BAD <-> violates_specification product node)
    /\ (violates_specification product node ->
        label_reason node' = BAD_NODE
        /\ is_expanded node' = true
        /\ List.length (children node') = List.length (children node)
        /\ TreeSearch.pool_ (TreeSearch.expand_node product s ptr) = TreeSearch.pool_ s
        /\ label node'
           = if TreeSearch.incremental_labeling_ s then BOTTOM else UNLABELED).
Proof.
  exists (expanded product s ptr node).
  split; [apply expand_node_node; assumption |].
  rewrite <- is_bad_node_violates.
  assert (Hpool :
            TreeSearch.is_bad_node product node = true ->
            TreeSearch.pool_ (TreeSearch.expand_node product s ptr) = TreeSearch.pool_ s).
  { intros Hbad. unfold TreeSearch.expand_node.
    rewrite Hnode, Hunexpanded, Hbad.
    assert (Hu : label_is UNLABELED node = true) by (apply label_is_true, Hunlabeled).
    rewrite Hu. simpl. apply close_node_pool. }
  unfold expanded.
  destruct (TreeSearch.is_bad_node product node) eqn:Hbad.
  - split.
    + rewrite state_closed. tauto.
    + intros _. rewrite label_reason_closed, is_expanded_closed, length_children_closed,
        label_closed, Hunlabeled.
      split; [reflexivity |]. split; [reflexivity |]. split; [reflexivity |].
      split; [apply Hpool; reflexivity | reflexivity].
  - split; [| discriminate]. split; [| discriminate].
    destruct (negb (has_satisfiable_ata_configuration node));
      [rewrite state_closed; discriminate |].
    destruct (TreeSearch.dominates_ancestor product s ptr);
      [rewrite state_closed; discriminate |].
    rewrite state_opened.
    destruct (TreeSearch.create_children product (TreeSearch.K_ s) node);
      [discriminate | congruence].
Qed.

(** X2.  [expand_node], called on a node that is neither expanded nor
    labeled, not bad and with a satisfiable ATA configuration, gives it the
    state [GOOD] with the reason [MONOTONIC_DOMINATION] exactly when the
    words of a proper ancestor monotonically dominate the words of the
    node.  The node is then expanded, gets no child, nothing is queued, and
    it is labeled [TOP] under incremental labeling and left unlabeled
    otherwise. *)
Theorem expand_node_monotonic_domination
  (product : SynchronousProduct) (s : TreeSearch.t) (ptr : NodePtr) (node : Node)
  (Hnode : get_node (TreeSearch.tree_root_ s) ptr = Some node)
  (Hunexpanded : is_expanded node = false)
  (Hunlabeled : label node = UNLABELED)
  (Hconstructed : state node = UNKNOWN)
  (Hnot_bad : TreeSearch.is_bad_node product node = false)
  (Hsatisfiable : has_satisfiable_ata_configuration node = true) :
  exists node',
    get_node (TreeSearch.tree_root_ (TreeSearch.expand_node product s ptr)) ptr = Some node'
    /\ ((state node' = GOOD /\ label_reason node' = MONOTONIC_DOMINATION)
        <-> dominating_ancestor product (TreeSearch.tree_root_ s) ptr node)
    /\ (dominating_ancestor product (TreeSearch.tree_root_ s) ptr node ->
        is_expanded node' = true
        /\ List.length (children node') = List.length (children node)
        /\ TreeSearch.pool_ (TreeSearch.expand_node product s ptr) = TreeSearch.pool_ s
        /\ label node' = if TreeSearch.incremental_labeling_ s then TOP else UNLABELED).
Proof.
  exists (expanded product s ptr node).
  split; [apply expand_node_node; assumption |].
  rewrite <- (dominates_ancestor_dominating product s ptr node Hnode).
  assert (Hpool :
            TreeSearch.dominates_ancestor product s ptr = true ->
            TreeSearch.pool_ (TreeSearch.expand_node product s ptr) = TreeSearch.pool_ s).
  { intros Hdom. unfold TreeSearch.expand_node.
    rewrite Hnode, Hunexpanded, Hnot_bad, Hsatisfiable, Hdom.
    assert (Hu : label_is UNLABELED node = true) by (apply label_is_true, Hunlabeled).
    rewrite Hu. simpl. apply close_node_pool. }
  unfold expanded. rewrite Hnot_bad, Hsatisfiable. simpl.
  destruct (TreeSearch.dominates_ancestor product s ptr) eqn:Hdom.
  - split.
    + rewrite state_closed, label_reason_closed. tauto.
    + intros _. rewrite is_expanded_closed, length_children_closed, label_closed, Hunlabeled.
      split; [reflexivity |]. split; [reflexivity |].
      split; [apply Hpool; reflexivity | reflexivity].
  - split; [| discriminate]. split; [| discriminate].
    intros [Hstate _]. rewrite state_opened in Hstate.
    destruct (TreeSearch.create_children product (TreeSearch.K_ s) node);
      [discriminate | congruence].
Qed.

Lemma expand_node_monotonic_domination_witness :
  dominating_ancestor more_fixtures.looping_plant
    (TreeSearch.tree_root_ (more_fixtures.looping_search true)) [0%nat]
    (new_node [fixtures.word_l0] [(0%N, "c")])
  /\ exists node',
       get_node
         (TreeSearch.tree_root_
            (TreeSearch.expand_node more_fixtures.looping_plant
               (more_fixtures.looping_search true) [0%nat]))
         [0%nat] = Some node'
       /\ state node' = GOOD /\ label_reason node' = MONOTONIC_DOMINATION
       /\ label node' = TOP.
Proof.
  assert (Hdom : dominating_ancestor more_fixtures.looping_plant
                   (TreeSearch.tree_root_ (more_fixtures.looping_search true)) [0%nat]
                   (new_node [fixtures.word_l0] [(0%N, "c")])).
  { exists [], [0%nat], (TreeSearch.tree_root_ (more_fixtures.looping_search true)).
    split; [reflexivity |]. split; [discriminate |]. split; reflexivity. }
  split; [exact Hdom |].
  destruct (expand_node_monotonic_domination more_fixtures.looping_plant
              (more_fixtures.looping_search true) [0%nat]
              (new_node [fixtures.word_l0] [(0%N, "c")])
              eq_refl eq_refl eq_refl eq_refl eq_refl eq_refl)
    as [node' [Hget [Hiff Hthen]]].
  exists node'. split; [exact Hget |].
  destruct (proj2 Hiff Hdom) as [Hstate Hreason].
  split; [exact Hstate |]. split; [exact Hreason |].
  exact (proj2 (proj2 (proj2 (Hthen Hdom)))).
Defined.

Lemma expand_node_bad_node_witness :
  violates_specification fixtures.plant (new_node [fixtures.word_l1] [])
  /\ exists node',
       get_node
         (TreeSearch.tree_root_
            (TreeSearch.expand_node fixtures.plant
               (fixtures.search_at (new_node [fixtures.word_l1] []) true) []))
         [] = Some node'
       /\ state node' = BAD /\ label_reason node' = BAD_NODE /\ label node' = BOTTOM.
Proof.
  assert (Hbad : violates_specification fixtures.plant (new_node [fixtures.word_l1] [])).
  { exists fixtures.word_l1. split; [left; reflexivity | split; reflexivity]. }
  split; [exact Hbad |].
  destruct (expand_node_bad_node fixtures.plant
              (fixtures.search_at (new_node [fixtures.word_l1] []) true) []
              (new_node [fixtures.word_l1] []) eq_refl eq_refl eq_refl eq_refl)
    as [node' [Hget [Hiff Hthen]]].
  exists node'. split; [exact Hget |].
  split; [exact (proj2 Hiff Hbad) |].
  split; [exact (proj1 (Hthen Hbad)) |].
  exact (proj2 (proj2 (proj2 (proj2 (Hthen Hbad))))).
Defined.

Lemma get_node_app (p q : NodePtr) :
  forall root,
    get_node root (p ++ q)
    = match get_node root p with
      | Some n => get_node n q
      | None => None
      end.
Proof.
  induction p as [| i p IH]; intros root; simpl; [reflexivity |].
  destruct (nth_error (children root) i) as [c |]; [apply IH | reflexivity].
Qed.

(** X3.  [expand_node], called on a node without children that is neither
    expanded nor labeled, not bad, with a satisfiable ATA configuration and
    without a dominating ancestor, gives it the children that
    [create_children] computes, each as the constructor leaves it, marks it
    expanded, keeps its words and incoming actions, and appends the pointers
    to the children to the queue in their order.  Without children the node
    gets the state [DEAD] and, under incremental labeling, the label [TOP]
    with the reason [DEAD_NODE]; with children it stays [UNKNOWN] and
    unlabeled. *)
Theorem expand_node_children
  (product : SynchronousProduct) (s : TreeSearch.t) (ptr : NodePtr) (node : Node)
  (Hnode : get_node (TreeSearch.tree_root_ s) ptr = Some node)
  (Hunexpanded : is_expanded node = false)
  (Hunlabeled : label node = UNLABELED)
  (Hconstructed : state node = UNKNOWN)
  (Hleaf : children node = [])
  (Hnot_bad : TreeSearch.is_bad_node product node = false)
  (Hsatisfiable : has_satisfiable_ata_configuration node = true)
  (Hnot_dominated : TreeSearch.dominates_ancestor product s ptr = false) :
  let new_children := TreeSearch.create_children product (TreeSearch.K_ s) node in
  let s' := TreeSearch.expand_node product s ptr in
  exists node',
    get_node (TreeSearch.tree_root_ s') ptr = Some node'
    /\ children node' = new_children
    /\ is_expanded node' = true
    /\ words node' = words node
    /\ incoming_actions node' = incoming_actions node
    /\ TreeSearch.pool_ s' = TreeSearch.pool_ s ++ child_pointers ptr new_children
    /\ (forall i child,
          nth_error new_children i = Some child ->
          get_node (TreeSearch.tree_root_ s') (ptr ++ [i]) = Some child
          /\ child = new_node (words child) (incoming_actions child))
    /\ (new_children = [] ->
        state node' = DEAD
        /\ if TreeSearch.incremental_labeling_ s
           then label node' = TOP /\ label_reason node' = DEAD_NODE
           else label node' = UNLABELED)
    /\ (new_children <> [] -> state node' = UNKNOWN /\ label node' = UNLABELED).
Proof.
  intros new_children s'.
  pose proof (@expand_node_node product s ptr node Hnode Hunexpanded Hunlabeled) as Hget.
  pose proof (expand_node_pool product s ptr node Hnode Hunexpanded Hunlabeled Hleaf)
    as Hpool.
  fold s' in Hget, Hpool.
  assert (Hexp : expanded product s ptr node = opened s new_children node).
  { unfold expanded. rewrite Hnot_bad, Hsatisfiable, Hnot_dominated. reflexivity. }
  rewrite Hexp in Hget, Hpool.
  assert (Hch : children (opened s new_children node) = new_children).
  { unfold opened. destruct new_children as [| c cs]; [| reflexivity].
    destruct (TreeSearch.incremental_labeling_ s); [| reflexivity].
    rewrite children_set_label. simpl. destruct (TreeSearch.terminate_early_ s); reflexivity. }
  exists (opened s new_children node).
  split; [exact Hget |]. split; [exact Hch |].
  split.
  { unfold opened. destruct new_children; [| reflexivity].
    destruct (TreeSearch.incremental_labeling_ s); [| reflexivity].
    rewrite is_expanded_set_label. reflexivity. }
  split.
  { unfold opened. destruct new_children; [| reflexivity].
    destruct (TreeSearch.incremental_labeling_ s); [| reflexivity].
    rewrite words_set_label. reflexivity. }
  split.
  { unfold opened. destruct new_children; [| reflexivity].
    destruct (TreeSearch.incremental_labeling_ s); [| reflexivity].
    rewrite incoming_actions_set_label. reflexivity. }
  split.
  { rewrite Hpool, Hch. reflexivity. }
  split.
  { intros i child Hi. split.
    - rewrite get_node_app, Hget. simpl. rewrite Hch, Hi. reflexivity.
    - apply (create_children_new product (TreeSearch.K_ s) node).
      eapply nth_error_In. exact Hi. }
  split.
  - intros Hnil. unfold opened. rewrite Hnil.
    destruct (TreeSearch.incremental_labeling_ s).
    + rewrite state_set_label, label_set_label, label_reason_set_label.
      repeat split.
    + split; [reflexivity | exact Hunlabeled].
  - intros Hne. unfold opened. destruct new_children; [congruence |].
    split; [exact Hconstructed | exact Hunlabeled].
Qed.

Lemma expand_node_children_witness :
  exists node',
    get_node
      (TreeSearch.tree_root_
         (TreeSearch.expand_node fixtures.plant (fixtures.start false) []))
      [] = Some node'
    /\ List.length (children node') = 2%nat
    /\ TreeSearch.pool_ (TreeSearch.expand_node fixtures.plant (fixtures.start false) [])
       = [ [] ; [0%nat]; [1%nat] ].
Proof.
  destruct (expand_node_children fixtures.plant (fixtures.start false) []
              (new_node [fixtures.word_l0] [])
              eq_refl eq_refl eq_refl eq_refl eq_refl eq_refl eq_refl eq_refl)
    as [node' [Hget [Hch [_ [_ [_ [Hpool _]]]]]]].
  exists node'. split; [exact Hget |].
  split; [rewrite Hch; reflexivity | exact Hpool].
Defined.

Lemma is_expanded_opened (s : TreeSearch.t) (cs : list Node) (n : Node) :
  is_expanded (opened s cs n) = true.
Proof.
  unfold opened. destruct cs; [| reflexivity].
  destruct (TreeSearch.incremental_labeling_ s); [| reflexivity].
  rewrite is_expanded_set_label. reflexivity.
Qed.

Lemma is_expanded_expanded (product : SynchronousProduct) (s : TreeSearch.t)
  (ptr : NodePtr) (n : Node) :
  is_expanded (expanded product s ptr n) = true.
Proof.
  unfold expanded.
  destruct (TreeSearch.is_bad_node product n); [apply is_expanded_closed |].
  destruct (negb (has_satisfiable_ata_configuration n)); [apply is_expanded_closed |].
  destruct (TreeSearch.dominates_ancestor product s ptr); [apply is_expanded_closed |].
  apply is_expanded_opened.
Qed.

(** X4.  Calling [expand_node] a second time on the same node changes
    nothing: the second call finds the node expanded or labeled (or finds no
    node) and returns at once. *)
Theorem expand_node_idempotent
  (product : SynchronousProduct) (s : TreeSearch.t) (ptr : NodePtr) :
  TreeSearch.expand_node product (TreeSearch.expand_node product s ptr) ptr
  = TreeSearch.expand_node product s ptr.
Proof.
  destruct (get_node (TreeSearch.tree_root_ s) ptr) as [n |] eqn:Hn.
  - destruct (is_expanded n) eqn:He.
    + assert (Hs : TreeSearch.expand_node product s ptr = s).
      { unfold TreeSearch.expand_node. rewrite Hn, He. reflexivity. }
      rewrite Hs. exact Hs.
    + destruct (NodeLabel_eq_dec (label n) UNLABELED) as [Hl | Hl].
      * pose proof (@expand_node_node product s ptr n Hn He Hl) as Hget.
        unfold TreeSearch.expand_node at 1. rewrite Hget, is_expanded_expanded.
        reflexivity.
      * assert (Hs : TreeSearch.expand_node product s ptr = s).
        { unfold TreeSearch.expand_node. rewrite Hn, He.
          apply label_is_false in Hl. rewrite Hl. reflexivity. }
        rewrite Hs. exact Hs.
  - assert (Hs : TreeSearch.expand_node product s ptr = s).
    { unfold TreeSearch.expand_node. rewrite Hn. reflexivity. }
    rewrite Hs. exact Hs.
Qed.

Lemma expanded_part_cancel (n : Node) :
  forall q, option_map expanded_part (get_node (cancel n) q)
            = option_map expanded_part (get_node n q).
Proof.
  induction n as [n IH] using Node_children_ind. rewrite Forall_forall in IH.
  intros q. destruct n as [ws ia st lb lr ex cs]. simpl in IH.
  destruct lb; try reflexivity. simpl.
  destruct q as [| i q]; simpl; [reflexivity |].
  rewrite nth_error_map. destruct (nth_error cs i) as [c |] eqn:Hc; simpl; [| reflexivity].
  apply IH. eapply nth_error_In, Hc.
Qed.

Lemma expanded_part_set_label (l : NodeLabel) (c : bool) (n : Node) :
  forall q, option_map expanded_part (get_node (set_label l c n) q)
            = option_map expanded_part (get_node n q).
Proof.
  intros [| i q]; simpl.
  - unfold expanded_part.
    rewrite words_set_label, incoming_actions_set_label, state_set_label,
      is_expanded_set_label. reflexivity.
  - rewrite children_set_label. destruct c; [| reflexivity].
    rewrite nth_error_map. destruct (nth_error (children n) i) as [ch |]; simpl;
      [apply expanded_part_cancel | reflexivity].
Qed.

Lemma extends_cons (i : nat) (p q : NodePtr) : extends (i :: p) (i :: q) <-> extends p q.
Proof.
  unfold extends. split; intros [r Hr]; exists r.
  - simpl in Hr. injection Hr as ->. reflexivity.
  - simpl. rewrite Hr. reflexivity.
Qed.

(** Away from the sub-tree at [p], a walk keeps what is fixed. *)
Lemma walk_expanded_part (ctl env : list ActionType) (cc propagating : bool)
  (f : Node -> Node) (p : NodePtr) :
  forall root q,
    ~ extends p q ->
    option_map expanded_part (get_node (walk ctl env cc propagating f root p) q)
    = option_map expanded_part (get_node root q).
Proof.
  induction p as [| i p IH]; intros root q Hq.
  - exfalso. apply Hq. exists q. reflexivity.
  - simpl. destruct (nth_error (children root) i) as [c |] eqn:Hc; [| reflexivity].
    set (c' := walk ctl env cc propagating f c p).
    assert (Hinner :
              option_map expanded_part
                (get_node (set_children (replace_nth i c' (children root)) root) q)
              = option_map expanded_part (get_node root q)).
    { destruct q as [| j q]; simpl; [reflexivity |].
      destruct (Nat.eq_dec i j) as [<- | Hij].
      - rewrite (nth_error_replace_nth_eq _ _ _ Hc), Hc. apply IH.
        intros H. apply Hq. apply extends_cons, H.
      - rewrite nth_error_replace_nth_neq by exact Hij. reflexivity. }
    destruct propagating; [| exact Hinner].
    destruct (label c'); try exact Hinner;
      (destruct (label_decision ctl env _) as [[l reason] |]; [| exact Hinner];
       rewrite expanded_part_set_label;
       destruct q as [| j q]; [reflexivity | exact Hinner]).
Qed.

(** Without early termination, a walk leaves the nodes beside the path
    as they are. *)
Lemma walk_beside (ctl env : list ActionType) (propagating : bool)
  (f : Node -> Node) (p : NodePtr) :
  forall root q,
    ~ extends p q -> ~ extends q p ->
    get_node (walk ctl env false propagating f root p) q = get_node root q.
Proof.
  induction p as [| i p IH]; intros root q Hq Hp.
  - exfalso. apply Hq. exists q. reflexivity.
  - simpl. destruct (nth_error (children root) i) as [c |] eqn:Hc; [| reflexivity].
    set (c' := walk ctl env false propagating f c p).
    destruct q as [| j q]; [exfalso; apply Hp; exists (i :: p); reflexivity |].
    assert (Hinner :
              get_node (set_children (replace_nth i c' (children root)) root) (j :: q)
              = get_node root (j :: q)).
    { simpl. destruct (Nat.eq_dec i j) as [<- | Hij].
      - rewrite (nth_error_replace_nth_eq _ _ _ Hc), Hc. apply IH.
        + intros H. apply Hq. apply extends_cons, H.
        + intros H. apply Hp. apply extends_cons, H.
      - rewrite nth_error_replace_nth_neq by exact Hij. reflexivity. }
    destruct propagating; [| exact Hinner].
    destruct (label c'); try exact Hinner;
      (destruct (label_decision ctl env _) as [[l reason] |]; [| exact Hinner];
       rewrite <- Hinner; simpl; reflexivity).
Qed.

(** X5.  [expand_node] changes the words, the incoming actions, the state
    and the expansion flag of no node outside the sub-tree of the node it is
    called on; without early termination it leaves every node that is
    neither in that sub-tree nor on the path from the root to it unchanged
    altogether. *)
Theorem expand_node_frame
  (product : SynchronousProduct) (s : TreeSearch.t) (ptr q : NodePtr)
  (Houtside : ~ extends ptr q) :
  let root := TreeSearch.tree_root_ s in
  let root' := TreeSearch.tree_root_ (TreeSearch.expand_node product s ptr) in
  option_map expanded_part (get_node root' q) = option_map expanded_part (get_node root q)
  /\ (TreeSearch.terminate_early_ s = false -> ~ extends q ptr ->
      get_node root' q = get_node root q).
Proof.
  intros root root'. subst root root'.
  destruct (get_node (TreeSearch.tree_root_ s) ptr) as [n |] eqn:Hn.
  2:{ unfold TreeSearch.expand_node. rewrite Hn. split; reflexivity. }
  destruct (is_expanded n) eqn:He.
  { unfold TreeSearch.expand_node. rewrite Hn, He. split; reflexivity. }
  destruct (NodeLabel_eq_dec (label n) UNLABELED) as [Hl | Hl].
  2:{ unfold TreeSearch.expand_node. rewrite Hn, He.
      apply label_is_false in Hl. rewrite Hl. split; reflexivity. }
  rewrite (expand_node_walk product s ptr n Hn He Hl). split.
  - apply walk_expanded_part, Houtside.
  - intros Hte Hbeside. rewrite Hte. apply walk_beside; assumption.
Qed.

Lemma expand_node_frame_witness :
  ~ extends [0%nat] [1%nat]
  /\ get_node
       (TreeSearch.tree_root_
          (TreeSearch.expand_node fixtures.plant
             (TreeSearch.expand_node fixtures.plant (fixtures.start true) []) [0%nat]))
       [1%nat]
     = get_node
         (TreeSearch.tree_root_
            (TreeSearch.expand_node fixtures.plant (fixtures.start true) []))
         [1%nat].
Proof.
  assert (Houtside : ~ extends [0%nat] [1%nat]).
  { intros [r Hr]. discriminate. }
  split; [exact Houtside |].
  apply (expand_node_frame fixtures.plant
           (TreeSearch.expand_node fixtures.plant (fixtures.start true) [])
           [0%nat] [1%nat] Houtside).
  - reflexivity.
  - intros [r Hr]. discriminate.
Defined.

Lemma fold_left_sum (A : Type) (f : A -> nat) (l : list A) :
  forall a, fold_left (fun sum x => sum + f x) l a = a + list_sum (map f l).
Proof.
  induction l as [| x l IH]; intros a; simpl; [lia |]. rewrite IH. lia.
Qed.

Lemma get_size_unfold (n : Node) :
  TreeSearch.get_size n = 1 + list_sum (map TreeSearch.get_size (children n)).
Proof.
  destruct n as [ws ia st lb lr ex cs]. simpl. rewrite fold_left_sum. reflexivity.
Qed.

Lemma get_size_cancel (n : Node) : TreeSearch.get_size (cancel n) = TreeSearch.get_size n.
Proof.
  induction n as [n IH] using Node_children_ind. rewrite Forall_forall in IH.
  destruct n as [ws ia st lb lr ex cs]. simpl in IH.
  destruct lb; try reflexivity.
  rewrite (get_size_unfold (cancel _)), (get_size_unfold (mkNode _ _ _ _ _ _ _)). simpl.
  rewrite map_map. f_equal. f_equal. apply map_ext_in. exact IH.
Qed.

Lemma get_size_set_label (l : NodeLabel) (c : bool) (n : Node) :
  TreeSearch.get_size (set_label l c n) = TreeSearch.get_size n.
Proof.
  rewrite !get_size_unfold, children_set_label. destruct c; [| reflexivity].
  rewrite map_map. f_equal. f_equal. apply map_ext. intros a. apply get_size_cancel.
Qed.

Lemma list_sum_replace_nth (f : Node -> nat) (cs : list Node) :
  forall i c c',
    nth_error cs i = Some c ->
    list_sum (map f (replace_nth i c' cs)) + f c = list_sum (map f cs) + f c'.
Proof.
  induction cs as [| a cs IH]; intros [| i] c c' Hi; simpl in *; try discriminate.
  - injection Hi as ->. lia.
  - specialize (IH i c c' Hi). lia.
Qed.

Lemma get_size_walk (ctl env : list ActionType) (cc propagating : bool)
  (f : Node -> Node) (p : NodePtr) :
  forall root n,
    get_node root p = Some n ->
    TreeSearch.get_size (walk ctl env cc propagating f root p) + TreeSearch.get_size n
    = TreeSearch.get_size root + TreeSearch.get_size (f n).
Proof.
  induction p as [| i p IH]; intros root n Hn; simpl in *.
  - injection Hn as ->. lia.
  - destruct (nth_error (children root) i) as [c |] eqn:Hc; [| discriminate].
    specialize (IH c n Hn).
    set (c' := walk ctl env cc propagating f c p) in *.
    assert (Hinner :
              TreeSearch.get_size (set_children (replace_nth i c' (children root)) root)
              + TreeSearch.get_size n
              = TreeSearch.get_size root + TreeSearch.get_size (f n)).
    { rewrite (get_size_unfold (set_children _ _)), (get_size_unfold root).
      cbn [children set_children].
      pose proof (list_sum_replace_nth TreeSearch.get_size (children root) i c c' Hc).
      lia. }
    destruct propagating; [| exact Hinner].
    destruct (label c'); try exact Hinner;
      (destruct (label_decision ctl env _) as [[l reason] |]; [| exact Hinner];
       rewrite get_size_set_label;
       rewrite (get_size_unfold (set_label_reason _ _));
       rewrite (get_size_unfold (set_children _ _)) in Hinner; exact Hinner).
Qed.

(** X6.  [get_size] after [expand_node]: expanding a node without children
    that is neither expanded nor labeled makes the tree larger by exactly
    the number of children that the node has afterwards; no node is
    removed. *)
Theorem get_size_expand_node
  (product : SynchronousProduct) (s : TreeSearch.t) (ptr : NodePtr) (node : Node)
  (Hnode : get_node (TreeSearch.tree_root_ s) ptr = Some node)
  (Hunexpanded : is_expanded node = false)
  (Hunlabeled : label node = UNLABELED)
  (Hleaf : children node = []) :
  exists node',
    get_node (TreeSearch.tree_root_ (TreeSearch.expand_node product s ptr)) ptr = Some node'
    /\ TreeSearch.get_size (TreeSearch.tree_root_ (TreeSearch.expand_node product s ptr))
       = TreeSearch.get_size (TreeSearch.tree_root_ s) + List.length (children node').
Proof.
  exists (expanded product s ptr node).
  split; [apply expand_node_node; assumption |].
  rewrite (expand_node_walk product s ptr node Hnode Hunexpanded Hunlabeled).
  pose proof (get_size_walk (TreeSearch.controller_actions_ s)
                (TreeSearch.environment_actions_ s) (TreeSearch.terminate_early_ s)
                (negb (label_is UNLABELED (expanded product s ptr node)))
                (fun _ => expanded product s ptr node) ptr _ node Hnode) as Hsize.
  cbv beta in Hsize.
  assert (Hone : TreeSearch.get_size node = 1).
  { rewrite get_size_unfold, Hleaf. reflexivity. }
  assert (Hnew : TreeSearch.get_size (expanded product s ptr node)
                 = 1 + List.length (children (expanded product s ptr node))).
  { rewrite get_size_unfold. f_equal.
    assert (Hleaves : forall c, In c (children (expanded product s ptr node)) ->
                                TreeSearch.get_size c = 1).
    { intros c Hc.
      assert (Hclosed : forall reason st l,
                 In c (children (closed s reason st l node)) -> False).
      { intros reason st l H.
        pose proof (length_children_closed s reason st l node) as Hlen.
        rewrite Hleaf in Hlen. destruct (children (closed s reason st l node));
          [destruct H | discriminate]. }
      unfold expanded in Hc.
      destruct (TreeSearch.is_bad_node product node); [destruct (Hclosed _ _ _ Hc) |].
      destruct (negb (has_satisfiable_ata_configuration node));
        [destruct (Hclosed _ _ _ Hc) |].
      destruct (TreeSearch.dominates_ancestor product s ptr);
        [destruct (Hclosed _ _ _ Hc) |].
      unfold opened in Hc.
      destruct (TreeSearch.create_children product (TreeSearch.K_ s) node)
        as [| c0 cs] eqn:Hcs.
      - destruct (TreeSearch.incremental_labeling_ s); simpl in Hc;
          [| destruct Hc].
        rewrite children_set_label in Hc. simpl in Hc.
        destruct (TreeSearch.terminate_early_ s); destruct Hc.
      - cbn [children set_children set_is_expanded] in Hc. rewrite <- Hcs in Hc.
        rewrite (create_children_new product _ _ _ Hc). reflexivity. }
    induction (children (expanded product s ptr node)) as [| c cs IH]; [reflexivity |].
    simpl. rewrite (Hleaves c (or_introl eq_refl)), IH; [reflexivity |].
    intros c0 Hc0. apply Hleaves. right. exact Hc0. }
  lia.
Qed.

Lemma get_size_expand_node_witness :
  exists node',
    get_node
      (TreeSearch.tree_root_
         (TreeSearch.expand_node fixtures.plant (fixtures.start false) []))
      [] = Some node'
    /\ TreeSearch.get_size
         (TreeSearch.tree_root_
            (TreeSearch.expand_node fixtures.plant (fixtures.start false) []))
       = TreeSearch.get_size (TreeSearch.tree_root_ (fixtures.start false))
         + List.length (children node').
Proof.
  exact (get_size_expand_node fixtures.plant (fixtures.start false) []
           (new_node [fixtures.word_l0] []) eq_refl eq_refl eq_refl eq_refl).
Defined.

End expansion_facts.

(* ================================================================== *)
(** * The children that [expand_node] creates *)
(* ================================================================== *)

Module children_facts.
Import logic search search_properties search_facts expansion_properties.

Unset Implicit Arguments.

Lemma symbol_successors_In (product : SynchronousProduct) (K : RegionIndex) (n : Node)
  (symbol : ActionType) (d : RegionIndex) (w : CanonicalABWord) :
  In (d, w) (TreeSearch.symbol_successors product K n symbol)
  <-> successor_of product K n symbol d w.
Proof.
  unfold TreeSearch.symbol_successors, successor_of.
  rewrite (@translator_facts.set_insert_all_In _ Successor_eq_dec).
  rewrite in_flat_map. split.
  - intros [[word [Hword Hin]] | []]. apply in_flat_map in Hin.
    destruct Hin as [[d' ts] [Hts Hin]]. apply in_map_iff in Hin.
    destruct Hin as [w' [Heq Hw]]. simpl in Heq. injection Heq as <- <-.
    exists word, ts. repeat split; assumption.
  - intros (word & ts & Hword & Hts & Hw). left. exists word. split; [assumption |].
    apply in_flat_map. exists (d, ts). split; [assumption |].
    apply in_map_iff. exists w. split; [reflexivity | assumption].
Qed.

Lemma all_successors_In (product : SynchronousProduct) (K : RegionIndex) (n : Node)
  (symbol : ActionType) (d : RegionIndex) (w : CanonicalABWord) :
  In (symbol, (d, w)) (all_successors product K n) <-> reached product K n symbol d w.
Proof.
  unfold all_successors, reached. rewrite in_flat_map. split.
  - intros [sym [Hsym Hin]]. apply in_map_iff in Hin. destruct Hin as [succ [Heq Hin]].
    injection Heq as <- ->. split; [assumption |]. apply symbol_successors_In, Hin.
  - intros [Hsym Hsucc]. exists symbol. split; [assumption |].
    apply in_map_iff. exists (d, w). split; [reflexivity |].
    apply symbol_successors_In, Hsucc.
Qed.

(** The two loops of [expand_node] are one pass over all the successors. *)
Lemma create_children_classify (product : SynchronousProduct) (K : RegionIndex) (n : Node) :
  forall (symbols : list ActionType) (m : TreeSearch.child_maps),
    fold_left
      (fun (m : TreeSearch.child_maps) symbol =>
         TreeSearch.partition_successors product symbol
           (TreeSearch.symbol_successors product K n symbol) m)
      symbols m
    = fold_left (classify product)
        (flat_map
           (fun symbol =>
              map (fun succ => (symbol, succ))
                (TreeSearch.symbol_successors product K n symbol))
           symbols)
        m.
Proof.
  induction symbols as [| symbol symbols IH]; intros m; simpl; [reflexivity |].
  rewrite fold_left_app, IH. f_equal.
  unfold TreeSearch.partition_successors.
  generalize (TreeSearch.symbol_successors product K n symbol) m.
  induction l as [| succ l IHl]; intros m0; simpl; [reflexivity |].
  rewrite IHl. reflexivity.
Qed.

Section MapInsert.

Variable X : Type.
Variable dec : forall a b : X, {a = b} + {a <> b}.

Lemma keys_map_insert (key : CanonicalABWord) (x : X)
  (m : list (CanonicalABWord * list X)) :
  map fst (TreeSearch.map_insert dec key x m)
  = set_insert CanonicalABWord_eq_dec key (map fst m).
Proof.
  induction m as [| [k xs] m IH]; simpl; [reflexivity |].
  unfold set_insert in *. simpl.
  destruct (CanonicalABWord_eq_dec k key) as [-> | Hne]; simpl.
  - destruct (in_dec CanonicalABWord_eq_dec key (key :: map fst m)) as [_ | Hn];
      [reflexivity | exfalso; apply Hn; left; reflexivity].
  - rewrite IH.
    destruct (in_dec CanonicalABWord_eq_dec key (map fst m)) as [Hin | Hnin];
      destruct (in_dec CanonicalABWord_eq_dec key (k :: map fst m)) as [Hin' | Hnin'];
      try reflexivity.
Qed.

Lemma map_at_map_insert (key key' : CanonicalABWord) (x y : X)
  (m : list (CanonicalABWord * list X)) :
  In y (TreeSearch.map_at key' (TreeSearch.map_insert dec key x m))
  <-> (key' = key /\ y = x) \/ In y (TreeSearch.map_at key' m).
Proof.
  induction m as [| [k xs] m IH]; simpl.
  - destruct (CanonicalABWord_eq_dec key key') as [-> | Hne]; simpl.
    + split; [intros [<- | []]; left; split; reflexivity | intros [[_ ->] | []]; left; reflexivity].
    + split; [intros [] | intros [[-> _] | []]; apply Hne; reflexivity].
  - destruct (CanonicalABWord_eq_dec k key) as [-> | Hne]; simpl.
    + destruct (CanonicalABWord_eq_dec key key') as [<- | Hne'].
      * rewrite (@translator_facts.set_insert_In _ dec). split.
        -- intros [-> | H]; [left; split; reflexivity | right; exact H].
        -- intros [[_ ->] | H]; [left; reflexivity | right; exact H].
      * split; [intros H; right; exact H |].
        intros [[-> _] | H]; [exfalso; apply Hne'; reflexivity | exact H].
    + destruct (CanonicalABWord_eq_dec k key') as [<- | Hne'].
      * split; [intros H; right; exact H |].
        intros [[-> _] | H]; [exfalso; apply Hne; reflexivity | exact H].
      * exact IH.
Qed.

Lemma map_at_entry (key : CanonicalABWord) (xs : list X)
  (m : list (CanonicalABWord * list X)) :
  NoDup (map fst m) -> In (key, xs) m -> TreeSearch.map_at key m = xs.
Proof.
  induction m as [| [k ys] m IH]; simpl; intros Hnd Hin; [destruct Hin |].
  inversion Hnd as [| k0 l Hnotin Hnd']; subst.
  destruct Hin as [Heq | Hin].
  - injection Heq as -> ->. destruct (CanonicalABWord_eq_dec key key); [reflexivity | congruence].
  - destruct (CanonicalABWord_eq_dec k key) as [-> | Hne].
    + exfalso. apply Hnotin. apply in_map_iff. exists (key, xs). split; [reflexivity | exact Hin].
    + apply IH; assumption.
Qed.

End MapInsert.

Section Classify.

Variable product : SynchronousProduct.

Lemma classify_keys (ts : list (ActionType * (RegionIndex * CanonicalABWord))) :
  forall m : TreeSearch.child_maps,
    map fst (fst m) = map fst (snd m) -> NoDup (map fst (fst m)) ->
    let m' := fold_left (classify product) ts m in
    map fst (fst m') = map fst (snd m') /\ NoDup (map fst (fst m')).
Proof.
  induction ts as [| t ts IH]; intros m Hkeys Hnd; simpl; [split; assumption |].
  apply IH; unfold classify; simpl.
  - rewrite !keys_map_insert, Hkeys. reflexivity.
  - rewrite keys_map_insert. apply translator_facts.set_insert_NoDup, Hnd.
Qed.

Lemma classify_key_In (ts : list (ActionType * (RegionIndex * CanonicalABWord))) :
  forall (m : TreeSearch.child_maps) (key : CanonicalABWord),
    In key (map fst (fst (fold_left (classify product) ts m)))
    <-> In key (map fst (fst m))
        \/ exists symbol d w, In (symbol, (d, w)) ts /\ reg_a product w = key.
Proof.
  induction ts as [| [symbol [d w]] ts IH]; intros m key; simpl.
  - split; [auto | intros [H | (_ & _ & _ & [] & _)]; exact H].
  - rewrite IH. unfold classify. simpl. rewrite keys_map_insert.
    rewrite (@translator_facts.set_insert_In _ CanonicalABWord_eq_dec). split.
    + intros [[-> | H] | (s0 & d0 & w0 & Hin & Hk)].
      * right. exists symbol, d, w. split; [left; reflexivity | reflexivity].
      * left. exact H.
      * right. exists s0, d0, w0. split; [right; exact Hin | exact Hk].
    + intros [H | (s0 & d0 & w0 & [Heq | Hin] & Hk)].
      * left. right. exact H.
      * injection Heq as <- <- <-. left. left. symmetry. exact Hk.
      * right. exists s0, d0, w0. split; assumption.
Qed.

Lemma classify_words (ts : list (ActionType * (RegionIndex * CanonicalABWord))) :
  forall (m : TreeSearch.child_maps) (key w : CanonicalABWord),
    In w (TreeSearch.map_at key (fst (fold_left (classify product) ts m)))
    <-> In w (TreeSearch.map_at key (fst m))
        \/ exists symbol d, In (symbol, (d, w)) ts /\ reg_a product w = key.
Proof.
  induction ts as [| [symbol [d w0]] ts IH]; intros m key w; simpl.
  - split; [auto | intros [H | (_ & _ & [] & _)]; exact H].
  - rewrite IH. unfold classify. simpl. rewrite map_at_map_insert. split.
    + intros [[[-> ->] | H] | (s0 & d0 & Hin & Hk)].
      * right. exists symbol, d. split; [left; reflexivity | reflexivity].
      * left. exact H.
      * right. exists s0, d0. split; [right; exact Hin | exact Hk].
    + intros [H | (s0 & d0 & [Heq | Hin] & Hk)].
      * left. right. exact H.
      * injection Heq as <- <- <-. left. left. split; [symmetry; exact Hk | reflexivity].
      * right. exists s0, d0. split; assumption.
Qed.

Lemma classify_actions (ts : list (ActionType * (RegionIndex * CanonicalABWord))) :
  forall (m : TreeSearch.child_maps) (key : CanonicalABWord) (d : RegionIndex)
         (symbol : ActionType),
    In (d, symbol) (TreeSearch.map_at key (snd (fold_left (classify product) ts m)))
    <-> In (d, symbol) (TreeSearch.map_at key (snd m))
        \/ exists w, In (symbol, (d, w)) ts /\ reg_a product w = key.
Proof.
  induction ts as [| [symbol0 [d0 w0]] ts IH]; intros m key d symbol; simpl.
  - split; [auto | intros [H | (_ & [] & _)]; exact H].
  - rewrite IH. unfold classify. simpl. rewrite map_at_map_insert. split.
    + intros [[[-> Heq] | H] | (w & Hin & Hk)].
      * injection Heq as -> ->. right. exists w0. split; [left; reflexivity | reflexivity].
      * left. exact H.
      * right. exists w. split; [right; exact Hin | exact Hk].
    + intros [H | (w & [Heq | Hin] & Hk)].
      * left. right. exact H.
      * injection Heq as <- <- <-. left. left. split; [symmetry; exact Hk | reflexivity].
      * right. exists w. split; assumption.
Qed.

End Classify.

Section Children.

Variable product : SynchronousProduct.
Variable K : RegionIndex.
Variable n : Node.

Let maps : TreeSearch.child_maps :=
  fold_left (classify product) (all_successors product K n) ([], []).

Lemma create_children_maps :
  TreeSearch.create_children product K n
  = map (fun map_entry =>
           new_node (snd map_entry) (TreeSearch.map_at (fst map_entry) (snd maps)))
      (fst maps).
Proof.
  unfold TreeSearch.create_children, maps, all_successors.
  rewrite create_children_classify. reflexivity.
Qed.

Lemma maps_keys : map fst (fst maps) = map fst (snd maps) /\ NoDup (map fst (fst maps)).
Proof. apply (classify_keys product _ ([], [])); [reflexivity | constructor]. Qed.

Lemma maps_words (key w : CanonicalABWord) :
  In w (TreeSearch.map_at key (fst maps))
  <-> reg_a product w = key /\ exists symbol d, reached product K n symbol d w.
Proof.
  unfold maps. rewrite classify_words. simpl. split.
  - intros [[] | (symbol & d & Hin & Hk)]. split; [exact Hk |].
    exists symbol, d. apply all_successors_In, Hin.
  - intros [Hk (symbol & d & Hr)]. right. exists symbol, d.
    split; [apply all_successors_In, Hr | exact Hk].
Qed.

Lemma maps_actions (key : CanonicalABWord) (d : RegionIndex) (symbol : ActionType) :
  In (d, symbol) (TreeSearch.map_at key (snd maps))
  <-> exists w, reached product K n symbol d w /\ reg_a product w = key.
Proof.
  unfold maps. rewrite classify_actions. simpl. split.
  - intros [[] | (w & Hin & Hk)]. exists w. split; [apply all_successors_In, Hin | exact Hk].
  - intros (w & Hr & Hk). right. exists w. split; [apply all_successors_In, Hr | exact Hk].
Qed.

Lemma maps_key (key : CanonicalABWord) :
  In key (map fst (fst maps))
  <-> exists symbol d w, reached product K n symbol d w /\ reg_a product w = key.
Proof.
  unfold maps. rewrite classify_key_In. simpl. split.
  - intros [[] | (symbol & d & w & Hin & Hk)]. exists symbol, d, w.
    split; [apply all_successors_In, Hin | exact Hk].
  - intros (symbol & d & w & Hr & Hk). right. exists symbol, d, w.
    split; [apply all_successors_In, Hr | exact Hk].
Qed.

(** The child made for the class [key]. *)
Lemma child_of_entry (i : nat) (c : Node) :
  nth_error (TreeSearch.create_children product K n) i = Some c ->
  exists key,
    nth_error (map fst (fst maps)) i = Some key
    /\ words c = TreeSearch.map_at key (fst maps)
    /\ incoming_actions c = TreeSearch.map_at key (snd maps).
Proof.
  rewrite create_children_maps, nth_error_map. intros Hc.
  destruct (nth_error (fst maps) i) as [[key ws] |] eqn:Hentry; [| discriminate].
  injection Hc as <-. exists key. simpl. rewrite nth_error_map, Hentry.
  split; [reflexivity |]. split; [| reflexivity].
  symmetry. apply map_at_entry; [apply maps_keys | eapply nth_error_In, Hentry].
Qed.

End Children.

(** X7.  Each child that the partition in [expand_node] makes is one reg_a
    class: its words are exactly the successors, reached by a symbol of the
    alphabet from a time successor of a word of the node, whose reg_a is the
    key of the class; its incoming actions are exactly the pairs of region
    increment and symbol by which such a successor is reached.  Neither is
    empty, and the child is as the constructor leaves it. *)
Theorem create_children_classes
  (product : SynchronousProduct) (K : RegionIndex) (node child : Node)
  (Hchild : In child (TreeSearch.create_children product K node)) :
  exists key : CanonicalABWord,
    (forall w,
        In w (words child)
        <-> reg_a product w = key /\ exists symbol d, reached product K node symbol d w)
    /\ (forall d symbol,
           In (d, symbol) (incoming_actions child)
           <-> exists w, reached product K node symbol d w /\ reg_a product w = key)
    /\ words child <> []
    /\ incoming_actions child <> []
    /\ child = new_node (words child) (incoming_actions child).
Proof.
  destruct (In_nth_error _ _ Hchild) as [i Hi].
  destruct (child_of_entry product K node i child Hi) as (key & Hkey & Hwords & Hactions).
  exists key. rewrite Hwords, Hactions.
  split; [intros w; apply maps_words |].
  split; [intros d symbol; apply maps_actions |].
  destruct (proj1 (maps_key product K node key) (nth_error_In _ _ Hkey))
    as (symbol & d & w & Hr & Hk).
  split; [| split].
  - intros Hnil.
    assert (Hin : In w (TreeSearch.map_at key
                          (fst (fold_left (classify product)
                                  (all_successors product K node) ([], [])))))
      by (apply maps_words; split; [exact Hk | exists symbol, d; exact Hr]).
    rewrite Hnil in Hin. destruct Hin.
  - intros Hnil.
    assert (Hin : In (d, symbol)
                    (TreeSearch.map_at key
                       (snd (fold_left (classify product)
                               (all_successors product K node) ([], [])))))
      by (apply maps_actions; exists w; split; assumption).
    rewrite Hnil in Hin. destruct Hin.
  - rewrite <- Hwords, <- Hactions. rewrite create_children_maps in Hchild.
    apply in_map_iff in Hchild. destruct Hchild as [entry [<- _]]. reflexivity.
Qed.

Lemma create_children_classes_witness :
  exists key : CanonicalABWord,
    forall w,
      In w [fixtures.word_l1]
      <-> reg_a fixtures.plant w = key
          /\ exists symbol d,
               reached fixtures.plant 0%N (new_node [fixtures.word_l0] []) symbol d w.
Proof.
  destruct (create_children_classes fixtures.plant 0%N (new_node [fixtures.word_l0] [])
              (new_node [fixtures.word_l1] [(0%N, "c"); (1%N, "c")])
              (or_introl eq_refl))
    as [key [Hwords _]].
  exists key. exact Hwords.
Defined.

(** X8.  The children partition the successors: every successor reached by
    a symbol of the alphabet is a word of some child, which has the region
    increment and the symbol among its incoming actions, and two different
    children never hold words with the same reg_a. *)
Theorem create_children_partition
  (product : SynchronousProduct) (K : RegionIndex) (node : Node) :
  (forall symbol d w,
      reached product K node symbol d w ->
      exists child,
        In child (TreeSearch.create_children product K node)
        /\ In w (words child) /\ In (d, symbol) (incoming_actions child))
  /\ (forall i j child_i child_j w w',
         nth_error (TreeSearch.create_children product K node) i = Some child_i ->
         nth_error (TreeSearch.create_children product K node) j = Some child_j ->
         In w (words child_i) -> In w' (words child_j) ->
         reg_a product w = reg_a product w' -> i = j).
Proof.
  split.
  - intros symbol d w Hr.
    assert (Hkey : In (reg_a product w)
                     (map fst (fst (fold_left (classify product)
                                      (all_successors product K node) ([], [])))))
      by (apply maps_key; exists symbol, d, w; split; [exact Hr | reflexivity]).
    apply in_map_iff in Hkey. destruct Hkey as [[key ws] [Hk Hentry]]. simpl in Hk. subst key.
    exists (new_node ws
              (TreeSearch.map_at (reg_a product w)
                 (snd (fold_left (classify product)
                         (all_successors product K node) ([], []))))).
    split; [| split]; simpl.
    + rewrite create_children_maps. apply in_map_iff.
      exists (reg_a product w, ws). split; [reflexivity | exact Hentry].
    + rewrite <- (map_at_entry _ _ _ _ (proj2 (maps_keys product K node)) Hentry).
      apply maps_words. split; [reflexivity | exists symbol, d; exact Hr].
    + apply maps_actions. exists w. split; [exact Hr | reflexivity].
  - intros i j ci cj w w' Hi Hj Hw Hw' Hreg.
    destruct (child_of_entry product K node i ci Hi) as (ki & Hki & Hwi & _).
    destruct (child_of_entry product K node j cj Hj) as (kj & Hkj & Hwj & _).
    rewrite Hwi in Hw. rewrite Hwj in Hw'.
    apply maps_words in Hw. apply maps_words in Hw'.
    destruct Hw as [Hk _]. destruct Hw' as [Hk' _].
    assert (Heq : ki = kj) by congruence. subst kj.
    apply (proj1 (NoDup_nth_error _) (proj2 (maps_keys product K node))).
    + apply nth_error_Some. congruence.
    + congruence.
Qed.

End children_facts.

(* ================================================================== *)
(** * The tree that [build_tree] builds *)
(* ================================================================== *)

Module tree_facts.
Import logic search search_properties search_facts labeling_facts.
Import expansion_properties label_properties expansion_facts.

Unset Implicit Arguments.

(** What the invariant says about a node once the queue is empty. *)
Lemma complete_node (product : SynchronousProduct) (ctl env : list ActionType)
  (K : RegionIndex) (incremental : bool) (prefix : NodePtr)
  (above : list (list CanonicalABWord)) (n : Node) :
  tree_ok product ctl env K incremental [] prefix above n ->
  is_expanded n = true
  /\ (state n, map static (children n)) = kind product K above n
  /\ label_local ctl env incremental n.
Proof.
  intros Hok. inversion Hok as [prefix0 above0 n0 [_ Hnode] _]; subst prefix0 above0 n0.
  destruct (is_expanded n); [| destruct Hnode as (_ & _ & _ & [])].
  destruct Hnode as [Hkind Hlabel]. repeat split; assumption.
Qed.

Lemma built_tree_ok (product : SynchronousProduct)
  (controller_actions environment_actions : list ActionType) (K : RegionIndex)
  (incremental_labeling : bool) (s : TreeSearch.t) (tops : list nat) :
  increments_in_range product K ->
  TreeSearch.new product controller_actions environment_actions K incremental_labeling false
  = TreeSearch.Passed s ->
  TreeSearch.pool_ (TreeSearch.build_tree product tops s) = [] ->
  tree_ok product controller_actions environment_actions K incremental_labeling []
    [] [] (TreeSearch.tree_root_ (TreeSearch.build_tree product tops s))
  /\ static (TreeSearch.tree_root_ (TreeSearch.build_tree product tops s))
     = ([initial_canonical_word product K], []).
Proof.
  intros Hrange Hnew Hbuilt.
  destruct (new_search_ok product controller_actions environment_actions K
              incremental_labeling s Hrange Hnew)
    as (Hok & Hctl & Henv & HK & Hinc & Hroot).
  destruct (build_tree_search_ok product tops s Hok)
    as ((_ & _ & Htree) & (Hctl' & Henv' & HK' & Hinc' & _) & Hstatic).
  rewrite Hctl', Henv', HK', Hinc', Hctl, Henv, HK, Hinc, Hbuilt in Htree.
  split; [exact Htree |]. rewrite Hstatic, Hroot. reflexivity.
Qed.

(** X9.  When [build_tree] has emptied the queue (without early
    termination, the jobs taken in any order), every node of the tree is
    expanded.  Its state is [BAD] iff it violates the specification, [GOOD]
    iff it does not and every word contains the sink or an ancestor dominates
    it, and [UNKNOWN] iff it has children, which then carry the words and
    the incoming actions that [create_children] computes.  Without
    incremental labeling every node is still unlabeled. *)
Theorem build_tree_complete
  (product : SynchronousProduct)
  (controller_actions environment_actions : list ActionType) (K : RegionIndex)
  (incremental_labeling : bool) (search : TreeSearch.t) (tops : list nat)
  (Hrange : increments_in_range product K)
  (Hsearch :
     TreeSearch.new product controller_actions environment_actions K
       incremental_labeling false = TreeSearch.Passed search)
  (Hbuilt : TreeSearch.pool_ (TreeSearch.build_tree product tops search) = []) :
  let root := TreeSearch.get_root (TreeSearch.build_tree product tops search) in
  forall (ptr : NodePtr) (node : Node),
    get_node root ptr = Some node ->
    is_expanded node = true
    /\ (state node = BAD <-> violates_specification product node)
    /\ (state node = GOOD
        <-> ~ violates_specification product node
            /\ (sink_in_every_word node \/ dominating_ancestor product root ptr node))
    /\ (state node = UNKNOWN <-> children node <> [])
    /\ (state node = UNKNOWN ->
        map static (children node)
        = map static (TreeSearch.create_children product K node))
    /\ (incremental_labeling = false -> label node = UNLABELED).
Proof.
  intros root ptr node Hnode.
  destruct (built_tree_ok product controller_actions environment_actions K
              incremental_labeling search tops Hrange Hsearch Hbuilt) as [Htree _].
  pose proof (tree_ok_get_node product controller_actions environment_actions K
                incremental_labeling [] ptr [] [] _ node Htree Hnode) as Hok.
  destruct (complete_node _ _ _ _ _ _ _ _ Hok) as (Hexp & Hkind & Hlabel).
  split; [exact Hexp |].
  assert (Hdom : dominated product
                   (ancestor_words []
                      (TreeSearch.tree_root_ (TreeSearch.build_tree product tops search))
                      ptr) node = true
                 <-> dominating_ancestor product root ptr node).
  { unfold dominated, dominating_ancestor. rewrite existsb_exists. split.
    - intros [w [Hin Hd]]. apply (ancestor_words_In ptr _ _ _ _ Hnode) in Hin.
      destruct Hin as [[] | (q & r & a & Hp & Hr & Ha & <-)].
      exists q, r, a. repeat split; assumption.
    - intros (q & r & a & Hp & Hr & Ha & Hd). exists (words a). split; [| assumption].
      apply (ancestor_words_In ptr _ _ _ _ Hnode). right. exists q, r, a.
      repeat split; assumption. }
  rewrite <- is_bad_node_violates, <- has_satisfiable_ata_configuration_false, <- Hdom.
  assert (Hbatch : incremental_labeling = false -> label node = UNLABELED).
  { intros ->. exact Hlabel. }
  assert (Hleaf : map static (children node) = [] -> children node = []).
  { intros H. destruct (children node); [reflexivity | discriminate]. }
  unfold kind in Hkind.
  destruct (TreeSearch.is_bad_node product node).
  { injection Hkind as Hstate Hch. pose proof (Hleaf Hch) as Hnil.
    rewrite Hstate, Hnil.
    split; [tauto |]. split; [| split; [| split; [discriminate | exact Hbatch]]].
    - split; [discriminate | intros [H _]; exfalso; apply H; reflexivity].
    - split; [discriminate | intros H; exfalso; apply H; reflexivity]. }
  destruct (has_satisfiable_ata_configuration node); simpl in Hkind.
  2:{ injection Hkind as Hstate Hch. pose proof (Hleaf Hch) as Hnil.
      rewrite Hstate, Hnil.
      split; [split; discriminate |].
      split; [| split; [| split; [discriminate | exact Hbatch]]].
      - split; [intros _; split; [discriminate | left; reflexivity] | reflexivity].
      - split; [discriminate | intros H; exfalso; apply H; reflexivity]. }
  destruct (dominated product _ node).
  { injection Hkind as Hstate Hch. pose proof (Hleaf Hch) as Hnil.
    rewrite Hstate, Hnil.
    split; [split; discriminate |].
    split; [| split; [| split; [discriminate | exact Hbatch]]].
    - split; [intros _; split; [discriminate | right; reflexivity] | reflexivity].
    - split; [discriminate | intros H; exfalso; apply H; reflexivity]. }
  injection Hkind as Hstate Hch.
  destruct (TreeSearch.create_children product K node) as [| c cs] eqn:Hcs.
  - pose proof (Hleaf Hch) as Hnil. rewrite Hstate, Hnil. simpl.
    split; [split; discriminate |].
    split; [| split; [| split; [discriminate | exact Hbatch]]].
    + split; [discriminate | intros [_ [H | H]]; discriminate].
    + split; [discriminate | intros H; exfalso; apply H; reflexivity].
  - rewrite Hstate.
    split; [split; discriminate |].
    split; [| split; [| split; [intros _; exact Hch | exact Hbatch]]].
    + split; [discriminate | intros [_ [H | H]]; discriminate].
    + split; [| reflexivity]. intros _ H. rewrite H in Hch. discriminate.
Qed.

Lemma build_tree_complete_witness :
  increments_in_range fixtures.plant 0%N
  /\ TreeSearch.new fixtures.plant ["c"] ["e"] 0%N false false
     = TreeSearch.Passed (fixtures.start false)
  /\ TreeSearch.pool_
       (TreeSearch.build_tree fixtures.plant [0; 0; 0]%nat (fixtures.start false)) = []
  /\ forall ptr node,
       get_node
         (TreeSearch.get_root
            (TreeSearch.build_tree fixtures.plant [0; 0; 0]%nat (fixtures.start false)))
         ptr = Some node ->
       is_expanded node = true /\ (state node = UNKNOWN <-> children node <> []).
Proof.
  split; [exact fixture_increments_in_range |].
  split; [reflexivity |]. split; [reflexivity |].
  intros ptr node Hnode.
  destruct (build_tree_complete fixtures.plant ["c"] ["e"] 0%N false (fixtures.start false)
              [0; 0; 0]%nat fixture_increments_in_range eq_refl eq_refl ptr node Hnode)
    as (Hexp & _ & _ & Hinner & _).
  split; assumption.
Defined.

(** The words, the incoming actions and the state of a node. *)
Lemma complete_trees_same_shape (product : SynchronousProduct) (K : RegionIndex)
  (ctl env ctl' env' : list ActionType) (incremental incremental' : bool) (n : Node) :
  forall prefix above n',
    tree_ok product ctl env K incremental [] prefix above n ->
    tree_ok product ctl' env' K incremental' [] prefix above n' ->
    static n = static n' ->
    forall p,
      option_map (fun m => (words m, incoming_actions m, state m)) (get_node n p)
      = option_map (fun m => (words m, incoming_actions m, state m)) (get_node n' p).
Proof.
  induction n as [n IH] using Node_children_ind.
  intros prefix above n' Hok Hok' Hstatic.
  destruct (complete_node _ _ _ _ _ _ _ _ Hok) as (_ & Hkind & _).
  destruct (complete_node _ _ _ _ _ _ _ _ Hok') as (_ & Hkind' & _).
  inversion Hok as [prefix0 above0 n0 _ Hchildren]; subst prefix0 above0 n0.
  inversion Hok' as [prefix0 above0 n0 _ Hchildren']; subst prefix0 above0 n0.
  assert (Hwords : words n = words n') by (injection Hstatic as H _; exact H).
  rewrite (kind_words product K above n n' Hwords), <- Hkind' in Hkind.
  injection Hkind as Hstate Hstatics.
  intros [| i p]; simpl.
  - unfold static in Hstatic. injection Hstatic as _ Hincoming. congruence.
  - assert (H : nth_error (map static (children n)) i
                = nth_error (map static (children n')) i) by (rewrite Hstatics; reflexivity).
    rewrite !nth_error_map in H.
    destruct (nth_error (children n) i) as [c |] eqn:Hc;
      destruct (nth_error (children n') i) as [c' |] eqn:Hc'; simpl in H;
      try discriminate; [| reflexivity].
    rewrite Forall_forall in IH.
    apply (IH c (nth_error_In _ _ Hc) (prefix ++ [i]) (words n :: above) c').
    + apply Hchildren, Hc.
    + rewrite Hwords. apply Hchildren', Hc'.
    + congruence.
Qed.

(** X10.  The tree that [build_tree] builds depends neither on the order in
    which the queue is processed nor on the labeling mode nor on the
    partition of the actions: two runs that empty the queue yield the same
    words, incoming actions and states at every position. *)
Theorem build_tree_order_independent
  (product : SynchronousProduct) (K : RegionIndex)
  (controller_actions environment_actions : list ActionType)
  (controller_actions' environment_actions' : list ActionType)
  (incremental_labeling incremental_labeling' : bool)
  (search search' : TreeSearch.t) (tops tops' : list nat)
  (Hrange : increments_in_range product K)
  (Hsearch :
     TreeSearch.new product controller_actions environment_actions K
       incremental_labeling false = TreeSearch.Passed search)
  (Hsearch' :
     TreeSearch.new product controller_actions' environment_actions' K
       incremental_labeling' false = TreeSearch.Passed search')
  (Hbuilt : TreeSearch.pool_ (TreeSearch.build_tree product tops search) = [])
  (Hbuilt' : TreeSearch.pool_ (TreeSearch.build_tree product tops' search') = []) :
  forall ptr : NodePtr,
    option_map (fun node => (words node, incoming_actions node, state node))
      (get_node (TreeSearch.get_root (TreeSearch.build_tree product tops search)) ptr)
    = option_map (fun node => (words node, incoming_actions node, state node))
        (get_node (TreeSearch.get_root (TreeSearch.build_tree product tops' search')) ptr).
Proof.
  destruct (built_tree_ok product controller_actions environment_actions K
              incremental_labeling search tops Hrange Hsearch Hbuilt) as [Htree Hstatic].
  destruct (built_tree_ok product controller_actions' environment_actions' K
              incremental_labeling' search' tops' Hrange Hsearch' Hbuilt')
    as [Htree' Hstatic'].
  apply (complete_trees_same_shape product K _ _ _ _ _ _ _ [] [] _ Htree Htree').
  rewrite Hstatic, Hstatic'. reflexivity.
Qed.

Lemma build_tree_order_independent_witness :
  increments_in_range fixtures.plant 0%N
  /\ TreeSearch.pool_
       (TreeSearch.build_tree fixtures.plant [0; 0; 0]%nat (fixtures.start false)) = []
  /\ TreeSearch.pool_
       (TreeSearch.build_tree fixtures.plant [0; 1; 0]%nat (fixtures.start true)) = []
  /\ forall ptr : NodePtr,
       option_map (fun node => (words node, incoming_actions node, state node))
         (get_node
            (TreeSearch.get_root
               (TreeSearch.build_tree fixtures.plant [0; 0; 0]%nat (fixtures.start false)))
            ptr)
       = option_map (fun node => (words node, incoming_actions node, state node))
           (get_node
              (TreeSearch.get_root
                 (TreeSearch.build_tree fixtures.plant [0; 1; 0]%nat (fixtures.start true)))
              ptr).
Proof.
  split; [exact fixture_increments_in_range |].
  split; [reflexivity |]. split; [reflexivity |].
  exact (build_tree_order_independent fixtures.plant 0%N ["c"] ["e"] ["c"] ["e"]
           false true (fixtures.start false) (fixtures.start true)
           [0; 0; 0]%nat [0; 1; 0]%nat
           fixture_increments_in_range eq_refl eq_refl eq_refl eq_refl).
Defined.

Lemma unlabel_unfold (n : Node) :
  unlabel n
  = mkNode (words n) (incoming_actions n) (state n) UNLABELED (label_reason n)
      (is_expanded n) (map unlabel (children n)).
Proof. destruct n; reflexivity. Qed.

Lemma static_unlabel (n : Node) : static (unlabel n) = static n.
Proof. destruct n; reflexivity. Qed.

Lemma tree_ok_unlabel (product : SynchronousProduct) (ctl env : list ActionType)
  (K : RegionIndex) (incremental : bool) (n : Node) :
  forall prefix above,
    tree_ok product ctl env K incremental [] prefix above n ->
    tree_ok product ctl env K false [] prefix above (unlabel n).
Proof.
  induction n as [n IH] using Node_children_ind.
  intros prefix above Hok.
  destruct (complete_node _ _ _ _ _ _ _ _ Hok) as (Hexp & Hkind & _).
  inversion Hok as [prefix0 above0 n0 [Hrange _] Hchildren]; subst prefix0 above0 n0.
  rewrite unlabel_unfold. constructor.
  - split; [exact Hrange |]. cbn [is_expanded state children label]. rewrite Hexp.
    split; [| reflexivity].
    rewrite map_map.
    rewrite (map_ext (fun c => static (unlabel c)) static static_unlabel).
    rewrite Hkind. apply kind_words. reflexivity.
  - cbn [children words]. intros i c Hc. rewrite nth_error_map in Hc.
    destruct (nth_error (children n) i) as [c0 |] eqn:Hc0; [| discriminate].
    injection Hc as <-. rewrite Forall_forall in IH.
    apply (IH c0 (nth_error_In _ _ Hc0)). apply Hchildren, Hc0.
Qed.

(** X11.  Under incremental labeling the labels do not depend on the order
    in which the queue is processed: two runs that empty the queue label
    every node alike. *)
Theorem incremental_labels_order_independent
  (product : SynchronousProduct)
  (controller_actions environment_actions : list ActionType) (K : RegionIndex)
  (search search' : TreeSearch.t) (tops tops' : list nat)
  (Hrange : increments_in_range product K)
  (Hsearch :
     TreeSearch.new product controller_actions environment_actions K true false
     = TreeSearch.Passed search)
  (Hsearch' :
     TreeSearch.new product controller_actions environment_actions K true false
     = TreeSearch.Passed search')
  (Hbuilt : TreeSearch.pool_ (TreeSearch.build_tree product tops search) = [])
  (Hbuilt' : TreeSearch.pool_ (TreeSearch.build_tree product tops' search') = []) :
  forall ptr : NodePtr,
    option_map label
      (get_node (TreeSearch.get_root (TreeSearch.build_tree product tops search)) ptr)
    = option_map label
        (get_node (TreeSearch.get_root (TreeSearch.build_tree product tops' search')) ptr).
Proof.
  destruct (built_tree_ok product controller_actions environment_actions K
              true search tops Hrange Hsearch Hbuilt) as [Htree Hstatic].
  destruct (built_tree_ok product controller_actions environment_actions K
              true search' tops' Hrange Hsearch' Hbuilt') as [Htree' Hstatic'].
  pose (sb := TreeSearch.mkTreeSearch controller_actions environment_actions K false false
                (TreeSearch.tree_root_ search) []).
  pose proof (tree_ok_unlabel _ _ _ _ _ _ _ _ Htree) as Hbatch.
  intros ptr.
  destruct (complete_trees_agree product K sb eq_refl _ [] [] _ Hbatch Htree
              (static_unlabel _) ptr) as [H1 _].
  destruct (complete_trees_agree product K sb eq_refl _ [] [] _ Hbatch Htree'
              (eq_trans (static_unlabel _) (eq_trans Hstatic (eq_sym Hstatic'))) ptr)
    as [H2 _].
  unfold TreeSearch.get_root. rewrite <- H1, <- H2. reflexivity.
Qed.

Lemma incremental_labels_order_independent_witness :
  increments_in_range fixtures.plant 0%N
  /\ TreeSearch.pool_
       (TreeSearch.build_tree fixtures.plant [0; 0; 0]%nat (fixtures.start true)) = []
  /\ TreeSearch.pool_
       (TreeSearch.build_tree fixtures.plant [0; 1; 0]%nat (fixtures.start true)) = []
  /\ forall ptr : NodePtr,
       option_map label
         (get_node
            (TreeSearch.get_root
               (TreeSearch.build_tree fixtures.plant [0; 0; 0]%nat (fixtures.start true)))
            ptr)
       = option_map label
           (get_node
              (TreeSearch.get_root
                 (TreeSearch.build_tree fixtures.plant [0; 1; 0]%nat (fixtures.start true)))
              ptr).
Proof.
  split; [exact fixture_increments_in_range |].
  split; [reflexivity |]. split; [reflexivity |].
  exact (incremental_labels_order_independent fixtures.plant ["c"] ["e"] 0%N
           (fixtures.start true) (fixtures.start true) [0; 0; 0]%nat [0; 1; 0]%nat
           fixture_increments_in_range eq_refl eq_refl eq_refl eq_refl).
Defined.

Lemma set_label_set_children_unlabel (l : NodeLabel) (c : bool) (cs : list Node) (n : Node) :
  set_label l c (set_children cs (unlabel n)) = set_label l c (set_children cs n).
Proof. destruct n; reflexivity. Qed.

Lemma label_unlabel (product : SynchronousProduct) (ctl env : list ActionType)
  (K : RegionIndex) (incremental : bool) (s : TreeSearch.t) (n : Node) :
  forall prefix above,
    tree_ok product ctl env K incremental [] prefix above n ->
    TreeSearch.label s (unlabel n) = TreeSearch.label s n.
Proof.
  induction n as [n IH] using Node_children_ind.
  intros prefix above Hok.
  destruct (complete_node _ _ _ _ _ _ _ _ Hok) as (_ & Hkind & _).
  inversion Hok as [prefix0 above0 n0 _ Hchildren]; subst prefix0 above0 n0.
  assert (Hleaf : state n <> UNKNOWN -> children n = []).
  { intros Hnot. pose proof (kind_leaf product K above n _ _ Hkind Hnot) as Hnil.
    destruct (children n); [reflexivity | discriminate]. }
  assert (Hmap : map (TreeSearch.label s) (map unlabel (children n))
                 = map (TreeSearch.label s) (children n)).
  { rewrite map_map. apply map_ext_in. intros c Hc.
    destruct (In_nth_error _ _ Hc) as [i Hi].
    rewrite Forall_forall in IH. apply (IH c Hc _ _ (Hchildren i c Hi)). }
  assert (Hsame : set_children (children n) n = n) by (destruct n; reflexivity).
  assert (Hclosed : forall l,
             state n <> UNKNOWN ->
             set_label l (TreeSearch.terminate_early_ s) (unlabel n)
             = set_label l (TreeSearch.terminate_early_ s) n).
  { intros l Hnot. rewrite <- Hsame at 2. rewrite <- set_label_set_children_unlabel.
    rewrite (Hleaf Hnot). f_equal. rewrite unlabel_unfold, (Hleaf Hnot). reflexivity. }
  rewrite (label_unfold s (unlabel n)), (label_unfold s n).
  replace (state (unlabel n)) with (state n) by (destruct n; reflexivity).
  replace (children (unlabel n)) with (map unlabel (children n)) by (destruct n; reflexivity).
  rewrite Hmap.
  destruct (state n) eqn:Hstate; try (apply Hclosed; discriminate).
  cbn zeta. cbn [children set_children].
  destruct (TreeSearch.label_scan s (map (TreeSearch.label s) (children n)))
    as [[found_bad good] bad].
  destruct (negb found_bad || (good <? bad)%N); apply set_label_set_children_unlabel.
Qed.

Lemma built_tree_ok_own (product : SynchronousProduct)
  (controller_actions environment_actions : list ActionType) (K : RegionIndex)
  (incremental_labeling : bool) (s : TreeSearch.t) (tops : list nat) :
  increments_in_range product K ->
  TreeSearch.new product controller_actions environment_actions K incremental_labeling false
  = TreeSearch.Passed s ->
  TreeSearch.pool_ (TreeSearch.build_tree product tops s) = [] ->
  let built := TreeSearch.build_tree product tops s in
  TreeSearch.terminate_early_ built = false
  /\ tree_ok product (TreeSearch.controller_actions_ built)
       (TreeSearch.environment_actions_ built) K incremental_labeling []
       [] [] (TreeSearch.tree_root_ built).
Proof.
  intros Hrange Hnew Hbuilt built.
  destruct (new_search_ok product controller_actions environment_actions K
              incremental_labeling s Hrange Hnew)
    as (Hok & Hctl & Henv & HK & Hinc & Hroot).
  destruct (build_tree_search_ok product tops s Hok)
    as ((Hte & _ & Htree) & (Hctl' & Henv' & HK' & Hinc' & _) & Hstatic).
  subst built. rewrite HK', Hinc', HK, Hinc, Hbuilt in Htree.
  split; assumption.
Qed.

(** X12.  After a search with incremental labeling that has emptied the
    queue, [label] changes no label: batch labeling of the finished tree
    gives every node the label it already has. *)
Theorem label_after_incremental_labeling
  (product : SynchronousProduct)
  (controller_actions environment_actions : list ActionType) (K : RegionIndex)
  (search : TreeSearch.t) (tops : list nat)
  (Hrange : increments_in_range product K)
  (Hsearch :
     TreeSearch.new product controller_actions environment_actions K true false
     = TreeSearch.Passed search)
  (Hbuilt : TreeSearch.pool_ (TreeSearch.build_tree product tops search) = []) :
  forall ptr : NodePtr,
    option_map label
      (get_node
         (TreeSearch.get_root
            (TreeSearch.label_root (TreeSearch.build_tree product tops search)))
         ptr)
    = option_map label
        (get_node (TreeSearch.get_root (TreeSearch.build_tree product tops search)) ptr).
Proof.
  destruct (built_tree_ok_own product controller_actions environment_actions K
              true search tops Hrange Hsearch Hbuilt) as [Hte Htree].
  pose proof (tree_ok_unlabel _ _ _ _ _ _ _ _ Htree) as Hbatch.
  intros ptr.
  destruct (complete_trees_agree product K _ Hte _ [] [] _ Hbatch Htree
              (static_unlabel _) ptr) as [H _].
  rewrite (label_unlabel _ _ _ _ _ _ _ _ _ Htree) in H.
  exact H.
Qed.

Lemma label_after_incremental_labeling_witness :
  increments_in_range fixtures.plant 0%N
  /\ TreeSearch.pool_
       (TreeSearch.build_tree fixtures.plant [0; 1; 0]%nat (fixtures.start true)) = []
  /\ forall ptr : NodePtr,
       option_map label
         (get_node
            (TreeSearch.get_root
               (TreeSearch.label_root
                  (TreeSearch.build_tree fixtures.plant [0; 1; 0]%nat
                     (fixtures.start true))))
            ptr)
       = option_map label
           (get_node
              (TreeSearch.get_root
                 (TreeSearch.build_tree fixtures.plant [0; 1; 0]%nat (fixtures.start true)))
              ptr).
Proof.
  split; [exact fixture_increments_in_range |]. split; [reflexivity |].
  exact (label_after_incremental_labeling fixtures.plant ["c"] ["e"] 0%N
           (fixtures.start true) [0; 1; 0]%nat
           fixture_increments_in_range eq_refl eq_refl).
Defined.

End tree_facts.

(* ================================================================== *)
(** * What [label] does to a tree *)
(* ================================================================== *)

Module label_facts.
Import logic search search_properties search_facts label_properties.

Unset Implicit Arguments.

Lemma cancel_unfold (n : Node) :
  cancel n
  = match label n with
    | UNLABELED =>
        mkNode (words n) (incoming_actions n) (state n) CANCELED (label_reason n)
          (is_expanded n) (map cancel (children n))
    | _ => n
    end.
Proof. destruct n; reflexivity. Qed.

Lemma same_tree_refl (a : Node) : same_tree a a.
Proof. intros p. reflexivity. Qed.

Lemma same_tree_trans (a b c : Node) : same_tree a b -> same_tree b c -> same_tree a c.
Proof. intros H1 H2 p. rewrite H1. apply H2. Qed.

(** Two nodes that agree on their own data and whose children are the same
    trees, one by one. *)
Lemma same_tree_children (f : Node -> Node) (a b : Node) :
  unlabeled_part a = unlabeled_part b ->
  children a = map f (children b) ->
  (forall c, In c (children b) -> same_tree (f c) c) ->
  same_tree a b.
Proof.
  intros Hdata Hch Hf [| i p]; simpl.
  - rewrite Hdata. reflexivity.
  - rewrite Hch, nth_error_map.
    destruct (nth_error (children b) i) as [c |] eqn:Hc; simpl; [| reflexivity].
    apply (Hf c (nth_error_In _ _ Hc)).
Qed.

Lemma same_tree_cancel (n : Node) : same_tree (cancel n) n.
Proof.
  induction n as [n IH] using Node_children_ind. rewrite Forall_forall in IH.
  rewrite cancel_unfold. destruct (label n); try apply same_tree_refl.
  apply (same_tree_children cancel); [reflexivity | reflexivity | exact IH].
Qed.

Lemma same_tree_set_label (l : NodeLabel) (c : bool) (n : Node) :
  same_tree (set_label l c n) n.
Proof.
  destruct c.
  - apply (same_tree_children cancel).
    + unfold unlabeled_part.
      rewrite words_set_label, incoming_actions_set_label, state_set_label,
        label_reason_set_label, is_expanded_set_label. reflexivity.
    + rewrite children_set_label. reflexivity.
    + intros ch _. apply same_tree_cancel.
  - apply (same_tree_children (fun ch => ch)).
    + reflexivity.
    + rewrite children_set_label, map_id. reflexivity.
    + intros ch _. apply same_tree_refl.
Qed.

(** X13.  [label] changes labels only: at every position the tree has the
    same words, incoming actions, state, label reason and expansion flag as
    before, and no node is added or removed. *)
Theorem label_keeps_tree (s : TreeSearch.t) (node : Node) :
  forall ptr : NodePtr,
    option_map unlabeled_part (get_node (TreeSearch.label s node) ptr)
    = option_map unlabeled_part (get_node node ptr).
Proof.
  change (same_tree (TreeSearch.label s node) node).
  induction node as [node IH] using Node_children_ind. rewrite Forall_forall in IH.
  rewrite label_unfold.
  destruct (state node); try apply same_tree_set_label.
  cbn zeta.
  destruct (TreeSearch.label_scan s
              (children (set_children (map (TreeSearch.label s) (children node)) node)))
    as [[found_bad good] bad].
  assert (Hinner : same_tree (set_children (map (TreeSearch.label s) (children node)) node)
                     node).
  { apply (same_tree_children (TreeSearch.label s)); [reflexivity | reflexivity | exact IH]. }
  destruct (negb found_bad || (good <? bad)%N);
    (eapply same_tree_trans; [apply same_tree_set_label | exact Hinner]).
Qed.

Lemma cancel_cancel (n : Node) : cancel (cancel n) = cancel n.
Proof.
  rewrite (cancel_unfold n). destruct (label n) eqn:Hl.
  - rewrite cancel_unfold. reflexivity.
  - apply cancel_labeled. congruence.
  - apply cancel_labeled. congruence.
  - apply cancel_labeled. congruence.
Qed.

Lemma set_label_set_label (l : NodeLabel) (c : bool) (n : Node) :
  set_label l c (set_label l c n) = set_label l c n.
Proof.
  destruct n as [ws ia st lb lr ex cs]. unfold set_label, assign_label, set_children.
  destruct c; simpl; [| reflexivity].
  rewrite map_map. f_equal. apply map_ext. intros a. apply cancel_cancel.
Qed.

(** X14.  [label] is idempotent: labeling a tree that [label] has labeled
    changes nothing. *)
Theorem label_idempotent (s : TreeSearch.t) (node : Node) :
  TreeSearch.label s (TreeSearch.label s node) = TreeSearch.label s node.
Proof.
  induction node as [node IH] using Node_children_ind. rewrite Forall_forall in IH.
  destruct (state node) eqn:Hstate.
  2:{ rewrite (label_unfold s node), Hstate.
      rewrite label_unfold, state_set_label, Hstate. apply set_label_set_label. }
  2:{ rewrite (label_unfold s node), Hstate.
      rewrite label_unfold, state_set_label, Hstate. apply set_label_set_label. }
  2:{ rewrite (label_unfold s node), Hstate.
      rewrite label_unfold, state_set_label, Hstate. apply set_label_set_label. }
  set (cs' := map (TreeSearch.label s) (children node)).
  assert (Hm : exists l,
             TreeSearch.label s node
             = set_label l (TreeSearch.terminate_early_ s) (set_children cs' node)
             /\ l = (let '(found_bad, good, bad) := TreeSearch.label_scan s cs' in
                     if negb found_bad || (good <? bad)%N then TOP else BOTTOM)).
  { rewrite label_unfold, Hstate. cbn zeta. cbn [children set_children]. fold cs'.
    destruct (TreeSearch.label_scan s cs') as [[found_bad good] bad].
    destruct (negb found_bad || (good <? bad)%N); eexists; split; reflexivity. }
  destruct Hm as [l [Hm Hl]].
  assert (Hch : children (TreeSearch.label s node) = cs').
  { rewrite Hm, children_set_label. cbn [children set_children].
    destruct (TreeSearch.terminate_early_ s); [apply map_cancel_map_label | reflexivity]. }
  assert (Hrec : map (TreeSearch.label s) cs' = cs').
  { unfold cs'. rewrite map_map. apply map_ext_in. exact IH. }
  rewrite (label_unfold s (TreeSearch.label s node)).
  rewrite Hch, Hrec.
  replace (state (TreeSearch.label s node)) with UNKNOWN
    by (rewrite Hm, state_set_label; symmetry; exact Hstate).
  cbn zeta. cbn [children set_children].
  assert (Hsame : set_children cs' (TreeSearch.label s node) = TreeSearch.label s node).
  { rewrite <- Hch. apply set_children_children. }
  rewrite Hsame.
  assert (Hfinal : set_label l (TreeSearch.terminate_early_ s) (TreeSearch.label s node)
                   = TreeSearch.label s node).
  { rewrite Hm. apply set_label_set_label. }
  rewrite Hl in Hfinal.
  destruct (TreeSearch.label_scan s cs') as [[found_bad good] bad].
  destruct (negb found_bad || (good <? bad)%N); exact Hfinal.
Qed.

End label_facts.

(* ================================================================== *)
(** * The automaton that [translate] returns *)
(* ================================================================== *)

Module translation_facts.
Import logic automata automata.ata mtl_ata_translation ata_properties translator_facts.

Unset Implicit Arguments.

(** X17.  [create_negated_contains] is the negation of [create_contains]:
    for every interval and every clock value, the one holds iff the other
    does not. *)
Theorem create_negated_contains_negates
  (duration : TimeInterval) (active : MTLFormula -> TimePoint -> bool) (v : TimePoint) :
  holds active v (create_negated_contains duration)
  = negb (holds active v (create_contains duration)).
Proof.
  unfold create_negated_contains, create_contains, create_disjunction, create_conjunction.
  destruct (lowerBoundType duration); destruct (upperBoundType duration); simpl;
    unfold is_satisfied;
    destruct (Qcompare v (lower duration)); destruct (Qcompare v (upper duration));
    reflexivity.
Qed.

Lemma subformulas_self (f : MTLFormula) : In f (subformulas f).
Proof. destruct f; left; reflexivity. Qed.

Lemma subformulas_trans (f g h : MTLFormula) :
  In g (subformulas f) -> In h (subformulas g) -> In h (subformulas f).
Proof.
  induction f; simpl; intros [<- | Hg] Hh; try exact Hh; try destruct Hg; right.
  - apply in_app_iff in Hg. apply in_app_iff. destruct Hg; [left | right]; auto.
  - apply in_app_iff in Hg. apply in_app_iff. destruct Hg; [left | right]; auto.
  - auto.
  - apply in_app_iff in Hg. apply in_app_iff. destruct Hg; [left | right]; auto.
  - apply in_app_iff in Hg. apply in_app_iff. destruct Hg; [left | right]; auto.
Qed.

Lemma init_formula
  (formula : MTLFormula) (ap : AtomicProposition) (first : bool) (g : Formula)
  (Hinit : init formula ap first = Ok g) :
  (forall location,
      In location (formula_locations g) ->
      In location (subformulas formula)
      /\ (get_operator location = LUNTIL \/ get_operator location = LDUNTIL))
  /\ (if first then reset_free g else locations_reset g) = true.
Proof.
  revert g Hinit.
  induction formula as [| | a | f1 IH1 f2 IH2 | f1 IH1 f2 IH2 | f IH
                        | f1 IH1 f2 IH2 i | f1 IH1 f2 IH2 i];
    intros g Hinit; simpl in Hinit.
  - injection Hinit as <-. split; [intros l [] | destruct first; reflexivity].
  - injection Hinit as <-. split; [intros l [] | destruct first; reflexivity].
  - destruct (AtomicProposition_eq_dec a ap); injection Hinit as <-;
      (split; [intros l [] | destruct first; reflexivity]).
  - destruct (init f1 ap first) as [g1 |]; [| discriminate].
    destruct (init f2 ap first) as [g2 |]; [| discriminate].
    simpl in Hinit. injection Hinit as <-.
    destruct (IH1 g1 eq_refl) as [H1 R1]. destruct (IH2 g2 eq_refl) as [H2 R2].
    split.
    + intros l Hl. simpl in Hl. apply in_app_iff in Hl. simpl.
      destruct Hl as [Hl | Hl]; [destruct (H1 l Hl) | destruct (H2 l Hl)];
        (split; [right; apply in_app_iff; auto | assumption]).
    + unfold create_conjunction. destruct first; simpl; rewrite R1, R2; reflexivity.
  - destruct (init f1 ap first) as [g1 |]; [| discriminate].
    destruct (init f2 ap first) as [g2 |]; [| discriminate].
    simpl in Hinit. injection Hinit as <-.
    destruct (IH1 g1 eq_refl) as [H1 R1]. destruct (IH2 g2 eq_refl) as [H2 R2].
    split.
    + intros l Hl. simpl in Hl. apply in_app_iff in Hl. simpl.
      destruct Hl as [Hl | Hl]; [destruct (H1 l Hl) | destruct (H2 l Hl)];
        (split; [right; apply in_app_iff; auto | assumption]).
    + unfold create_disjunction. destruct first; simpl; rewrite R1, R2; reflexivity.
  - destruct f; try discriminate.
    + injection Hinit as <-. split; [intros l [] | destruct first; reflexivity].
    + injection Hinit as <-. split; [intros l [] | destruct first; reflexivity].
    + destruct (AtomicProposition_eq_dec a ap); injection Hinit as <-;
        (split; [intros l [] | destruct first; reflexivity]).
  - destruct first; injection Hinit as <-; (split; [| reflexivity]);
      intros l [<- | []]; (split; [left; reflexivity | left; reflexivity]).
  - destruct first; injection Hinit as <-; (split; [| reflexivity]);
      intros l [<- | []]; (split; [left; reflexivity | right; reflexivity]).
Qed.

(** X15.  The formula that [init] returns refers only to until and dual
    until subformulas of its argument.  With [first] set it resets no clock;
    otherwise every location in it stands directly below a clock reset. *)
Theorem init_locations
  (formula : MTLFormula) (ap : AtomicProposition) (first : bool) (g : Formula)
  (Hinit : init formula ap first = Ok g) :
  (forall location,
      In location (formula_locations g) ->
      In location (subformulas formula)
      /\ (get_operator location = LUNTIL \/ get_operator location = LDUNTIL))
  /\ (if first then reset_free g else locations_reset g) = true.
Proof.
  destruct (init_formula formula ap first g Hinit) as [Hlocations Hresets].
  split.
  - intros location Hin. destruct (Hlocations location Hin) as [Hsub Hop].
    split; [exact Hsub | exact Hop].
  - destruct first; exact Hresets.
Qed.

Lemma init_locations_witness :
  init fixtures.phi (mkAP "c") false
  = Ok (ResetClockFormula (LocationFormula fixtures.phi))
  /\ (forall location,
         In location
           (formula_locations (ResetClockFormula (LocationFormula fixtures.phi))) ->
         In location (subformulas fixtures.phi)
         /\ (get_operator location = LUNTIL \/ get_operator location = LDUNTIL))
  /\ locations_reset (ResetClockFormula (LocationFormula fixtures.phi)) = true.
Proof.
  split; [reflexivity |].
  exact (init_locations fixtures.phi (mkAP "c") false
           (ResetClockFormula (LocationFormula fixtures.phi)) eq_refl).
Defined.

(** The checks of the repository's test of the clock constraints. *)
Example clock_constraints_satisfied :
  map (is_satisfied (less 1%Q)) [0%Q; 1%Q; 2%Q] = [true; false; false]
  /\ map (is_satisfied (less_equal 1%Q)) [0%Q; 1%Q; 2%Q] = [true; true; false]
  /\ map (is_satisfied (equal_to 1%Q)) [0%Q; 1%Q; 2%Q] = [false; true; false]
  /\ map (is_satisfied (greater_equal 1%Q)) [0%Q; 1%Q; 2%Q] = [false; true; true]
  /\ map (is_satisfied (greater 1%Q)) [0%Q; 1%Q; 2%Q] = [false; false; true].
Proof. repeat split. Qed.

Lemma for_each_Ok (A B : Type) (f : A -> result B) (l : list A) :
  forall bs, for_each f l = Ok bs -> Forall2 (fun a b => f a = Ok b) l bs.
Proof.
  induction l as [| a l IH]; intros bs H; simpl in H.
  - injection H as <-. constructor.
  - destruct (f a) as [b |] eqn:Hb; [| discriminate]. simpl in H.
    destruct (for_each f l) as [bs' |]; [| discriminate]. simpl in H.
    injection H as <-. constructor; [exact Hb | apply IH; reflexivity].
Qed.

Lemma Forall2_In_l (A B : Type) (R : A -> B -> Prop) (l : list A) (l' : list B) :
  Forall2 R l l' -> forall a, In a l -> exists b, In b l' /\ R a b.
Proof.
  induction 1 as [| x y l l' Hr _ IH]; intros a Ha; [destruct Ha |].
  destruct Ha as [<- | Ha].
  - exists y. split; [left; reflexivity | exact Hr].
  - destruct (IH a Ha) as [b [Hb Hab]]. exists b. split; [right; exact Hb | exact Hab].
Qed.

Lemma Forall2_In_r (A B : Type) (R : A -> B -> Prop) (l : list A) (l' : list B) :
  Forall2 R l l' -> forall b, In b l' -> exists a, In a l /\ R a b.
Proof.
  induction 1 as [| x y l l' Hr _ IH]; intros b Hb; [destruct Hb |].
  destruct Hb as [<- | Hb].
  - exists x. split; [left; reflexivity | exact Hr].
  - destruct (IH b Hb) as [a [Ha Hab]]. exists a. split; [right; exact Ha | exact Hab].
Qed.

(** What [translate] returns, when it returns. *)
Lemma translate_Ok (input_formula : MTLFormula) (alphabet : list AtomicProposition)
  (ata : AlternatingTimedAutomaton) :
  translate input_formula alphabet = Ok ata ->
  let formula := to_positive_normal_form input_formula in
  exists transitions,
    Forall2
      (fun symbol ts =>
         symbol_transitions formula (get_subformulas_of_type formula LUNTIL)
           (get_subformulas_of_type formula LDUNTIL) symbol = Ok ts)
      (effective_alphabet input_formula alphabet) transitions
    /\ ata = mkATA (effective_alphabet input_formula alphabet) (MAtom l0)
               (get_subformulas_of_type formula LDUNTIL) (List.concat transitions)
               (MAtom sink).
Proof.
  intros H formula. unfold translate in H. fold formula in H.
  change (match alphabet with
          | [] => get_alphabet formula
          | _ :: _ => alphabet
          end) with (effective_alphabet input_formula alphabet) in H.
  destruct (0 <? count_occ AtomicProposition_eq_dec
                   (effective_alphabet input_formula alphabet) l0)%nat; [discriminate |].
  destruct (for_each _ (effective_alphabet input_formula alphabet)) as [ts |] eqn:Hts;
    [| discriminate].
  simpl in H. injection H as <-. exists ts. split; [| reflexivity].
  apply for_each_Ok, Hts.
Qed.

(** The transitions for one symbol. *)
Lemma symbol_transitions_Ok (formula : MTLFormula) (untils dual_untils : formula_set)
  (symbol : AtomicProposition) (ts : list Transition) :
  symbol_transitions formula untils dual_untils symbol = Ok ts ->
  exists f0 us ds,
    init formula symbol true = Ok f0
    /\ Forall2 (fun u t => until_transition symbol u = Ok t) untils us
    /\ Forall2 (fun u t => dual_until_transition symbol u = Ok t) dual_untils ds
    /\ ts = mkTransition (MAtom l0) (ap_ symbol) f0 :: us ++ ds.
Proof.
  unfold symbol_transitions. intros H.
  destruct (init formula symbol true) as [f0 |]; [| discriminate]. simpl in H.
  destruct (for_each (until_transition symbol) untils) as [us |] eqn:Hus;
    [| discriminate]. simpl in H.
  destruct (for_each (dual_until_transition symbol) dual_untils) as [ds |] eqn:Hds;
    [| discriminate]. simpl in H.
  injection H as <-. exists f0, us, ds.
  split; [reflexivity |]. split; [apply for_each_Ok, Hus |].
  split; [apply for_each_Ok, Hds | reflexivity].
Qed.

Lemma create_contains_locations (duration : TimeInterval) :
  formula_locations (create_contains duration) = [].
Proof.
  unfold create_contains.
  destruct (lowerBoundType duration); destruct (upperBoundType duration); reflexivity.
Qed.

Lemma create_negated_contains_locations (duration : TimeInterval) :
  formula_locations (create_negated_contains duration) = [].
Proof.
  unfold create_negated_contains.
  destruct (lowerBoundType duration); destruct (upperBoundType duration); reflexivity.
Qed.

Lemma until_transition_Ok (symbol : AtomicProposition) (u : MTLFormula) (t : Transition) :
  until_transition symbol u = Ok t ->
  source_ t = u /\ symbol_ t = ap_ symbol
  /\ forall location, In location (formula_locations (formula_ t)) ->
       In location (subformulas u)
       /\ (get_operator location = LUNTIL \/ get_operator location = LDUNTIL).
Proof.
  destruct u; try discriminate. cbn [until_transition]. intros H.
  destruct (init u2 symbol false) as [fb |] eqn:Hb; [| discriminate]. cbn [bind] in H.
  destruct (init u1 symbol false) as [ff |] eqn:Hf; [| discriminate]. cbn [bind] in H.
  injection H as <-. cbn [source_ symbol_ formula_].
  split; [reflexivity |]. split; [reflexivity |].
  intros l Hl. unfold create_disjunction, create_conjunction in Hl.
  cbn [formula_locations] in Hl.
  rewrite create_contains_locations, app_nil_r in Hl.
  apply in_app_iff in Hl. destruct Hl as [Hl | Hl].
  - destruct (proj1 (init_formula _ _ _ _ Hb) l Hl) as [Hs Hop].
    split; [right; apply in_app_iff; right; exact Hs | exact Hop].
  - apply in_app_iff in Hl. destruct Hl as [Hl | [<- | []]].
    + destruct (proj1 (init_formula _ _ _ _ Hf) l Hl) as [Hs Hop].
      split; [right; apply in_app_iff; left; exact Hs | exact Hop].
    + split; [left; reflexivity | left; reflexivity].
Qed.

Lemma dual_until_transition_Ok (symbol : AtomicProposition) (u : MTLFormula)
  (t : Transition) :
  dual_until_transition symbol u = Ok t ->
  source_ t = u /\ symbol_ t = ap_ symbol
  /\ forall location, In location (formula_locations (formula_ t)) ->
       In location (subformulas u)
       /\ (get_operator location = LUNTIL \/ get_operator location = LDUNTIL).
Proof.
  destruct u; try discriminate. cbn [dual_until_transition]. intros H.
  destruct (init u2 symbol false) as [fb |] eqn:Hb; [| discriminate]. cbn [bind] in H.
  destruct (init u1 symbol false) as [ff |] eqn:Hf; [| discriminate]. cbn [bind] in H.
  injection H as <-. cbn [source_ symbol_ formula_].
  split; [reflexivity |]. split; [reflexivity |].
  intros l Hl. unfold create_disjunction, create_conjunction in Hl.
  cbn [formula_locations] in Hl.
  rewrite create_negated_contains_locations, app_nil_r in Hl.
  apply in_app_iff in Hl. destruct Hl as [Hl | Hl].
  - destruct (proj1 (init_formula _ _ _ _ Hb) l Hl) as [Hs Hop].
    split; [right; apply in_app_iff; right; exact Hs | exact Hop].
  - apply in_app_iff in Hl. destruct Hl as [Hl | [<- | []]].
    + destruct (proj1 (init_formula _ _ _ _ Hf) l Hl) as [Hs Hop].
      split; [right; apply in_app_iff; left; exact Hs | exact Hop].
    + split; [left; reflexivity | right; reflexivity].
Qed.

Lemma init_admitted (formula : MTLFormula) (ap : AtomicProposition) (first : bool) :
  init_admits formula = true -> exists g, init formula ap first = Ok g.
Proof.
  induction formula as [| | a | f1 IH1 f2 IH2 | f1 IH1 f2 IH2 | f IH
                        | f1 IH1 f2 IH2 i | f1 IH1 f2 IH2 i]; cbn; intros H.
  - eauto.
  - eauto.
  - destruct (AtomicProposition_eq_dec a ap); eauto.
  - apply andb_true_iff in H. destruct H as [H1 H2].
    destruct (IH1 H1) as [g1 ->]. destruct (IH2 H2) as [g2 ->]. cbn. eauto.
  - apply andb_true_iff in H. destruct H as [H1 H2].
    destruct (IH1 H1) as [g1 ->]. destruct (IH2 H2) as [g2 ->]. cbn. eauto.
  - destruct f; try discriminate; eauto.
    destruct (AtomicProposition_eq_dec a ap); eauto.
  - destruct first; eauto.
  - destruct first; eauto.
Qed.

Lemma init_refused (formula : MTLFormula) (ap : AtomicProposition) (first : bool) :
  init_admits formula = false ->
  init formula ap first = Throw (logic_error not_pnf_message).
Proof.
  induction formula as [| | a | f1 IH1 f2 IH2 | f1 IH1 f2 IH2 | f IH
                        | f1 IH1 f2 IH2 i | f1 IH1 f2 IH2 i]; cbn; intros H;
    try discriminate.
  - destruct (init_admits f1) eqn:H1.
    + destruct (init_admitted f1 ap first H1) as [g1 ->]. cbn in *.
      rewrite (IH2 H). reflexivity.
    + rewrite (IH1 eq_refl). reflexivity.
  - destruct (init_admits f1) eqn:H1.
    + destruct (init_admitted f1 ap first H1) as [g1 ->]. cbn in *.
      rewrite (IH2 H). reflexivity.
    + rewrite (IH1 eq_refl). reflexivity.
  - destruct f; try discriminate; reflexivity.
Qed.

Lemma is_pnf_admitted (formula : MTLFormula) :
  is_pnf formula = true -> init_admits formula = true.
Proof.
  induction formula as [| | a | f1 IH1 f2 IH2 | f1 IH1 f2 IH2 | f IH
                        | f1 IH1 f2 IH2 i | f1 IH1 f2 IH2 i]; cbn; intros H;
    try reflexivity.
  - apply andb_true_iff in H. destruct H as [H1 H2]. rewrite (IH1 H1), (IH2 H2). reflexivity.
  - apply andb_true_iff in H. destruct H as [H1 H2]. rewrite (IH1 H1), (IH2 H2). reflexivity.
  - destruct f; try discriminate; reflexivity.
Qed.

(** X16.  [init] returns a formula exactly for the formulas in which, below
    conjunctions and disjunctions, a negation stands only above [TRUE],
    [FALSE] or an atomic proposition, and throws [std::logic_error] for all
    others.  Every formula in positive normal form is among the former. *)
Theorem init_result (formula : MTLFormula) (ap : AtomicProposition) (first : bool) :
  (init_admits formula = true <-> exists g, init formula ap first = Ok g)
  /\ (init_admits formula = false
      <-> init formula ap first = Throw (logic_error not_pnf_message))
  /\ (is_pnf formula = true -> init_admits formula = true).
Proof.
  split; [| split; [| apply is_pnf_admitted]].
  - split; [apply init_admitted |]. intros [g Hg].
    destruct (init_admits formula) eqn:H; [reflexivity |].
    rewrite (init_refused formula ap first H) in Hg. discriminate.
  - split; [apply init_refused |]. intros Hthrow.
    destruct (init_admits formula) eqn:H; [| reflexivity].
    destruct (init_admitted formula ap first H) as [g Hg]. rewrite Hg in Hthrow.
    discriminate.
Qed.

(** A transition of the automaton that [translate] returns. *)
Lemma translate_transition (input_formula : MTLFormula)
  (alphabet : list AtomicProposition) (ata : AlternatingTimedAutomaton) :
  translate input_formula alphabet = Ok ata ->
  let formula := to_positive_normal_form input_formula in
  forall t,
    In t (transitions_ ata)
    <-> exists symbol,
          In symbol (effective_alphabet input_formula alphabet)
          /\ ((exists f0, init formula symbol true = Ok f0
                          /\ t = mkTransition (MAtom l0) (ap_ symbol) f0)
              \/ (exists u, In u (get_subformulas_of_type formula LUNTIL)
                            /\ until_transition symbol u = Ok t)
              \/ (exists u, In u (get_subformulas_of_type formula LDUNTIL)
                            /\ dual_until_transition symbol u = Ok t)).
Proof.
  intros H formula t.
  destruct (translate_Ok input_formula alphabet ata H) as [tss [Hall ->]].
  fold formula in Hall. cbn [transitions_]. rewrite in_concat. split.
  - intros [ts [Hts Ht]].
    destruct (Forall2_In_r _ _ _ _ _ Hall ts Hts) as [symbol [Hsymbol Hok]].
    destruct (symbol_transitions_Ok _ _ _ _ _ Hok) as (f0 & us & ds & H0 & Hus & Hds & ->).
    exists symbol. split; [exact Hsymbol |].
    destruct Ht as [<- | Ht]; [left; exists f0; split; [exact H0 | reflexivity] |].
    apply in_app_iff in Ht. destruct Ht as [Ht | Ht].
    + right. left. destruct (Forall2_In_r _ _ _ _ _ Hus t Ht) as [u [Hu Hut]].
      exists u. split; assumption.
    + right. right. destruct (Forall2_In_r _ _ _ _ _ Hds t Ht) as [u [Hu Hut]].
      exists u. split; assumption.
  - intros [symbol [Hsymbol Hcase]].
    destruct (Forall2_In_l _ _ _ _ _ Hall symbol Hsymbol) as [ts [Hts Hok]].
    exists ts. split; [exact Hts |].
    destruct (symbol_transitions_Ok _ _ _ _ _ Hok) as (f0 & us & ds & H0 & Hus & Hds & ->).
    destruct Hcase as [[f0' [H0' ->]] | [[u [Hu Hut]] | [u [Hu Hut]]]].
    + left. congruence.
    + right. apply in_app_iff. left.
      destruct (Forall2_In_l _ _ _ _ _ Hus u Hu) as [t' [Ht' Hut']]. congruence.
    + right. apply in_app_iff. right.
      destruct (Forall2_In_l _ _ _ _ _ Hds u Hu) as [t' [Ht' Hut']]. congruence.
Qed.

(** X18.  The automaton that [translate] returns has the effective
    alphabet, the initial location [l0], the sink location [sink] and, as
    accepting locations, the dual until subformulas of the normal form.
    Every transition starts at [l0], at an until or at a dual until
    subformula and reads a symbol of the alphabet, and each of these
    locations has a transition for every symbol of the alphabet. *)
Theorem translate_transitions
  (input_formula : MTLFormula) (alphabet : list AtomicProposition)
  (ata : AlternatingTimedAutomaton)
  (Htranslate : translate input_formula alphabet = Ok ata) :
  let formula := to_positive_normal_form input_formula in
  alphabet_ ata = effective_alphabet input_formula alphabet
  /\ initial_location_ ata = MAtom l0
  /\ sink_location_ ata = MAtom sink
  /\ (forall location,
         In location (final_locations_ ata)
         <-> In location (subformulas formula) /\ get_operator location = LDUNTIL)
  /\ (forall t,
         In t (transitions_ ata) ->
         has_transitions formula (source_ t)
         /\ exists symbol, In symbol (alphabet_ ata) /\ symbol_ t = ap_ symbol)
  /\ (forall location symbol,
         has_transitions formula location -> In symbol (alphabet_ ata) ->
         exists t,
           In t (transitions_ ata) /\ source_ t = location /\ symbol_ t = ap_ symbol).
Proof.
  intros formula.
  pose proof (translate_transition input_formula alphabet ata Htranslate) as Ht.
  fold formula in Ht.
  destruct (translate_Ok input_formula alphabet ata Htranslate) as [tss [Hall Hata]].
  fold formula in Hall, Hata.
  assert (Halphabet : alphabet_ ata = effective_alphabet input_formula alphabet)
    by (rewrite Hata; reflexivity).
  split; [exact Halphabet |].
  split; [rewrite Hata; reflexivity |]. split; [rewrite Hata; reflexivity |].
  split; [intros l; rewrite Hata; apply get_subformulas_of_type_In |].
  rewrite Halphabet. split.
  - intros t Hin. apply Ht in Hin. destruct Hin as [symbol [Hsymbol Hcase]].
    destruct Hcase as [[f0 [_ ->]] | [[u [Hu Hut]] | [u [Hu Hut]]]].
    + split; [left; reflexivity | exists symbol; split; [exact Hsymbol | reflexivity]].
    + destruct (until_transition_Ok _ _ _ Hut) as (Hs & Hsym & _).
      split; [rewrite Hs; right; left; exact Hu | exists symbol; split; assumption].
    + destruct (dual_until_transition_Ok _ _ _ Hut) as (Hs & Hsym & _).
      split; [rewrite Hs; right; right; exact Hu | exists symbol; split; assumption].
  - intros location symbol Hloc Hsymbol.
    destruct (Forall2_In_l _ _ _ _ _ Hall symbol Hsymbol) as [ts [Hts Hok]].
    destruct (symbol_transitions_Ok _ _ _ _ _ Hok) as (f0 & us & ds & H0 & Hus & Hds & ->).
    destruct Hloc as [-> | [Hu | Hu]].
    + exists (mkTransition (MAtom l0) (ap_ symbol) f0).
      split; [| split; reflexivity].
      apply Ht. exists symbol. split; [exact Hsymbol |]. left. exists f0. split; auto.
    + destruct (Forall2_In_l _ _ _ _ _ Hus location Hu) as [t [_ Hut]].
      destruct (until_transition_Ok _ _ _ Hut) as (Hs & Hsym & _).
      exists t. split; [| split; assumption].
      apply Ht. exists symbol. split; [exact Hsymbol |]. right. left.
      exists location. split; assumption.
    + destruct (Forall2_In_l _ _ _ _ _ Hds location Hu) as [t [_ Hut]].
      destruct (dual_until_transition_Ok _ _ _ Hut) as (Hs & Hsym & _).
      exists t. split; [| split; assumption].
      apply Ht. exists symbol. split; [exact Hsymbol |]. right. right.
      exists location. split; assumption.
Qed.

Lemma translate_transitions_witness :
  exists ata,
    translate fixtures.phi [] = Ok ata
    /\ forall location symbol,
         has_transitions (to_positive_normal_form fixtures.phi) location ->
         In symbol (alphabet_ ata) ->
         exists t,
           In t (transitions_ ata) /\ source_ t = location /\ symbol_ t = ap_ symbol.
Proof.
  eexists. split; [reflexivity |].
  exact (proj2 (proj2 (proj2 (proj2 (proj2
           (translate_transitions fixtures.phi [] _ eq_refl)))))).
Defined.

(** X19.  The automaton that [translate] returns is closed: every location
    that a transition formula refers to is an until or a dual until
    subformula of the normal form, which has transitions of its own.  The
    initial location is referred to nowhere, and its transitions reset no
    clock. *)
Theorem translate_closed
  (input_formula : MTLFormula) (alphabet : list AtomicProposition)
  (ata : AlternatingTimedAutomaton)
  (Htranslate : translate input_formula alphabet = Ok ata) :
  forall t,
    In t (transitions_ ata) ->
    (source_ t = MAtom l0 -> reset_free (formula_ t) = true)
    /\ forall location,
         In location (formula_locations (formula_ t)) ->
         location <> initial_location_ ata
         /\ (In location (get_subformulas_of_type
                            (to_positive_normal_form input_formula) LUNTIL)
             \/ In location (final_locations_ ata)).
Proof.
  intros t Hin.
  pose proof (translate_transition input_formula alphabet ata Htranslate) as Ht.
  destruct (translate_Ok input_formula alphabet ata Htranslate) as [tss [_ Hata]].
  set (formula := to_positive_normal_form input_formula) in *.
  assert (Hinitial : initial_location_ ata = MAtom l0) by (rewrite Hata; reflexivity).
  assert (Hfinal : final_locations_ ata = get_subformulas_of_type formula LDUNTIL)
    by (rewrite Hata; reflexivity).
  rewrite Hinitial, Hfinal. clear Hata Hinitial Hfinal.
  assert (Hclosure : forall g location,
             In g (subformulas formula) -> In location (subformulas g) ->
             get_operator location = LUNTIL \/ get_operator location = LDUNTIL ->
             location <> MAtom l0
             /\ (In location (get_subformulas_of_type formula LUNTIL)
                 \/ In location (get_subformulas_of_type formula LDUNTIL))).
  { intros g l Hg Hl Hop. split; [intros ->; destruct Hop; discriminate |].
    pose proof (subformulas_trans _ _ _ Hg Hl) as Hsub.
    destruct Hop as [Hop | Hop]; [left | right];
      apply get_subformulas_of_type_In; split; assumption. }
  apply Ht in Hin. destruct Hin as [symbol [_ Hcase]].
  destruct Hcase as [[f0 [H0 ->]] | [[u [Hu Hut]] | [u [Hu Hut]]]].
  - cbn [source_ formula_]. destruct (init_formula _ _ _ _ H0) as [Hloc Hreset].
    split; [intros _; exact Hreset |].
    intros l Hl. destruct (Hloc l Hl) as [Hsub Hop].
    apply (Hclosure formula l (subformulas_self _) Hsub Hop).
  - destruct (until_transition_Ok _ _ _ Hut) as (Hs & _ & Hloc).
    apply get_subformulas_of_type_In in Hu. destruct Hu as [Hu Hop_u].
    split; [intros Hl0; rewrite Hs in Hl0; rewrite Hl0 in Hop_u; discriminate |].
    intros l Hl. destruct (Hloc l Hl) as [Hsub Hop].
    apply (Hclosure u l Hu Hsub Hop).
  - destruct (dual_until_transition_Ok _ _ _ Hut) as (Hs & _ & Hloc).
    apply get_subformulas_of_type_In in Hu. destruct Hu as [Hu Hop_u].
    split; [intros Hl0; rewrite Hs in Hl0; rewrite Hl0 in Hop_u; discriminate |].
    intros l Hl. destruct (Hloc l Hl) as [Hsub Hop].
    apply (Hclosure u l Hu Hsub Hop).
Qed.

Lemma translate_closed_witness :
  exists ata,
    translate fixtures.phi [] = Ok ata
    /\ forall t,
         In t (transitions_ ata) ->
         forall location,
           In location (formula_locations (formula_ t)) ->
           location <> initial_location_ ata.
Proof.
  eexists. split; [reflexivity |].
  intros t Ht location Hl.
  exact (proj1 (proj2 (translate_closed fixtures.phi [] _ eq_refl t Ht) location Hl)).
Defined.

End translation_facts.

(* ================================================================== *)
(** * The controller that [create_controller] returns *)
(* ================================================================== *)

Module walk_facts.
Import logic automata search controller_synthesis controller_synthesis.details.
Import controller_properties walk_properties controller_facts translation_facts.

Unset Implicit Arguments.

Section Transitions.

Variable ops : RegionOperations.
Variable K : RegionIndex.

Lemma add_clocks_transitions (constraints : list (string * ClockConstraint)) :
  forall controller,
    let controller' :=
      fold_left (fun c cc => add_clock (fst cc) c) constraints controller in
    transitions_ controller' = transitions_ controller
    /\ alphabet_ controller' = alphabet_ controller
    /\ initial_location_ controller' = initial_location_ controller
    /\ (forall x, In x (clocks_ controller')
                  <-> In x (clocks_ controller) \/ exists cc, In cc constraints /\ fst cc = x).
Proof.
  induction constraints as [| cc constraints IH]; intros controller; simpl.
  - repeat split; auto. intros [H | [cc [[] _]]]. exact H.
  - destruct (IH (add_clock (fst cc) controller)) as (Ht & Ha & Hi & Hc).
    simpl in Ht, Ha, Hi, Hc. split; [exact Ht |]. split; [exact Ha |]. split; [exact Hi |].
    intros x. rewrite Hc, (@translator_facts.set_insert_In _ string_dec). split.
    + intros [[-> | H] | [cc' [Hin Hx]]].
      * right. exists cc. split; [left; reflexivity | reflexivity].
      * left. exact H.
      * right. exists cc'. split; [right; exact Hin | exact Hx].
    + intros [H | [cc' [[<- | Hin] Hx]]].
      * left. right. exact H.
      * left. left. symmetry. exact Hx.
      * right. exists cc'. split; assumption.
Qed.

(** What one incoming action adds, when no exception is thrown. *)
Lemma add_incoming_action_Ok (node_words successor_words : Location)
  (controller controller' : TimedAutomaton) (ia : RegionIndex * ActionType) :
  add_incoming_action ops node_words successor_words K controller ia = Ok controller' ->
  exists constraints,
    get_constraints_from_time_successor ops
      (get_nth_time_successor ops (reg_a ops (hd [] node_words)) (fst ia) K)
    = Ok constraints
    /\ transitions_ controller'
       = transitions_ controller
         ++ [mkTransition node_words (snd ia) successor_words constraints []]
    /\ locations_ controller' = locations_ controller
    /\ final_locations_ controller' = final_locations_ controller
    /\ initial_location_ controller' = initial_location_ controller
    /\ (forall a, In a (alphabet_ controller') <-> a = snd ia \/ In a (alphabet_ controller))
    /\ (forall x, In x (clocks_ controller')
                  <-> In x (clocks_ controller)
                      \/ exists cc, In cc constraints /\ fst cc = x)
    /\ In node_words (locations_ controller)
    /\ In successor_words (locations_ controller).
Proof.
  unfold add_incoming_action. intros H.
  destruct (get_constraints_from_time_successor ops _) as [constraints |]; [| discriminate].
  cbn [bind] in H. exists constraints. split; [reflexivity |].
  destruct (add_clocks constraints (add_action (snd ia) controller)) as (Hl & Hf & _ & _).
  destruct (add_clocks_transitions constraints (add_action (snd ia) controller))
    as (Ht & Ha & Hi & Hc).
  cbv zeta in Hl, Hf, Ht, Ha, Hi, Hc.
  cbn [locations_ final_locations_ transitions_ initial_location_ add_action] in Hl, Hf, Ht, Hi.
  set (controller2 :=
         fold_left (fun c cc => add_clock (fst cc) c) constraints
           (add_action (snd ia) controller)) in *.
  unfold add_transition in H. cbn [source_ target_ clock_constraints_ clock_resets_] in H.
  destruct (mem_location node_words (locations_ controller2)) eqn:Hs; [| discriminate].
  destruct (mem_location successor_words (locations_ controller2)) eqn:Hg; [| discriminate].
  cbn [negb] in H.
  destruct (forallb (fun cc => mem_clock (fst cc) (clocks_ controller2)) constraints);
    [| discriminate].
  simpl in H. injection H as H. subst controller'. cbn.
  rewrite Ht, Hl, Hf, Hi. cbn.
  split; [reflexivity |]. split; [reflexivity |]. split; [reflexivity |].
  split; [reflexivity |].
  split; [intros a; rewrite Ha; cbn; apply (@translator_facts.set_insert_In _ string_dec) |].
  split; [exact Hc |].
  unfold mem_location in Hs, Hg. rewrite Hl in Hs, Hg.
  split.
  - destruct (in_dec Location_eq_dec node_words (locations_ controller));
      [assumption | discriminate].
  - destruct (in_dec Location_eq_dec successor_words (locations_ controller));
      [assumption | discriminate].
Qed.

Lemma grows_refl (N : Transition -> Prop) (L : Location -> Prop) (c : TimedAutomaton) :
  (forall tr, ~ N tr) -> (forall l, ~ L l) -> grows N L c c.
Proof.
  intros HN HL. unfold grows.
  split; [intros tr; split; [auto | intros [H | H]; [exact H | destruct (HN _ H)]] |].
  split; [reflexivity |].
  split; [intros a; split; [auto | intros [H | [tr [H _]]]; [exact H | destruct (HN _ H)]] |].
  split; [intros x; split; [auto | intros [H | [tr [cc [H _]]]];
                                   [exact H | destruct (HN _ H)]] |].
  split; intros l; (split; [auto | intros [H | H]; [exact H | destruct (HL _ H)]]).
Qed.

Lemma grows_trans (N1 N2 N : Transition -> Prop) (L1 L2 L : Location -> Prop)
  (c c1 c2 : TimedAutomaton) :
  grows N1 L1 c c1 -> grows N2 L2 c1 c2 ->
  (forall tr, N tr <-> N1 tr \/ N2 tr) -> (forall l, L l <-> L1 l \/ L2 l) ->
  grows N L c c2.
Proof.
  intros (Ht1 & Hi1 & Ha1 & Hc1 & Hl1 & Hf1) (Ht2 & Hi2 & Ha2 & Hc2 & Hl2 & Hf2) HN HL.
  unfold grows.
  split; [intros tr; rewrite Ht2, Ht1, HN; tauto |].
  split; [congruence |].
  split.
  { intros a. rewrite Ha2, Ha1. split.
    - intros [[H | [tr [Htr Hs]]] | [tr [Htr Hs]]]; [left; exact H | right | right];
        exists tr; (split; [apply HN; tauto | exact Hs]).
    - intros [H | [tr [Htr Hs]]]; [left; left; exact H |].
      apply HN in Htr. destruct Htr as [Htr | Htr]; [left; right | right];
        exists tr; split; assumption. }
  split.
  { intros x. rewrite Hc2, Hc1. split.
    - intros [[H | [tr [cc [Htr Hs]]]] | [tr [cc [Htr Hs]]]];
        [left; exact H | right | right];
        exists tr, cc; (split; [apply HN; tauto | exact Hs]).
    - intros [H | [tr [cc [Htr Hs]]]]; [left; left; exact H |].
      apply HN in Htr. destruct Htr as [Htr | Htr]; [left; right | right];
        exists tr, cc; split; assumption. }
  split; intros l; [rewrite Hl2, Hl1, HL | rewrite Hf2, Hf1, HL]; tauto.
Qed.

(** One incoming action adds its transition. *)
Lemma add_incoming_action_grows (node_words : Location) (successor : Node)
  (controller controller' : TimedAutomaton) (ia : RegionIndex * ActionType) :
  add_incoming_action ops node_words (words successor) K controller ia = Ok controller' ->
  grows
    (fun tr =>
       exists constraints,
         get_constraints_from_time_successor ops
           (get_nth_time_successor ops (reg_a ops (hd [] node_words)) (fst ia) K)
         = Ok constraints
         /\ tr = mkTransition node_words (snd ia) (words successor) constraints [])
    (fun _ => False) controller controller'.
Proof.
  intros H.
  destruct (add_incoming_action_Ok _ _ _ _ _ H)
    as (constraints & Hc & Ht & Hl & Hf & Hi & Ha & Hk & _ & _).
  unfold grows.
  split.
  { intros tr. rewrite Ht, in_app_iff. split.
    - intros [H0 | [<- | []]]; [left; exact H0 | right].
      exists constraints. split; [exact Hc | reflexivity].
    - intros [H0 | [cs [Hcs ->]]]; [left; exact H0 | right; left].
      congruence. }
  split; [exact Hi |].
  split.
  { intros a. rewrite Ha. split.
    - intros [-> | H0]; [right | left; exact H0].
      exists (mkTransition node_words (snd ia) (words successor) constraints []).
      split; [exists constraints; split; [exact Hc | reflexivity] | reflexivity].
    - intros [H0 | [tr [[cs [_ ->]] <-]]]; [right; exact H0 | left; reflexivity]. }
  split.
  { intros x. rewrite Hk. split.
    - intros [H0 | [cc [Hcc Hx]]]; [left; exact H0 | right].
      exists (mkTransition node_words (snd ia) (words successor) constraints []), cc.
      split; [exists constraints; split; [exact Hc | reflexivity] |].
      split; assumption.
    - intros [H0 | [tr [cc [[cs [Hcs ->]] [Hcc Hx]]]]]; [left; exact H0 | right].
      exists cc. split; [| exact Hx]. cbn in Hcc. congruence. }
  split; intros l; [rewrite Hl | rewrite Hf]; tauto.
Qed.

(** The incoming actions of a successor add their transitions. *)
Lemma add_incoming_actions_grow (node_words : Location) (successor : Node)
  (actions : list (RegionIndex * ActionType)) :
  forall controller controller',
    fold_result (add_incoming_action ops node_words (words successor) K) actions controller
    = Ok controller' ->
    grows
      (fun tr =>
         exists increment constraints,
           In (increment, symbol_ tr) actions
           /\ get_constraints_from_time_successor ops
                (get_nth_time_successor ops (reg_a ops (hd [] node_words)) increment K)
              = Ok constraints
           /\ tr = mkTransition node_words (symbol_ tr) (words successor) constraints [])
      (fun _ => False) controller controller'.
Proof.
  induction actions as [| ia actions IH]; intros controller controller' H; simpl in H.
  - injection H as <-. apply grows_refl; [| auto].
    intros tr (increment & constraints & [] & _).
  - destruct (add_incoming_action ops node_words (words successor) K controller ia)
      as [c1 |] eqn:H1; [| discriminate].
    cbn [bind] in H.
    eapply grows_trans;
      [apply (add_incoming_action_grows _ _ _ _ _ H1) | apply (IH _ _ H) | | tauto].
    intros tr. split.
    + intros (increment & constraints & [Heq | Hin] & Hc & Htr).
      * left. exists constraints. rewrite Heq. cbn.
        split; [exact Hc | exact Htr].
      * right. exists increment, constraints. repeat split; assumption.
    + intros [[constraints [Hc ->]] | (increment & constraints & Hin & Hc & Htr)].
      * exists (fst ia), constraints. cbn. split; [left; destruct ia; reflexivity |].
        split; [exact Hc | reflexivity].
      * exists increment, constraints. split; [right; exact Hin |]. split; assumption.
Qed.

End Transitions.

Lemma grows_ext (N N' : Transition -> Prop) (L L' : Location -> Prop)
  (c c' : TimedAutomaton) :
  grows N L c c' -> (forall tr, N' tr <-> N tr) -> (forall l, L' l <-> L l) ->
  grows N' L' c c'.
Proof.
  intros H HN HL.
  apply (grows_trans N (fun _ => False) N' L (fun _ => False) L' c c' c' H).
  - apply grows_refl; auto.
  - intros tr. rewrite HN. tauto.
  - intros l. rewrite HL. tauto.
Qed.

Lemma add_location_grows (l : Location) (c : TimedAutomaton) :
  grows (fun _ => False) (fun l' => l' = l) c (add_final_location l (add_location l c)).
Proof.
  unfold grows. cbn.
  split; [intros tr; tauto |]. split; [reflexivity |].
  split; [intros a; split; [auto | intros [H | [tr [[] _]]]; exact H] |].
  split; [intros x; split; [auto | intros [H | [tr [cc [[] _]]]]; exact H] |].
  split; intros l'; rewrite (@translator_facts.set_insert_In _ Location_eq_dec); tauto.
Qed.

Lemma added_below_unfold (node n : Node) :
  added_below node n
  <-> exists s, In s (children node) /\ label s = TOP /\ (n = s \/ added_below s n).
Proof.
  split.
  - intros H. inversion H as [node0 s Hin Hl | node0 s n0 Hin Hl Hbelow]; subst.
    + exists n. auto.
    + exists s. auto.
  - intros (s & Hin & Hl & [-> | Hbelow]).
    + apply added_child; assumption.
    + eapply added_deeper; eassumption.
Qed.

Lemma locations_below_unfold (node : Node) (l : Location) :
  locations_below node l
  <-> exists s, In s (children node) /\ label s = TOP
                /\ (l = words s \/ locations_below s l).
Proof.
  unfold locations_below. split.
  - intros (n & Hbelow & Hw). apply added_below_unfold in Hbelow.
    destruct Hbelow as (s & Hin & Hl & [-> | Hbelow]); exists s.
    + auto.
    + split; [exact Hin |]. split; [exact Hl |]. right. exists n. auto.
  - intros (s & Hin & Hl & [-> | (n & Hbelow & Hw)]).
    + exists s. split; [apply added_child; assumption | reflexivity].
    + exists n. split; [eapply added_deeper; eassumption | exact Hw].
Qed.

Lemma transitions_below_unfold (ops : RegionOperations) (K : RegionIndex) (node : Node)
  (tr : Transition) :
  transitions_below ops K node tr
  <-> exists s, In s (children node) /\ label s = TOP
                /\ (transition_for ops K (words node) s tr
                    \/ transitions_below ops K s tr).
Proof.
  unfold transitions_below, step_below. split.
  - intros (parent & successor & ([-> | Hbelow] & Hin & Hl) & Htr).
    + exists successor. auto.
    + apply added_below_unfold in Hbelow.
      destruct Hbelow as (s & Hs & Hls & Hcase). exists s.
      split; [exact Hs |]. split; [exact Hls |]. right.
      exists parent, successor. split; [| exact Htr].
      split; [destruct Hcase; [left | right]; assumption |]. auto.
  - intros (s & Hs & Hls & [Htr | (parent & successor & (Hcase & Hin & Hl) & Htr)]).
    + exists node, s. auto.
    + exists parent, successor. split; [| exact Htr].
      split; [| auto]. right.
      destruct Hcase as [-> | Hbelow];
        [apply added_child; assumption | eapply added_deeper; eassumption].
Qed.

Section Walk.

Variable ops : RegionOperations.
Variable K : RegionIndex.

(** The loop over the children adds what each child labeled [TOP] adds. *)
Lemma add_successors_grows (node_words : Location) (cs : list Node) :
  Forall
    (fun s =>
       forall c c',
         add_node_to_controller ops s K c = Ok c' ->
         grows (transitions_below ops K s) (locations_below s) c c')
    cs ->
  forall c c',
    add_successors ops node_words K cs c = Ok c' ->
    grows
      (fun tr =>
         exists s, In s cs /\ label s = TOP
                   /\ (transition_for ops K node_words s tr
                       \/ transitions_below ops K s tr))
      (fun l =>
         exists s, In s cs /\ label s = TOP /\ (l = words s \/ locations_below s l))
      c c'.
Proof.
  induction 1 as [| s cs Hs _ IH]; intros c c' H; simpl in H.
  - injection H as <-. apply grows_refl.
    + intros tr (s & [] & _).
    + intros l (s & [] & _).
  - destruct (label_is TOP s) eqn:Hl; cbn [negb] in H.
    + apply search_facts.label_is_true in Hl.
      destruct (fold_result _ (incoming_actions s) _) as [c2 |] eqn:H2; [| discriminate].
      cbn [bind] in H.
      destruct (add_node_to_controller ops s K c2) as [c3 |] eqn:H3; [| discriminate].
      cbn [bind] in H.
      pose proof (add_location_grows (words s) c) as G1.
      pose proof (add_incoming_actions_grow ops K node_words s _ _ _ H2) as G2.
      pose proof (Hs _ _ H3) as G3.
      pose proof (IH _ _ H) as G4.
      pose proof (grows_trans _ _ _ _ _ _ _ _ _ G1 G2
                    (fun tr => iff_refl _) (fun l => iff_refl _)) as G12.
      pose proof (grows_trans _ _ _ _ _ _ _ _ _ G12 G3
                    (fun tr => iff_refl _) (fun l => iff_refl _)) as G123.
      pose proof (grows_trans _ _ _ _ _ _ _ _ _ G123 G4
                    (fun tr => iff_refl _) (fun l => iff_refl _)) as G.
      apply (grows_ext _ _ _ _ _ _ G).
      * intros tr. unfold transition_for. split.
        -- intros (s0 & [<- | Hin] & Hl0 & Hcase).
           ++ destruct Hcase as [Htr | Htr]; [left; left; right; exact Htr |].
              left. right. exact Htr.
           ++ right. exists s0. auto.
        -- intros [[[[] | Htr] | Htr] | (s0 & Hin & Hl0 & Hcase)].
           ++ exists s. split; [left; reflexivity |]. split; [exact Hl |]. left. exact Htr.
           ++ exists s. split; [left; reflexivity |]. split; [exact Hl |]. right. exact Htr.
           ++ exists s0. split; [right; exact Hin |]. auto.
      * intros l. split.
        -- intros (s0 & [<- | Hin] & Hl0 & Hcase).
           ++ destruct Hcase as [Hw | Hb]; [left; left; left; exact Hw |].
              left. right. exact Hb.
           ++ right. exists s0. auto.
        -- intros [[[Hw | []] | Hb] | (s0 & Hin & Hl0 & Hcase)].
           ++ exists s. split; [left; reflexivity |]. split; [exact Hl |]. left. exact Hw.
           ++ exists s. split; [left; reflexivity |]. split; [exact Hl |]. right. exact Hb.
           ++ exists s0. split; [right; exact Hin |]. auto.
    + apply search_facts.label_is_false in Hl.
      apply (grows_ext _ _ _ _ _ _ (IH _ _ H)).
      * intros tr. split.
        -- intros (s0 & [<- | Hin] & Hl0 & Hcase); [congruence |]. exists s0. auto.
        -- intros (s0 & Hin & Hrest). exists s0. split; [right; exact Hin | exact Hrest].
      * intros l. split.
        -- intros (s0 & [<- | Hin] & Hl0 & Hcase); [congruence |]. exists s0. auto.
        -- intros (s0 & Hin & Hrest). exists s0. split; [right; exact Hin | exact Hrest].
Qed.

(** The walk adds the transitions and the locations below the node. *)
Lemma add_node_to_controller_grows (node : Node) :
  forall c c',
    add_node_to_controller ops node K c = Ok c' ->
    label node = TOP
    /\ grows (transitions_below ops K node) (locations_below node) c c'.
Proof.
  induction node as [node IH] using search_facts.Node_children_ind.
  intros c c' H. rewrite add_node_to_controller_unfold in H.
  destruct (label_is TOP node) eqn:Hl; cbn [negb] in H; [| discriminate].
  split; [apply search_facts.label_is_true, Hl |].
  assert (IH' : Forall
                  (fun s =>
                     forall c c',
                       add_node_to_controller ops s K c = Ok c' ->
                       grows (transitions_below ops K s) (locations_below s) c c')
                  (children node)).
  { apply Forall_forall. rewrite Forall_forall in IH.
    intros s Hs c0 c0' H0. apply (IH s Hs c0 c0' H0). }
  apply (grows_ext _ _ _ _ _ _ (add_successors_grows (words node) (children node) IH' _ _ H)).
  - intros tr. apply transitions_below_unfold.
  - intros l. apply locations_below_unfold.
Qed.

End Walk.

Lemma added_below_step (root parent successor : Node) :
  added_below root parent -> In successor (children parent) -> label successor = TOP ->
  added_below root successor.
Proof.
  induction 1 as [node s Hin Hl | node s n Hin Hl _ IH]; intros Hs Hls.
  - eapply added_deeper; [exact Hin | exact Hl |]. apply added_child; assumption.
  - eapply added_deeper; [exact Hin | exact Hl |]. apply IH; assumption.
Qed.

Lemma create_controller_grows (ops : RegionOperations) (K : RegionIndex) (root : Node)
  (controller : TimedAutomaton) :
  create_controller ops root K = Ok controller ->
  label root = TOP
  /\ grows (transitions_below ops K root) (locations_below root)
       (TimedAutomaton_new [] (words root) []) controller.
Proof. apply add_node_to_controller_grows. Qed.

(** X20.  The transitions of the controller that [create_controller]
    returns are exactly these: for every node that is the root or was added
    below it, every child labeled [TOP] and every incoming action of the
    child, the transition from the words of the node to the words of the
    child with that action, guarded by the constraints of the time successor
    of the reg_a of the node's first word, and without resets. *)
Theorem create_controller_transitions
  (ops : RegionOperations) (K : RegionIndex) (root : Node) (controller : TimedAutomaton)
  (Hcontroller : create_controller ops root K = Ok controller) :
  forall tr : Transition,
    In tr (transitions_ controller)
    <-> exists parent successor,
          (parent = root \/ added_below root parent)
          /\ In successor (children parent) /\ label successor = TOP
          /\ exists increment constraints,
               In (increment, symbol_ tr) (incoming_actions successor)
               /\ get_constraints_from_time_successor ops
                    (get_nth_time_successor ops (reg_a ops (hd [] (words parent)))
                       increment K)
                  = Ok constraints
               /\ tr = mkTransition (words parent) (symbol_ tr) (words successor)
                         constraints [].
Proof.
  destruct (create_controller_grows ops K root controller Hcontroller)
    as [_ (Ht & _)].
  intros tr. rewrite Ht. cbn. unfold transitions_below, step_below, transition_for.
  split.
  - intros [[] | (parent & successor & (Hp & Hin & Hl) & Htr)].
    exists parent, successor. auto.
  - intros (parent & successor & Hp & Hin & Hl & Htr). right.
    exists parent, successor. auto.
Qed.

Lemma create_controller_transitions_witness :
  exists controller,
    create_controller fixtures.region_operations fixtures.top_tree 0%N = Ok controller
    /\ forall tr,
         In tr (transitions_ controller) ->
         exists parent successor,
           (parent = fixtures.top_tree \/ added_below fixtures.top_tree parent)
           /\ In successor (children parent) /\ label successor = TOP
           /\ source_ tr = words parent /\ target_ tr = words successor.
Proof.
  eexists. split; [reflexivity |].
  intros tr Htr.
  destruct (proj1 (create_controller_transitions fixtures.region_operations 0%N
                     fixtures.top_tree _ eq_refl tr) Htr)
    as (parent & successor & Hp & Hin & Hl & increment & constraints & _ & _ & Heq).
  exists parent, successor. rewrite Heq. auto.
Defined.

(** X21.  The controller that [create_controller] returns is well-formed:
    its initial location is the words of the root; its alphabet and its
    clocks are exactly the actions and the clocks that its transitions use;
    every transition leads from a location to a final location and resets
    no clock; and its locations are the initial and the final ones. *)
Theorem create_controller_well_formed
  (ops : RegionOperations) (K : RegionIndex) (root : Node) (controller : TimedAutomaton)
  (Hcontroller : create_controller ops root K = Ok controller) :
  initial_location_ controller = words root
  /\ (forall a, In a (alphabet_ controller)
                <-> exists tr, In tr (transitions_ controller) /\ symbol_ tr = a)
  /\ (forall x, In x (clocks_ controller)
                <-> exists tr cc, In tr (transitions_ controller)
                                  /\ In cc (clock_constraints_ tr) /\ fst cc = x)
  /\ (forall tr, In tr (transitions_ controller) ->
                 In (source_ tr) (locations_ controller)
                 /\ In (target_ tr) (locations_ controller)
                 /\ In (target_ tr) (final_locations_ controller)
                 /\ clock_resets_ tr = [])
  /\ (forall l, In l (locations_ controller)
                <-> l = initial_location_ controller \/ In l (final_locations_ controller)).
Proof.
  destruct (create_controller_grows ops K root controller Hcontroller)
    as [_ (Ht & Hi & Ha & Hc & Hl & Hf)].
  cbn in Ht, Hi, Ha, Hc, Hl, Hf.
  split; [exact Hi |].
  split.
  { intros a. rewrite Ha. split.
    - intros [[] | [tr [Htr Hs]]]. exists tr. split; [apply Ht; right; exact Htr | exact Hs].
    - intros [tr [Htr Hs]]. right. exists tr.
      apply Ht in Htr. destruct Htr as [[] | Htr]. split; assumption. }
  split.
  { intros x. rewrite Hc. split.
    - intros [[] | [tr [cc [Htr Hs]]]]. exists tr, cc.
      split; [apply Ht; right; exact Htr | exact Hs].
    - intros [tr [cc [Htr Hs]]]. right. exists tr, cc.
      apply Ht in Htr. destruct Htr as [[] | Htr]. split; assumption. }
  split.
  { intros tr Htr. apply Ht in Htr. destruct Htr as [[] | Htr].
    destruct Htr as (parent & successor & (Hp & Hin & Hlab) & increment & constraints
                     & _ & _ & ->).
    cbn.
    assert (Hsucc : added_below root successor).
    { destruct Hp as [-> | Hp]; [apply added_child; assumption |].
      eapply added_below_step; eassumption. }
    split.
    - apply Hl. destruct Hp as [-> | Hp]; [left; left; reflexivity |].
      right. exists parent. split; [exact Hp | reflexivity].
    - split; [apply Hl; right; exists successor; split; [exact Hsucc | reflexivity] |].
      split; [apply Hf; right; exists successor; split; [exact Hsucc | reflexivity] |].
      reflexivity. }
  intros l. rewrite Hl, Hf, Hi. split.
  - intros [[<- | []] | H]; [left; reflexivity | right; right; exact H].
  - intros [-> | [[] | H]]; [left; left; reflexivity | right; exact H].
Qed.

Lemma create_controller_well_formed_witness :
  exists controller,
    create_controller fixtures.region_operations fixtures.top_tree 0%N = Ok controller
    /\ initial_location_ controller = words fixtures.top_tree
    /\ forall a, In a (alphabet_ controller)
                 <-> exists tr, In tr (transitions_ controller) /\ symbol_ tr = a.
Proof.
  eexists. split; [reflexivity |].
  destruct (create_controller_well_formed fixtures.region_operations 0%N
              fixtures.top_tree _ eq_refl) as (Hi & Ha & _).
  split; [exact Hi | exact Ha].
Defined.

Lemma prune_children (n : Node) :
  children (prune n)
  = flat_map (fun c => if label_is TOP c then [prune c] else []) (children n).
Proof.
  destruct n as [ws ia st lb lr ex cs]. cbn [prune children].
  induction cs as [| c cs IH]; [reflexivity |].
  cbn [flat_map]. destruct (label_is TOP c); cbn [app]; rewrite <- IH; reflexivity.
Qed.

Lemma prune_data (n : Node) :
  words (prune n) = words n /\ incoming_actions (prune n) = incoming_actions n
  /\ label (prune n) = label n.
Proof. destruct n; repeat split. Qed.

Lemma add_node_to_controller_prune (ops : RegionOperations) (K : RegionIndex)
  (node : Node) :
  forall c,
    add_node_to_controller ops (prune node) K c = add_node_to_controller ops node K c.
Proof.
  induction node as [node IH] using search_facts.Node_children_ind.
  intros c. rewrite !add_node_to_controller_unfold.
  destruct (prune_data node) as (Hw & _ & Hl).
  unfold label_is. rewrite Hl, Hw, prune_children.
  destruct (NodeLabel_eq_dec (label node) TOP); [| reflexivity]. cbn [negb].
  revert c. induction IH as [| s cs Hs _ IHcs]; intros c; [reflexivity |].
  cbn [flat_map add_successors].
  destruct (label_is TOP s) eqn:Hls; cbn [negb app add_successors].
  - destruct (prune_data s) as (Hws & Has & Hlbs).
    unfold label_is in *. rewrite Hlbs, Hls, Hws, Has. cbn [negb].
    destruct (fold_result _ (incoming_actions s) _) as [c2 |]; [| reflexivity].
    cbn [bind]. rewrite Hs.
    destruct (add_node_to_controller ops s K c2) as [c3 |]; [| reflexivity].
    cbn [bind]. apply IHcs.
  - apply IHcs.
Qed.

(** X22.  The sub-trees below children that are not labeled [TOP] have no
    influence on the controller: [create_controller] on the tree with these
    children cut off gives the same result. *)
Theorem create_controller_prune
  (ops : RegionOperations) (K : RegionIndex) (root : Node) :
  create_controller ops (prune root) K = create_controller ops root K.
Proof.
  unfold create_controller. rewrite add_node_to_controller_prune.
  destruct (prune_data root) as (-> & _). reflexivity.
Qed.

Section Constraints.

Variable ops : RegionOperations.

(** The constraints of one region state. *)
Let of_state (region_state : ABRegionSymbol) : result (list (string * ClockConstraint)) :=
  match region_state with
  | TASymbol st =>
      Ok (map (fun constraint => (clock st, constraint))
            (get_clock_constraints_from_region_index ops (region_index st)))
  | ATASymbol _ => Throw bad_variant_access
  end.

Let of_symbol (symbol : list ABRegionSymbol) : result (list (string * ClockConstraint)) :=
  per_state <- for_each of_state symbol ;; Ok (List.concat per_state).

Lemma get_constraints_unfold (word : CanonicalABWord) :
  get_constraints_from_time_successor ops word
  = (per_symbol <- for_each of_symbol word ;; Ok (List.concat per_symbol)).
Proof. reflexivity. Qed.

Lemma of_symbol_Ok (symbol : list ABRegionSymbol)
  (constraints : list (string * ClockConstraint)) :
  of_symbol symbol = Ok constraints ->
  (forall region_state, In region_state symbol -> exists st, region_state = TASymbol st)
  /\ forall x constraint,
       In (x, constraint) constraints
       <-> exists st, In (TASymbol st) symbol /\ clock st = x
                      /\ In constraint
                           (get_clock_constraints_from_region_index ops (region_index st)).
Proof.
  unfold of_symbol. intros H.
  destruct (for_each of_state symbol) as [per_state |] eqn:Hper; [| discriminate].
  cbn [bind] in H. injection H as <-.
  pose proof (for_each_Ok _ _ _ _ _ Hper) as Hall.
  split.
  - intros region_state Hin.
    destruct (Forall2_In_l _ _ _ _ _ Hall region_state Hin) as [cs [_ Hcs]].
    destruct region_state as [st | st]; [exists st; reflexivity | discriminate].
  - intros x constraint. rewrite in_concat. split.
    + intros [cs [Hcs Hin]].
      destruct (Forall2_In_r _ _ _ _ _ Hall cs Hcs) as [region_state [Hrs Hok]].
      destruct region_state as [st | st]; [| discriminate].
      cbn in Hok. injection Hok as <-. apply in_map_iff in Hin.
      destruct Hin as [constraint' [Heq Hin]]. injection Heq as <- <-.
      exists st. auto.
    + intros (st & Hst & <- & Hin).
      destruct (Forall2_In_l _ _ _ _ _ Hall (TASymbol st) Hst) as [cs [Hcs Hok]].
      cbn in Hok. injection Hok as <-.
      eexists. split; [exact Hcs |]. apply in_map_iff. exists constraint. auto.
Qed.

Lemma of_symbol_total (symbol : list ABRegionSymbol) :
  (forall region_state, In region_state symbol -> exists st, region_state = TASymbol st) ->
  exists constraints, of_symbol symbol = Ok constraints.
Proof.
  intros H. unfold of_symbol.
  destruct (@translator_facts.for_each_total _ _ of_state symbol) as [per_state ->].
  - intros region_state Hin. destruct (H region_state Hin) as [st ->]. cbn. eauto.
  - cbn. eauto.
Qed.

(** X23.  [get_constraints_from_time_successor] returns iff the word holds
    states of the plant only, and then yields exactly the constraints of the
    region indices of these states, each with the clock of its state. *)
Theorem get_constraints_from_time_successor_states (word : CanonicalABWord) :
  ((exists constraints, get_constraints_from_time_successor ops word = Ok constraints)
   <-> ta_states_only word)
  /\ forall constraints,
       get_constraints_from_time_successor ops word = Ok constraints ->
       forall x constraint,
         In (x, constraint) constraints
         <-> exists symbol st,
               In symbol word /\ In (TASymbol st) symbol /\ clock st = x
               /\ In constraint
                    (get_clock_constraints_from_region_index ops (region_index st)).
Proof.
  rewrite get_constraints_unfold. split; [split |].
  - intros [constraints H].
    destruct (for_each of_symbol word) as [per_symbol |] eqn:Hper; [| discriminate].
    pose proof (for_each_Ok _ _ _ _ _ Hper) as Hall.
    intros symbol Hsymbol region_state Hin.
    destruct (Forall2_In_l _ _ _ _ _ Hall symbol Hsymbol) as [cs [_ Hcs]].
    exact (proj1 (of_symbol_Ok _ _ Hcs) region_state Hin).
  - intros Hta.
    destruct (@translator_facts.for_each_total _ _ of_symbol word) as [per_symbol ->].
    + intros symbol Hsymbol. apply of_symbol_total. exact (Hta symbol Hsymbol).
    + cbn. eauto.
  - intros constraints H x constraint.
    destruct (for_each of_symbol word) as [per_symbol |] eqn:Hper; [| discriminate].
    cbn [bind] in H. injection H as <-.
    pose proof (for_each_Ok _ _ _ _ _ Hper) as Hall.
    rewrite in_concat. split.
    + intros [cs [Hcs Hin]].
      destruct (Forall2_In_r _ _ _ _ _ Hall cs Hcs) as [symbol [Hsymbol Hok]].
      apply (proj2 (of_symbol_Ok _ _ Hok)) in Hin.
      destruct Hin as (st & Hst & Hx & Hc). exists symbol, st. auto.
    + intros (symbol & st & Hsymbol & Hst & Hx & Hc).
      destruct (Forall2_In_l _ _ _ _ _ Hall symbol Hsymbol) as [cs [Hcs Hok]].
      exists cs. split; [exact Hcs |].
      apply (proj2 (of_symbol_Ok _ _ Hok)). exists st. auto.
Qed.

End Constraints.

End walk_facts.
